(** * A shallow embedding of the statement builder of leporo/sqlf

    The model follows the current [Stmt] of the package: [addChunk],
    [String], the clause helpers built on them, [writePg] from dialect.go,
    [insertAt] from util.go, [reuseStmt] from pool.go and the per-dialect
    SQL cache (ClearCache / getCachedSQL / putCachedSQL).

    Byte buffers are [list ascii]; Go [int] positions are [Z]; lengths,
    offsets and argument counters are [nat] (a Go [int] would only wrap
    after 2^63 elements, which no buffer can hold).  Bound arguments are
    the opaque [interface{}] values of Go, modelled by [value], whose
    [VNil] is Go's [nil]. *)

From Stdlib Require Import ZArith Ascii DecimalString.
From Stdlib Require String.
From Stdlib Require Import Sorted.
From stdpp Require Import base list gmap strings.

(** ** Basic data *)

Inductive value : Type :=
| VNil
| VInt (z : Z)
| VStr (s : string).

(** A Go string literal as the bytes it holds. *)
Definition bs (s : string) : list ascii := String.list_ascii_of_string s.

Definition is_nil {A} (l : list A) : bool :=
  match l with [] => true | _ => false end.

(** [Dialect]: the two dialect values of the package.  [String] only
    compares the statement dialect with [PostgreSQL]. *)
Inductive Dialect : Type := NoDialect | PostgreSQL.

Definition is_pg (d : Dialect) : bool :=
  match d with PostgreSQL => true | NoDialect => false end.

(** [stmtChunk] *)
Record stmtChunk : Type := mkChunk {
  pos : Z;
  bufLow : nat;
  bufHigh : nat;
  hasExpr : bool;
  argLen : nat
}.

(** [Stmt]; the field [q.pos] of the source is [qpos] here, since Rocq
    record fields share one name space and [pos] is a chunk field. *)
Record Stmt : Type := mkStmt {
  dialect : Dialect;
  qpos : Z;
  chunks : list stmtChunk;
  buf : list ascii;
  sql : option (list ascii);
  args : list value;
  dest : list value
}.

Definition set_qpos (q : Stmt) (p : Z) : Stmt :=
  mkStmt (dialect q) p (chunks q) (buf q) (sql q) (args q) (dest q).
Definition set_sql (q : Stmt) (s : option (list ascii)) : Stmt :=
  mkStmt (dialect q) (qpos q) (chunks q) (buf q) s (args q) (dest q).
Definition set_dialect (q : Stmt) (d : Dialect) : Stmt :=
  mkStmt d (qpos q) (chunks q) (buf q) (sql q) (args q) (dest q).

(** Clause positions: [posStart = 100 * iota] and the following lines
    of the [const] block. *)
Definition posStart : Z := 100.
Definition posWith : Z := 200.
Definition posInsert : Z := 300.
Definition posInsertFields : Z := 400.
Definition posValues : Z := 500.
Definition posDelete : Z := 600.
Definition posUpdate : Z := 700.
Definition posSet : Z := 800.
Definition posSelect : Z := 900.
Definition posInto : Z := 1000.
Definition posFrom : Z := 1100.
Definition posWhere : Z := 1200.
Definition posGroupBy : Z := 1300.
Definition posHaving : Z := 1400.
Definition posUnion : Z := 1500.
Definition posOrderBy : Z := 1600.
Definition posLimit : Z := 1700.
Definition posOffset : Z := 1800.
Definition posReturning : Z := 1900.
Definition posEnd : Z := 2000.

(** ** util.go *)

(** Go's [copy(dst[k:], src)]: overwrites [dst] from index [k] on with
    as many elements of [src] as fit.  [src] is read before any write,
    as Go's [copy] does for overlapping slices. *)
Definition go_copy {A} (dst : list A) (k : nat) (src : list A) : list A :=
  let n := Nat.min (length dst - k) (length src) in
  take k dst ++ take n src ++ drop (k + n) dst.

(** [insertAt]: append [src], then shift the tail and copy [src] into
    place when [index < oldLen].  The capacity handling of the source
    only decides which backing array is used; it is modelled in the heap
    section below. *)
Definition insertAt (dest src : list value) (index : nat) : list value :=
  match src with
  | [] => dest
  | _ =>
      let oldLen := length dest in
      let d := dest ++ src in
      if index <? oldLen
      then go_copy (go_copy d (index + length src) (drop index d)) index src
      else d
  end.

(** ** Stmt.addChunk *)

(** Result of the backward scan of [addChunk] over the chunk list. *)
Inductive scan_res : Type :=
| SFoundEq (i : nat) (c : stmtChunk) (argTail : nat)
    (** [chunk.pos == pos] at index [i] *)
| SFoundLt (index : nat) (argTail : nat)
    (** [chunk.pos < pos]: insert at [index = i + 1] *)
| SNone (argTail : nat).
    (** the loop ran out: [index] is [0] *)

(** [for i := index - 1; i >= 0; i--]: the argument [i] here is the Go
    [i + 1], so that [O] is the exit of the loop. *)
Fixpoint scan (p : Z) (cs : list stmtChunk) (i : nat) (argTail : nat)
  : scan_res :=
  match i with
  | O => SNone argTail
  | S i' =>
      match cs !! i' with
      | Some c =>
          if (pos c =? p)%Z then SFoundEq i' c argTail
          else if (pos c <? p)%Z then SFoundLt (S i') argTail
          else scan p cs i' (argTail + argLen c)
      | None => SNone argTail
      end
  end.

(** [q.chunks = append(q.chunks, chunk)] followed by the shift
    [copy(q.chunks[index+1:], q.chunks[index:]); q.chunks[index] = chunk]. *)
Definition chunks_insert (cs : list stmtChunk) (index : nat) (c : stmtChunk)
  : list stmtChunk :=
  let cs1 := cs ++ [c] in
  if index <? length cs1 - 1
  then <[index := c]> (go_copy cs1 (index + 1) (drop index cs1))
  else cs1.

(** The [if addNew] block: write the clause (and a space when an
    expression follows) unless [addClause] is off, write [expr], and
    insert the new chunk at [index]. *)
Definition newChunk (cs : list stmtChunk) (p : Z) (bufLow0 : nat)
    (buf1 : list ascii) (addClause : bool) (clause expr : list ascii)
    (nargs index : nat) : list ascii * list stmtChunk :=
  let buf2 := buf1 ++ (if addClause
                       then clause ++ (if is_nil expr then [] else [" "%char])
                       else []) ++ expr in
  let c := mkChunk p bufLow0 (length buf2) (negb (is_nil expr)) nargs in
  (buf2, chunks_insert cs index c).

(** [addChunk(pos, clause, expr, args, sep) (index int)]. *)
Definition addChunk (q : Stmt) (p : Z) (clause expr : list ascii)
    (args0 : list value) (sep : list ascii) : Stmt * nat :=
  let nargs := length args0 in
  let bufLow0 := length (buf q) in
  let finish (buf' : list ascii) (cs' : list stmtChunk) (index argTail : nat) :=
    (mkStmt (dialect q) p cs' buf'
       None (* q.Invalidate() *)
       (if 0 <? nargs
        then insertAt (args q) args0 (length (args q) - argTail)
        else args q)
       (dest q), index) in
  match scan p (chunks q) (length (chunks q)) 0 with
  | SFoundEq i c argTail =>
      if is_nil expr then (set_qpos q p, i) (* return i *)
      else
        let buf1 := buf q ++ (if hasExpr c then sep else [" "%char]) in
        if bufHigh c =? bufLow0 then
          let buf2 := buf1 ++ expr in
          let c' := mkChunk (pos c) (bufLow c) (length buf2) true (argLen c + nargs) in
          finish buf2 (<[i := c']> (chunks q)) i argTail
        else
          let '(buf2, cs2) :=
            newChunk (chunks q) p bufLow0 buf1 false clause expr nargs (S i) in
          finish buf2 cs2 (S i) argTail
  | SFoundLt index argTail =>
      let '(buf2, cs2) :=
        newChunk (chunks q) p bufLow0 (buf q) (negb (is_nil clause)) clause expr nargs index in
      finish buf2 cs2 index argTail
  | SNone argTail =>
      let '(buf2, cs2) :=
        newChunk (chunks q) p bufLow0 (buf q) (negb (is_nil clause)) clause expr nargs 0 in
      finish buf2 cs2 0 argTail
  end.

(** ** dialect.go: writePg

    The source ranges over the runes of [s].  The two bytes it reacts to,
    ['\\'] and ['?'], are ASCII and never occur inside a multi-byte
    UTF-8 sequence (nor inside the one-byte [RuneError] steps of invalid
    input), so scanning byte by byte visits them at the same offsets.
    The [start]/[pos] bookkeeping of the source (flush [s[start:pos]]
    before each replacement, flush the rest at the end) writes exactly the
    bytes in between unchanged, which is what the recursion below does. *)
Definition itoa (n : nat) : list ascii :=
  bs (NilEmpty.string_of_uint (Nat.to_uint n)).

Fixpoint writePg (argNo : nat) (s : list ascii) : list ascii * nat :=
  match s with
  | [] => ([], argNo)
  | c :: rest =>
      if Ascii.eqb c "\"%char then
        match rest with
        | c2 :: rest' =>
            if Ascii.eqb c2 "?"%char then
              let '(o, n) := writePg argNo rest' in ("?"%char :: o, n)
            else let '(o, n) := writePg argNo rest in (c :: o, n)
        | [] => ([c], argNo)
        end
      else if Ascii.eqb c "?"%char then
        let '(o, n) := writePg (S argNo) rest in
        ("$"%char :: itoa argNo ++ o, n)
      else let '(o, n) := writePg argNo rest in (c :: o, n)
  end.

(** ** Stmt.String *)

Definition chunk_text (b : list ascii) (c : stmtChunk) : list ascii :=
  take (bufHigh c - bufLow c) (drop (bufLow c) b).

(** The loop of [String]: [n] is the loop index, [prev] the variable
    [pos], [argNo] the placeholder counter. *)
Fixpoint build_loop (d : Dialect) (b : list ascii) (n : nat) (prev : Z)
    (argNo : nat) (cs : list stmtChunk) : list ascii :=
  match cs with
  | [] => []
  | c :: cs' =>
      let sp := if (0 <? n) && (prev <? pos c)%Z then [" "%char] else [] in
      let s := chunk_text b c in
      let '(o, argNo') :=
        if (0 <? argLen c) && is_pg d then writePg argNo s else (s, argNo) in
      sp ++ o ++ build_loop d b (S n) (pos c) argNo' cs'
  end.

Definition build (q : Stmt) : list ascii :=
  build_loop (dialect q) (buf q) 0 0 1 (chunks q).

(** [String]: build once and keep the text in [q.sql]. *)
Definition Stmt_String (q : Stmt) : list ascii * Stmt :=
  match sql q with
  | Some s => (s, q)
  | None => let s := build q in (s, set_sql q (Some s))
  end.

Definition render (q : Stmt) : list ascii := fst (Stmt_String q).

(** [Invalidate] *)
Definition Invalidate (q : Stmt) : Stmt := set_sql q None.

(** ** Statement construction and the clause helpers *)

(** [getStmt]: a statement as [newStmt] creates it, with the dialect set. *)
Definition getStmt (d : Dialect) : Stmt := mkStmt d 0 [] [] None [] [].

(** [reuseStmt] (pool.go) at the level of values: every list is emptied
    and the cached text dropped.  Its effect on the backing arrays is
    modelled in the heap section. *)
Definition reuseStmt (q : Stmt) : Stmt :=
  mkStmt (dialect q) (qpos q) [] [] None [] [].

Definition Close (q : Stmt) : Stmt := reuseStmt q.

Definition run_add (q : Stmt) (p : Z) (clause expr : string) (a : list value)
    (sep : string) : Stmt :=
  fst (addChunk q p (bs clause) (bs expr) a (bs sep)).

Definition Select (q : Stmt) (expr : string) (a : list value) : Stmt :=
  run_add q posSelect "SELECT" expr a ", ".
Definition From (q : Stmt) (expr : string) (a : list value) : Stmt :=
  run_add q posFrom "FROM" expr a ", ".
Definition Where (q : Stmt) (expr : string) (a : list value) : Stmt :=
  run_add q posWhere "WHERE" expr a " AND ".
Definition GroupBy (q : Stmt) (expr : string) : Stmt :=
  run_add q posGroupBy "GROUP BY" expr [] ", ".
Definition Having (q : Stmt) (expr : string) (a : list value) : Stmt :=
  run_add q posHaving "HAVING" expr a " AND ".

(** [strings.Join(expr, ", ")] *)
Fixpoint join_comma (l : list string) : string :=
  match l with
  | [] => ""
  | [x] => x
  | x :: l' => String.append x (String.append ", " (join_comma l'))
  end.

Definition OrderBy (q : Stmt) (exprs : list string) : Stmt :=
  run_add q posOrderBy "ORDER BY" (join_comma exprs) [] ", ".
Definition Limit (q : Stmt) (limit : value) : Stmt :=
  run_add q posLimit "LIMIT ?" "" [limit] "".
Definition Offset (q : Stmt) (offset : value) : Stmt :=
  run_add q posOffset "OFFSET ?" "" [offset] "".
Definition Returning (q : Stmt) (expr : string) : Stmt :=
  run_add q posReturning "RETURNING" expr [] ", ".
Definition Update (q : Stmt) (tableName : string) : Stmt :=
  run_add q posUpdate "UPDATE" tableName [] ", ".
Definition DeleteFrom (q : Stmt) (tableName : string) : Stmt :=
  run_add q posDelete "DELETE FROM" tableName [] ", ".
Definition Expr (q : Stmt) (expr : string) (a : list value) : Stmt :=
  run_add q (qpos q) "" expr a ", ".

(** [Clause]: after the last chunk, or at [posStart] on an empty statement. *)
Definition Clause (q : Stmt) (expr : string) (a : list value) : Stmt :=
  let p := match last (chunks q) with
           | Some c => (pos c + 10)%Z
           | None => posStart
           end in
  run_add q p expr "" a ", ".

(** [To] *)
Definition To (q : Stmt) (d : list value) : Stmt :=
  match d with
  | [] => q
  | _ => mkStmt (dialect q) (qpos q) (chunks q) (buf q) (sql q) (args q)
           (insertAt (dest q) d (length (dest q)))
  end.

(** [Dialect.New] and the statement starters of dialect.go. *)
Definition New (d : Dialect) (verb : string) (a : list value) : Stmt :=
  run_add (getStmt d) posSelect verb "" a ", ".

(** The tail of [SubQuery] and [Union] once [addChunk] returned [index]:
    force the child to [NoDialect], render it, append its text and the
    suffix to the parent buffer, stretch chunk [index] to the new write
    head, and close the child. *)
Definition splice (q : Stmt) (index : nat) (query : Stmt) (suffix : list ascii)
  : Stmt * Stmt :=
  let query1 := match dialect query with
                | NoDialect => query
                | _ => Invalidate (set_dialect query NoDialect)
                end in
  let '(text, query2) := Stmt_String query1 in
  let b := buf q ++ text ++ suffix in
  let cs := match chunks q !! index with
            | Some c => <[index := mkChunk (pos c) (bufLow c) (length b) (hasExpr c) (argLen c)]> (chunks q)
            | None => chunks q
            end in
  (mkStmt (dialect q) (qpos q) cs b (sql q) (args q) (dest q), Close query2).

(** [SubQuery(prefix, suffix, query)]: returns the parent and the closed
    child. *)
Definition SubQuery (q : Stmt) (prefix suffix : string) (query : Stmt)
  : Stmt * Stmt :=
  let delimiter := if (qpos q =? posWhere)%Z then bs " AND " else bs ", " in
  let '(q1, index) := addChunk q (qpos q) [] (bs prefix) (args query) delimiter in
  splice q1 index query (bs suffix).

(** [Union(all, query)]; named [Stmt_Union] as stdpp already uses [Union]. *)
Definition Stmt_Union (q : Stmt) (all : bool) (query : Stmt) : Stmt * Stmt :=
  let p := match last (chunks q) with
           | Some c => if (posUnion <=? pos c)%Z then (pos c + 1)%Z else posUnion
           | None => posUnion
           end in
  let '(q1, index) :=
    addChunk q p (if all then bs "UNION ALL " else bs "UNION ") [] (args query) [] in
  splice q1 index query [].

(** [With(queryName, query)] *)
Definition With (q : Stmt) (queryName : string) (query : Stmt) : Stmt * Stmt :=
  SubQuery (run_add q posWith "WITH" "" [] "")
    (String.append queryName " AS (") ")" query.

Definition rendered (q : Stmt) : string := String.string_of_list_ascii (render q).

(** ** Calls at a fixed clause position

    Every clause helper above (Select, From, Where, GroupBy, Having,
    OrderBy, Limit, Offset, Returning, Update, DeleteFrom) is one [addChunk]
    call at a fixed position; [call] records the arguments of such a call. *)
Record call : Type := mkCall {
  c_pos : Z;
  c_clause : string;
  c_expr : string;
  c_args : list value;
  c_sep : string
}.

Definition apply_call (q : Stmt) (c : call) : Stmt :=
  run_add q (c_pos c) (c_clause c) (c_expr c) (c_args c) (c_sep c).

Definition run (q : Stmt) (cs : list call) : Stmt := foldl apply_call q cs.

Definition call_Select (expr : string) (a : list value) : call :=
  mkCall posSelect "SELECT" expr a ", ".
Definition call_From (expr : string) (a : list value) : call :=
  mkCall posFrom "FROM" expr a ", ".
Definition call_Where (expr : string) (a : list value) : call :=
  mkCall posWhere "WHERE" expr a " AND ".
Definition call_GroupBy (expr : string) : call :=
  mkCall posGroupBy "GROUP BY" expr [] ", ".
Definition call_OrderBy (exprs : list string) : call :=
  mkCall posOrderBy "ORDER BY" (join_comma exprs) [] ", ".

(** ** The clause view of a chunk list

    [groups] merges neighbouring chunks of one position into one entry:
    the position, the concatenated text, and [hasExpr] of its last chunk. *)
Definition group : Type := (Z * (list ascii * bool))%type.

Fixpoint groups (b : list ascii) (cs : list stmtChunk) : list group :=
  match cs with
  | [] => []
  | c :: cs' =>
      match groups b cs' with
      | (k, (t, h)) :: gs' =>
          if (k =? pos c)%Z then (k, (chunk_text b c ++ t, h)) :: gs'
          else (pos c, (chunk_text b c, hasExpr c)) :: (k, (t, h)) :: gs'
      | [] => [(pos c, (chunk_text b c, hasExpr c))]
      end
  end.

Definition stmt_groups (q : Stmt) : list group := groups (buf q) (chunks q).

(** Clause text of a call that finds no chunk at its position. *)
Definition gnew (clause expr : list ascii) : list ascii * bool :=
  ((if is_nil clause then []
    else clause ++ (if is_nil expr then [] else [" "%char])) ++ expr,
   negb (is_nil expr)).

(** The effect of one [addChunk] call on the clause view. *)
Fixpoint gupd (p : Z) (clause expr sep : list ascii) (gs : list group)
  : list group :=
  match gs with
  | [] => [(p, gnew clause expr)]
  | (k, (t, h)) :: gs' =>
      if (k <? p)%Z then (k, (t, h)) :: gupd p clause expr sep gs'
      else if (k =? p)%Z then
        (if is_nil expr then gs
         else (k, (t ++ (if h then sep else [" "%char]) ++ expr, true)) :: gs')
      else (p, gnew clause expr) :: gs
  end.

(** Clause texts joined the way [String] joins them without a dialect. *)
Fixpoint gjoin_from (prev : Z) (gs : list group) : list ascii :=
  match gs with
  | [] => []
  | (k, (t, _)) :: gs' =>
      (if (prev <? k)%Z then [" "%char] else []) ++ t ++ gjoin_from k gs'
  end.

Definition gjoin (gs : list group) : list ascii :=
  match gs with
  | [] => []
  | (k, (t, _)) :: gs' => t ++ gjoin_from k gs'
  end.

(** ** Well-formed statements

    The chunk list is sorted by position, every span lies inside the
    buffer, and the cached text, when present, is the text [String] would
    build. *)
Definition chunks_sorted (cs : list stmtChunk) : Prop :=
  StronglySorted (fun a b => (pos a <= pos b)%Z) cs.

Definition spans_ok (b : list ascii) (cs : list stmtChunk) : Prop :=
  Forall (fun c => bufLow c <= bufHigh c /\ bufHigh c <= length b) cs.

Record WF (q : Stmt) : Prop := {
  wf_sorted : chunks_sorted (chunks q);
  wf_spans : spans_ok (buf q) (chunks q);
  wf_cache : sql q = None \/ sql q = Some (build q)
}.

Definition sumArg (cs : list stmtChunk) : nat := foldr (fun c n => argLen c + n) 0 cs.

(** The argument list after an [addChunk] call that inserts [a] before
    the last [argTail] arguments. *)
Definition args_after (q : Stmt) (a : list value) (argTail : nat) : list value :=
  if 0 <? length a then insertAt (args q) a (length (args q) - argTail) else args q.

#[global] Instance value_eq_dec : EqDecision value.
Proof. solve_decision. Defined.

#[global] Instance call_eq_dec : EqDecision call.
Proof.
  intros [p1 c1 e1 a1 s1] [p2 c2 e2 a2 s2].
  destruct (decide (p1 = p2)), (decide (c1 = c2)), (decide (e1 = e2)),
    (decide (a1 = a2)), (decide (s1 = s2)); subst;
    first [left; reflexivity | right; intros H; inversion H; contradiction].
Defined.

(** A call on the clause view. *)
Definition gapply (gs : list group) (c : call) : list group :=
  gupd (c_pos c) (bs (c_clause c)) (bs (c_expr c)) (bs (c_sep c)) gs.

(** [cs1] and [cs2] make, clause by clause, the same calls in the same
    order; calls of different clauses may be interleaved differently. *)
Definition clause_calls (k : Z) (cs : list call) : list call :=
  filter (fun c => c_pos c = k) cs.

Definition clauses_agree (cs1 cs2 : list call) : bool :=
  forallb (fun k => bool_decide (clause_calls k cs1 = clause_calls k cs2))
    (map c_pos (cs1 ++ cs2)).

(** The number of placeholders [writePg] numbers in [s]: every [?] that
    does not follow a backslash. *)
Fixpoint pg_placeholders (s : list ascii) : nat :=
  match s with
  | [] => 0
  | c :: rest =>
      if Ascii.eqb c "\"%char then
        match rest with
        | c2 :: rest' =>
            if Ascii.eqb c2 "?"%char then pg_placeholders rest' else pg_placeholders rest
        | [] => 0
        end
      else if Ascii.eqb c "?"%char then S (pg_placeholders rest)
      else pg_placeholders rest
  end.

(** ** The per-dialect text cache (cache.go)

    [sqlCache] maps the bytes of a buffer, as a Go string, to a text.
    Every [Dialect] holds one, created empty on first use; [World] is the
    pair of caches of the two dialect values. *)
Definition sqlCache : Type := gmap string string.

Definition getCachedSQL (c : sqlCache) (b : list ascii) : option string :=
  c !! String.string_of_list_ascii b.

Definition putCachedSQL (c : sqlCache) (b : list ascii) (s : string) : sqlCache :=
  <[String.string_of_list_ascii b := s]> c.

Definition ClearCache (c : sqlCache) : sqlCache := ∅.

Record World : Type := mkWorld { cacheNo : sqlCache; cachePg : sqlCache }.

Definition dialect_cache (w : World) (d : Dialect) : sqlCache :=
  match d with NoDialect => cacheNo w | PostgreSQL => cachePg w end.

(** [String] as a step of the whole program: it reads and writes the
    statement only; the dialects' caches are passed through. *)
Definition String_w (w : World) (q : Stmt) : list ascii * Stmt * World :=
  let '(s, q') := Stmt_String q in (s, q', w).

(** Two statements of the package's tests' shape, used for [SubQuery]. *)
Definition ex_parent : Stmt :=
  Where (From (Select (getStmt PostgreSQL) "id" []) "t" []) "x = ?" [VInt 1].
Definition ex_child : Stmt :=
  Where (From (Select (getStmt PostgreSQL) "1" []) "u" []) "y = ?" [VInt 2].

(** Statements without a dialect, used for the builder's other methods. *)
Definition ex_sel : Stmt :=
  run (getStmt NoDialect) [call_Select "id" []; call_From "t" []].
Definition ex_nd : Stmt :=
  run (getStmt NoDialect) [call_Select "id" []; call_From "t" []; call_Where "a = ?" [VInt 1]].

(** ** The heap: backing arrays, byte buffers and the pools

    The value-level [Stmt] above is what a statement holds.  [Clone] and
    [Close] are about where it is held: Go slices share backing arrays,
    [*ByteBuffer]s are pointers, and [reuseStmt] puts statements and
    buffers into pools from which [getStmt] and [getBuffer] take them
    again.  This section models that memory.  Every array and buffer has
    an address [loc]; new ones get the next free address. *)

Definition loc : Type := positive.

(** A slice header: the backing array ([None] for a nil slice), its length
    and its capacity. *)
Record slice : Type := mkSlice { sarr : option loc; slen : nat; scap : nat }.

Definition nil_slice : slice := mkSlice None 0 0.

(** A [*Stmt] as stored: its slice headers and buffer pointers ([None] is
    a nil [*ByteBuffer]). *)
Record HStmt : Type := mkH {
  h_dialect : Dialect;
  h_pos : Z;
  h_chunks : slice;
  h_buf : option loc;
  h_sql : option loc;
  h_args : slice;
  h_dest : slice
}.

(** The arrays behind [[]interface{}] and [stmtChunks] slices, the bytes
    of each [ByteBuffer], the contents of [stmtPool] and of the byte
    buffer pool, and the next free address.  The pools are stacks here;
    a [sync.Pool] may also drop entries, which only makes [Get] allocate. *)
Record Mem : Type := mkMem {
  m_vals : gmap loc (list value);
  m_chs : gmap loc (list stmtChunk);
  m_bufs : gmap loc (list ascii);
  m_stmtPool : list HStmt;
  m_bufPool : list loc;
  m_next : loc
}.

Definition set_vals (m : Mem) (v : gmap loc (list value)) : Mem :=
  mkMem v (m_chs m) (m_bufs m) (m_stmtPool m) (m_bufPool m) (m_next m).
Definition set_chs (m : Mem) (c : gmap loc (list stmtChunk)) : Mem :=
  mkMem (m_vals m) c (m_bufs m) (m_stmtPool m) (m_bufPool m) (m_next m).
Definition set_bufs (m : Mem) (b : gmap loc (list ascii)) : Mem :=
  mkMem (m_vals m) (m_chs m) b (m_stmtPool m) (m_bufPool m) (m_next m).
Definition set_stmtPool (m : Mem) (sp : list HStmt) : Mem :=
  mkMem (m_vals m) (m_chs m) (m_bufs m) sp (m_bufPool m) (m_next m).
Definition set_bufPool (m : Mem) (bp : list loc) : Mem :=
  mkMem (m_vals m) (m_chs m) (m_bufs m) (m_stmtPool m) bp (m_next m).

Definition vals_at (m : Mem) (a : loc) : list value := default [] (m_vals m !! a).
Definition chs_at (m : Mem) (a : loc) : list stmtChunk := default [] (m_chs m !! a).
Definition buf_at (m : Mem) (b : loc) : list ascii := default [] (m_bufs m !! b).

(** The elements [s[0:len(s)]] of a slice. *)
Definition arr_vals (m : Mem) (s : slice) : list value :=
  match sarr s with Some a => take (slen s) (vals_at m a) | None => [] end.
Definition arr_chs (m : Mem) (s : slice) : list stmtChunk :=
  match sarr s with Some a => take (slen s) (chs_at m a) | None => [] end.
Definition buf_of (m : Mem) (b : option loc) : list ascii :=
  match b with Some l => buf_at m l | None => [] end.

(** The statement a [*Stmt] denotes in a memory. *)
Definition view (m : Mem) (h : HStmt) : Stmt :=
  mkStmt (h_dialect h) (h_pos h) (arr_chs m (h_chunks h)) (buf_of m (h_buf h))
    (option_map (buf_at m) (h_sql h)) (arr_vals m (h_args h)) (arr_vals m (h_dest h)).

(** [make]: a new array at the next free address. *)
Definition alloc_vals (m : Mem) (l : list value) : loc * Mem :=
  (m_next m, mkMem (<[m_next m := l]> (m_vals m)) (m_chs m) (m_bufs m)
               (m_stmtPool m) (m_bufPool m) (Pos.succ (m_next m))).
Definition alloc_chs (m : Mem) (l : list stmtChunk) : loc * Mem :=
  (m_next m, mkMem (m_vals m) (<[m_next m := l]> (m_chs m)) (m_bufs m)
               (m_stmtPool m) (m_bufPool m) (Pos.succ (m_next m))).
Definition alloc_buf (m : Mem) : loc * Mem :=
  (m_next m, mkMem (m_vals m) (m_chs m) (<[m_next m := []]> (m_bufs m))
               (m_stmtPool m) (m_bufPool m) (Pos.succ (m_next m))).

(** [getBuffer] ([bytebufferpool.Get]): a pooled buffer, else a new empty
    one. *)
Definition getBuffer (m : Mem) : loc * Mem :=
  match m_bufPool m with
  | b :: rest => (b, set_bufPool m rest)
  | [] => alloc_buf m
  end.

(** [putBuffer] ([bytebufferpool.Put]): the buffer is [Reset] and pooled. *)
Definition putBuffer (m : Mem) (b : loc) : Mem :=
  mkMem (m_vals m) (m_chs m) (<[b := []]> (m_bufs m)) (m_stmtPool m)
    (b :: m_bufPool m) (m_next m).

(** [buf.Write(s)] *)
Definition buf_append (m : Mem) (b : option loc) (s : list ascii) : Mem :=
  match b with
  | Some l => set_bufs m (<[l := buf_at m l ++ s]> (m_bufs m))
  | None => m
  end.

(** The bytes of a buffer after a run of writes that leaves them [s]. *)
Definition buf_set (m : Mem) (b : option loc) (s : list ascii) : Mem :=
  match b with
  | Some l => set_bufs m (<[l := s]> (m_bufs m))
  | None => m
  end.

Definition zeroChunk : stmtChunk := mkChunk 0 0 0 false 0.

(** [append(s, xs...)]: in place when the capacity suffices, else into a
    new array.  The runtime picks the new capacity (at least
    [max newLen (2 cap)] at these sizes, rounded to an allocation class);
    the model takes [max newLen (2 cap)].  No statement below depends on
    the capacity chosen. *)
Definition grow_vals (m : Mem) (s : slice) (xs : list value) : slice * Mem :=
  let n := slen s + length xs in
  let c := Nat.max n (2 * scap s) in
  let '(a, m') := alloc_vals m (arr_vals m s ++ xs ++ repeat VNil (c - n)) in
  (mkSlice (Some a) n c, m').

Definition append_vals (m : Mem) (s : slice) (xs : list value) : slice * Mem :=
  match xs with
  | [] => (s, m)
  | _ =>
      let n := slen s + length xs in
      match sarr s with
      | Some a =>
          if n <=? scap s
          then (mkSlice (Some a) n (scap s),
                set_vals m (<[a := take (slen s) (vals_at m a) ++ xs ++ drop n (vals_at m a)]>
                              (m_vals m)))
          else grow_vals m s xs
      | None => grow_vals m s xs
      end
  end.

Definition grow_chs (m : Mem) (s : slice) (xs : list stmtChunk) : slice * Mem :=
  let n := slen s + length xs in
  let c := Nat.max n (2 * scap s) in
  let '(a, m') := alloc_chs m (arr_chs m s ++ xs ++ repeat zeroChunk (c - n)) in
  (mkSlice (Some a) n c, m').

Definition append_chs (m : Mem) (s : slice) (xs : list stmtChunk) : slice * Mem :=
  match xs with
  | [] => (s, m)
  | _ =>
      let n := slen s + length xs in
      match sarr s with
      | Some a =>
          if n <=? scap s
          then (mkSlice (Some a) n (scap s),
                set_chs m (<[a := take (slen s) (chs_at m a) ++ xs ++ drop n (chs_at m a)]>
                             (m_chs m)))
          else grow_chs m s xs
      | None => grow_chs m s xs
      end
  end.

(** Writing [s[0:len(cs)]] of a chunk slice: the element updates and the
    [copy] shifts of [addChunk], whose result is the value-level chunk
    list. *)
Definition store_chs (m : Mem) (s : slice) (cs : list stmtChunk) : Mem :=
  match sarr s with
  | Some a => set_chs m (<[a := cs ++ drop (length cs) (chs_at m a)]> (m_chs m))
  | None => m
  end.

(** [insertAt] of util.go on a slice in memory: the grow step, [append],
    then the two [copy] calls on [dest[0:newLen]]. *)
Definition h_insertAt (m : Mem) (dest : slice) (src : list value) (index : nat)
  : slice * Mem :=
  match src with
  | [] => (dest, m)
  | _ =>
      let oldLen := slen dest in
      let newLen := oldLen + length src in
      let '(dest1, m1) :=
        if scap dest <? newLen then
          let newCap := if scap dest * 2 =? 0 then 5 else scap dest * 2 in
          let '(a, m') := alloc_vals m (arr_vals m dest ++ repeat VNil (newCap - oldLen)) in
          (mkSlice (Some a) oldLen newCap, m')
        else (dest, m) in
      let '(dest2, m2) := append_vals m1 dest1 src in
      if index <? oldLen then
        match sarr dest2 with
        | Some a =>
            (dest2, set_vals m2 (<[a := insertAt (take oldLen (vals_at m2 a)) src index
                                        ++ drop newLen (vals_at m2 a)]> (m_vals m2)))
        | None => (dest2, m2)
        end
      else (dest2, m2)
  end.

(** [newStmt] and [getStmt] of pool.go. *)
Definition newStmt (m : Mem) : HStmt * Mem :=
  let '(a, m') := alloc_chs m (repeat zeroChunk 8) in
  (mkH NoDialect 0 (mkSlice (Some a) 0 8) None None nil_slice nil_slice, m').

(** [stmtPool.Get()] *)
Definition popStmt (m : Mem) : HStmt * Mem :=
  match m_stmtPool m with
  | st :: rest => (st, set_stmtPool m rest)
  | [] => newStmt m
  end.

Definition h_getStmt (m : Mem) (d : Dialect) : HStmt * Mem :=
  let '(st, m1) := popStmt m in
  let '(b, m2) := getBuffer m1 in
  (mkH d (h_pos st) (h_chunks st) (Some b) (h_sql st) (h_args st) (h_dest st), m2).

(** [Invalidate] *)
Definition h_Invalidate (m : Mem) (h : HStmt) : HStmt * Mem :=
  match h_sql h with
  | Some b => (mkH (h_dialect h) (h_pos h) (h_chunks h) (h_buf h) None (h_args h) (h_dest h),
               putBuffer m b)
  | None => (h, m)
  end.

(** [addChunk] on memory.  The bytes, chunks and argument list it leaves
    are those of the value-level [addChunk]; what is modelled here is
    where they are written: the statement's buffer, its chunk array (a
    new one of twice the capacity when it is full), its argument array
    through [insertAt], and the [sql] buffer given back by [Invalidate]. *)
Definition h_addChunk (m : Mem) (h : HStmt) (p : Z) (clause expr : list ascii)
    (a : list value) (sep : list ascii) : HStmt * Mem :=
  let q := view m h in
  let '(q', index) := addChunk q p clause expr a sep in
  let '(early, argTail) :=
    match scan p (chunks q) (length (chunks q)) 0 with
    | SFoundEq _ _ t => (is_nil expr, t)
    | SFoundLt _ t => (false, t)
    | SNone t => (false, t)
    end in
  if early
  then (mkH (h_dialect h) p (h_chunks h) (h_buf h) (h_sql h) (h_args h) (h_dest h), m)
  else
    let m1 := buf_set m (h_buf h) (buf q') in
    let '(cs, m3) :=
      if length (chunks q') =? length (chunks q)
      then (h_chunks h, store_chs m1 (h_chunks h) (chunks q'))
      else
        let '(s1, m2) :=
          if scap (h_chunks h) =? slen (h_chunks h) then
            let '(c, m') := alloc_chs m1 (arr_chs m1 (h_chunks h)
                              ++ repeat zeroChunk (scap (h_chunks h) * 2 - slen (h_chunks h))) in
            (mkSlice (Some c) (slen (h_chunks h)) (scap (h_chunks h) * 2), m')
          else (h_chunks h, m1) in
        let '(s2, m2') := append_chs m2 s1 [default zeroChunk (chunks q' !! index)] in
        (s2, store_chs m2' s2 (chunks q')) in
    let '(as_, m4) :=
      if 0 <? length a then h_insertAt m3 (h_args h) a (length (args q) - argTail)
      else (h_args h, m3) in
    h_Invalidate m4 (mkH (h_dialect h) p cs (h_buf h) (h_sql h) as_ (h_dest h)).

(** [To] *)
Definition h_To (m : Mem) (h : HStmt) (d : list value) : HStmt * Mem :=
  match d with
  | [] => (h, m)
  | _ =>
      let '(ds, m') := h_insertAt m (h_dest h) d (slen (h_dest h)) in
      (mkH (h_dialect h) (h_pos h) (h_chunks h) (h_buf h) (h_sql h) (h_args h) ds, m')
  end.

(** [String]: the text is built into a buffer from the pool. *)
Definition h_String (m : Mem) (h : HStmt) : list ascii * HStmt * Mem :=
  match h_sql h with
  | Some b => (buf_at m b, h, m)
  | None =>
      let '(b, m1) := getBuffer m in
      let m2 := buf_append m1 (Some b) (build (view m h)) in
      (buf_at m2 b,
       mkH (h_dialect h) (h_pos h) (h_chunks h) (h_buf h) (Some b) (h_args h) (h_dest h), m2)
  end.

(** [Clone] *)
Definition h_Clone (m : Mem) (q : HStmt) : HStmt * Mem :=
  let '(st, m1) := h_getStmt m (h_dialect q) in
  let qcs := arr_chs m1 (h_chunks q) in
  let '(cs, m2) :=
    if scap (h_chunks st) <? length qcs
    then let '(a, m') := alloc_chs m1 (qcs ++ repeat zeroChunk 2) in
         (mkSlice (Some a) (length qcs) (length qcs + 2), m')
    else append_chs m1 (h_chunks st) qcs in
  let '(as_, m3) := h_insertAt m2 (h_args st) (arr_vals m2 (h_args q)) 0 in
  let '(ds, m4) := h_insertAt m3 (h_dest st) (arr_vals m3 (h_dest q)) 0 in
  let m5 := buf_append m4 (h_buf st) (buf_of m4 (h_buf q)) in
  match h_sql q with
  | Some b =>
      let '(b', m6) := getBuffer m5 in
      (mkH (h_dialect st) (h_pos st) cs (h_buf st) (Some b') as_ ds,
       buf_append m6 (Some b') (buf_at m6 b))
  | None => (mkH (h_dialect st) (h_pos st) cs (h_buf st) (h_sql st) as_ ds, m5)
  end.

(** [reuseStmt] of pool.go, which [Close] calls: the chunk slice is cut to
    length zero, every argument and destination entry is set to [nil]
    before those slices are cut, the buffer goes back to its pool, [buf]
    and [sql] are cleared ([q.sql = ""]) and the statement is pooled. *)
Definition nil_out (m : Mem) (s : slice) : Mem :=
  match sarr s with
  | Some a => set_vals m (<[a := repeat VNil (slen s) ++ drop (slen s) (vals_at m a)]> (m_vals m))
  | None => m
  end.

Definition h_reuseStmt (m : Mem) (q : HStmt) : Mem :=
  let cs := mkSlice (sarr (h_chunks q)) 0 (scap (h_chunks q)) in
  let '(as_, m1) :=
    if 0 <? slen (h_args q)
    then (mkSlice (sarr (h_args q)) 0 (scap (h_args q)), nil_out m (h_args q))
    else (h_args q, m) in
  let '(ds, m2) :=
    if 0 <? slen (h_dest q)
    then (mkSlice (sarr (h_dest q)) 0 (scap (h_dest q)), nil_out m1 (h_dest q))
    else (h_dest q, m1) in
  let m3 := match h_buf q with Some b => putBuffer m2 b | None => m2 end in
  set_stmtPool m3 (mkH (h_dialect q) (h_pos q) cs None None as_ ds :: m_stmtPool m3).

Definition h_Close (m : Mem) (q : HStmt) : Mem := h_reuseStmt m q.

(** The mutations of a statement: [addChunk] (every clause helper is one),
    [To], [String] and [Invalidate]. *)
Inductive hop : Type :=
| OpAdd (p : Z) (clause expr : list ascii) (a : list value) (sep : list ascii)
| OpTo (d : list value)
| OpString
| OpInvalidate.

Definition h_step (m : Mem) (h : HStmt) (o : hop) : HStmt * Mem :=
  match o with
  | OpAdd p clause expr a sep => h_addChunk m h p clause expr a sep
  | OpTo d => h_To m h d
  | OpString => let '(_, h', m') := h_String m h in (h', m')
  | OpInvalidate => h_Invalidate m h
  end.

Fixpoint h_run (m : Mem) (h : HStmt) (os : list hop) : HStmt * Mem :=
  match os with
  | [] => (h, m)
  | o :: os' => let '(h', m') := h_step m h o in h_run m' h' os'
  end.

(** Ownership: the addresses a statement holds, and the separation of all
    statements in use, the pooled statements and the pooled buffers.
    Pooled statements are empty and pooled buffers reset. *)
Definition opt_loc (o : option loc) : list loc :=
  match o with Some l => [l] | None => [] end.

Definition hfp (h : HStmt) : list loc :=
  opt_loc (sarr (h_chunks h)) ++ opt_loc (h_buf h) ++ opt_loc (h_sql h)
  ++ opt_loc (sarr (h_args h)) ++ opt_loc (sarr (h_dest h)).

Definition all_fp (m : Mem) (inuse : list HStmt) : list loc :=
  concat (map hfp (inuse ++ m_stmtPool m)) ++ m_bufPool m.

Definition pooled_ok (st : HStmt) : Prop :=
  slen (h_chunks st) = 0 /\ slen (h_args st) = 0 /\ slen (h_dest st) = 0
  /\ h_buf st = None /\ h_sql st = None.

Definition Sep (m : Mem) (inuse : list HStmt) : Prop :=
  NoDup (all_fp m inuse)
  /\ Forall (fun l => (l < m_next m)%positive) (all_fp m inuse)
  /\ Forall pooled_ok (m_stmtPool m)
  /\ Forall (fun b => m_bufs m !! b = Some []) (m_bufPool m).

#[global] Instance Sep_dec (m : Mem) (inuse : list HStmt) : Decision (Sep m inuse).
Proof. unfold Sep, pooled_ok. apply _. Defined.

(** No entry past the length of an argument slice holds a value. *)
Definition tail_nil (m : Mem) (s : slice) : Prop :=
  match sarr s with
  | Some a => Forall (fun v => v = VNil) (drop (slen s) (vals_at m a))
  | None => True
  end.

#[global] Instance tail_nil_dec (m : Mem) (s : slice) : Decision (tail_nil m s).
Proof. unfold tail_nil. destruct (sarr s); apply _. Defined.

(** A statement that holds no memory. *)
Definition empty_hstmt : HStmt := mkH NoDialect 0 nil_slice None None nil_slice nil_slice.

Definition empty_mem : Mem := mkMem ∅ ∅ ∅ [] [] 1%positive.

(** A statement in memory: [From("t").Where("a = ?", 1).To(&x)], rendered
    once. *)
Definition ex_heap : HStmt * Mem :=
  let '(h0, m0) := h_getStmt empty_mem NoDialect in
  h_run m0 h0 [OpAdd posFrom (bs "FROM") (bs "t") [] (bs ", ");
               OpAdd posWhere (bs "WHERE") (bs "a = ?") [VInt 1] (bs " AND ");
               OpTo [VStr "x"]; OpString].

(** Steps of the memory seen from an owner of the addresses [O]: the
    owner's and the pooled buffers' addresses stay distinct and allocated,
    pooled buffers stay reset, the statement pool is untouched, no address
    outside [O] and the buffer pool changes, and what is owned afterwards
    was owned or pooled before, or is new. *)
Definition agree (m m' : Mem) (L : list loc) : Prop :=
  Forall (fun l => m_vals m' !! l = m_vals m !! l /\ m_chs m' !! l = m_chs m !! l
                   /\ m_bufs m' !! l = m_bufs m !! l) L.

Definition below (m : Mem) (L : list loc) : Prop :=
  Forall (fun l => (l < m_next m)%positive) L.

Definition owned_ok (m : Mem) (O : list loc) : Prop :=
  NoDup (O ++ m_bufPool m) /\ below m (O ++ m_bufPool m)
  /\ Forall (fun b => m_bufs m !! b = Some []) (m_bufPool m).

Definition Step (m : Mem) (O : list loc) (m' : Mem) (O' : list loc) : Prop :=
  owned_ok m O ->
  owned_ok m' O' /\ m_stmtPool m' = m_stmtPool m /\ (m_next m <= m_next m')%positive
  /\ (forall L, Forall (fun l => l ∉ O ++ m_bufPool m) L -> below m L -> agree m m' L)
  /\ (forall l, l ∈ O' ++ m_bufPool m' -> l ∈ O ++ m_bufPool m \/ (m_next m <= l)%positive).

(** ** Further clause helpers of stmt.go *)

(** The marks of [In(args...)]: ["?,"] for every index below
    [l = len(args) - 1], ["?"] for the others. *)
Definition In_marks (a : list value) : list ascii :=
  let l := (Z.of_nat (length a) - 1)%Z in
  mjoin (imap (fun i _ => if (Z.of_nat i <? l)%Z then bs "?," else bs "?") a).

(** [In(args...)]; named [Stmt_In] as stdpp already uses [In]. *)
Definition Stmt_In (q : Stmt) (a : list value) : Stmt :=
  fst (addChunk q posWhere [] (bs "IN (" ++ In_marks a ++ bs ")") a (bs " ")).

(** [join(joinType, table, on) (index int)] *)
Definition join (q : Stmt) (joinType table on : string) : Stmt * nat :=
  addChunk q posFrom []
    (bs joinType ++ bs table ++ bs " ON (" ++ bs on ++ [")"%char]) [] (bs " ").

Definition Join (q : Stmt) (table on : string) : Stmt := fst (join q "JOIN " table on).
Definition LeftJoin (q : Stmt) (table on : string) : Stmt := fst (join q "LEFT JOIN " table on).
Definition RightJoin (q : Stmt) (table on : string) : Stmt := fst (join q "RIGHT JOIN " table on).
Definition FullJoin (q : Stmt) (table on : string) : Stmt := fst (join q "FULL JOIN " table on).

(** A Go [int] (64 bits): the two's complement wrap-around of a product. *)
Definition wrap64 (z : Z) : Z := (Z.modulo (z + 2 ^ 63) (2 ^ 64) - 2 ^ 63)%Z.

(** [Paginate(page, pageSize)] on [int] arguments. *)
Definition Paginate (q : Stmt) (page pageSize : Z) : Stmt :=
  let page := if (page <? 1)%Z then 1%Z else page in
  let pageSize := if (pageSize <? 1)%Z then 1%Z else pageSize in
  let q1 := if (1 <? page)%Z then Offset q (VInt (wrap64 ((page - 1) * pageSize))) else q in
  Limit q1 (VInt pageSize).

(** [InsertInto(tableName)] *)
Definition InsertInto (q : Stmt) (tableName : string) : Stmt :=
  let q1 := run_add q posInsert "INSERT INTO" tableName [] ", " in
  let q2 := run_add q1 (posInsertFields - 1) "(" "" [] "" in
  let q3 := run_add q2 (posValues - 1) ") VALUES (" "" [] "" in
  let q4 := run_add q3 (posValues + 1) ")" "" [] "" in
  set_qpos q4 posInsertFields.

(** [SetExpr(field, expr, args...)]: the position of the first INSERT or
    UPDATE chunk, 0 when there is none. *)
Definition SetExpr (q : Stmt) (field expr : string) (a : list value) : Stmt :=
  let p := match list_find (fun c => (pos c = posInsert \/ pos c = posUpdate)%Z) (chunks q) with
           | Some (_, c) => pos c
           | None => 0%Z
           end in
  if (p =? posInsert)%Z then
    run_add (run_add q posInsertFields "" field [] ", ") posValues "" expr a ", "
  else if (p =? posUpdate)%Z then
    run_add q posSet "SET" (String.append field (String.append "=" expr)) a ", "
  else q.

(** [Set(field, value)]; named [Stmt_Set] as stdpp already uses [Set]. *)
Definition Stmt_Set (q : Stmt) (field : string) (v : value) : Stmt :=
  SetExpr q field "?" [v].

(** * Proofs *)

(** ** Rendering without a dialect is the join of the clause view *)

Lemma build_loop_nd_from (b : list ascii) (cs : list stmtChunk) :
  forall n prev a,
    build_loop NoDialect b (S n) prev a cs = gjoin_from prev (groups b cs).
Proof.
  induction cs as [|c cs IH]; intros n prev a; [reflexivity|].
  cbn [build_loop groups]. rewrite andb_false_r, (IH (S n) (pos c) a).
  destruct (groups b cs) as [|[k [t h]] gs'] eqn:Eg; cbn [gjoin_from].
  - done.
  - destruct (Z.eqb_spec k (pos c)) as [->|Hne]; cbn [gjoin_from].
    + rewrite Z.ltb_irrefl. simpl. by rewrite !app_assoc.
    + done.
Qed.

Lemma build_nd_groups (q : Stmt) :
  dialect q = NoDialect -> build q = gjoin (stmt_groups q).
Proof.
  intros Hd. unfold build, stmt_groups. rewrite Hd.
  destruct (chunks q) as [|c cs]; [reflexivity|].
  cbn [build_loop groups]. rewrite andb_false_r, build_loop_nd_from.
  destruct (groups (buf q) cs) as [|[k [t h]] gs'] eqn:Eg; cbn [gjoin gjoin_from].
  - done.
  - destruct (Z.eqb_spec k (pos c)) as [->|Hne]; cbn [gjoin gjoin_from].
    + rewrite Z.ltb_irrefl. simpl. by rewrite !app_assoc.
    + done.
Qed.

(** ** Updates of two different clauses commute *)

Ltac zcmp :=
  match goal with
  | |- context [(?a <? ?b)%Z] => destruct (Z.ltb_spec a b)
  | |- context [(?a =? ?b)%Z] => destruct (Z.eqb_spec a b)
  | |- context [is_nil ?e] => destruct (is_nil e) eqn:?
  end.

Lemma gupd_comm (p1 p2 : Z) (cl1 e1 s1 cl2 e2 s2 : list ascii) (gs : list group) :
  p1 <> p2 ->
  gupd p1 cl1 e1 s1 (gupd p2 cl2 e2 s2 gs) = gupd p2 cl2 e2 s2 (gupd p1 cl1 e1 s1 gs).
Proof.
  intros Hne. induction gs as [|[k [t h]] gs IH]; cbn [gupd].
  - repeat (zcmp; cbn [gupd]); try lia; done.
  - repeat (zcmp; cbn [gupd]); subst; try lia; try done; by rewrite IH.
Qed.

(** ** List facts about the chunk sequence *)

Lemma SS_app {A} (R : A -> A -> Prop) (l1 l2 : list A) :
  StronglySorted R l1 -> StronglySorted R l2 ->
  Forall (fun x => Forall (R x) l2) l1 ->
  StronglySorted R (l1 ++ l2).
Proof.
  induction l1 as [|x l1 IH]; intros H1 H2 H12; [done|].
  apply StronglySorted_inv in H1 as [H1 Hx]. inversion H12; subst.
  simpl. constructor; [by apply IH|].
  apply Forall_app; split; done.
Qed.

Lemma SS_app_inv {A} (R : A -> A -> Prop) (l1 l2 : list A) :
  StronglySorted R (l1 ++ l2) ->
  StronglySorted R l1 /\ StronglySorted R l2 /\ Forall (fun x => Forall (R x) l2) l1.
Proof.
  induction l1 as [|x l1 IH]; intros H; simpl in *.
  - split; [constructor|]. split; [done|constructor].
  - apply StronglySorted_inv in H as [H Hx]. apply IH in H as (H1 & H2 & H12).
    apply Forall_app in Hx as [Hx1 Hx2].
    split; [by constructor|]. split; [done|]. by constructor.
Qed.

(** A sorted chunk list splits around any position [p]. *)
Lemma sorted_split (p : Z) (cs : list stmtChunk) :
  chunks_sorted cs ->
  exists A E R, cs = A ++ E ++ R /\
    Forall (fun c => (pos c < p)%Z) A /\ Forall (fun c => pos c = p) E /\
    Forall (fun c => (p < pos c)%Z) R.
Proof.
  induction cs as [|c cs IH]; intros Hs.
  - by exists [], [], [].
  - apply StronglySorted_inv in Hs as [Hs Hc].
    destruct (IH Hs) as (A & E & R & -> & HA & HE & HR).
    apply Forall_app in Hc as [HcA Hc']. apply Forall_app in Hc' as [HcE HcR].
    destruct (Z.lt_trichotomy (pos c) p) as [Hlt|[Heq|Hgt]].
    + exists (c :: A), E, R. split; [done|]. split; [by constructor|]. done.
    + destruct A as [|a A].
      * exists [], (c :: E), R. split; [done|]. split; [done|]. split; [by constructor|done].
      * inversion HA; inversion HcA; subst. lia.
    + destruct A as [|a A]; [|inversion HA; inversion HcA; subst; lia].
      destruct E as [|e E]; [|inversion HE; inversion HcE; subst; lia].
      exists [], [], (c :: R). split; [done|]. split; [done|]. split; [done|].
      by constructor.
Qed.

Lemma scan_skip (p : Z) (L R M : list stmtChunk) (t : nat) :
  Forall (fun c => (p < pos c)%Z) R ->
  scan p (L ++ R ++ M) (length L + length R) t = scan p (L ++ R ++ M) (length L) (t + sumArg R).
Proof.
  revert M t. induction R as [|r R IH] using rev_ind; intros M t HR.
  - cbn [length sumArg foldr]. by rewrite !Nat.add_0_r.
  - apply Forall_app in HR as [HR Hr]. inversion Hr; subst.
    rewrite length_app. simpl length.
    replace (length L + (length R + 1)) with (S (length L + length R)) by lia.
    cbn [scan].
    replace ((L ++ (R ++ [r]) ++ M) !! (length L + length R)) with (Some r).
    2:{ replace (L ++ (R ++ [r]) ++ M) with ((L ++ R) ++ r :: M)
          by (by rewrite <- !app_assoc).
        symmetry. apply list_lookup_middle. by rewrite length_app. }
    destruct (Z.eqb_spec (pos r) p); [lia|]. destruct (Z.ltb_spec (pos r) p); [lia|].
    replace (L ++ (R ++ [r]) ++ M) with (L ++ R ++ ([r] ++ M)) by (by rewrite !app_assoc).
    rewrite IH by done. f_equal.
    unfold sumArg. rewrite foldr_app. simpl.
    clear. induction R as [|r' R' IHR]; simpl; lia.
Qed.

Lemma scan_found (p : Z) (A E R : list stmtChunk) (c : stmtChunk) :
  Forall (fun c => (p < pos c)%Z) R -> pos c = p ->
  scan p (A ++ (E ++ [c]) ++ R) (length (A ++ (E ++ [c]) ++ R)) 0
  = SFoundEq (length A + length E) c (sumArg R).
Proof.
  intros HR Hc.
  replace (A ++ (E ++ [c]) ++ R) with ((A ++ E ++ [c]) ++ R ++ []) by (by rewrite !app_nil_r, !app_assoc).
  replace (length ((A ++ E ++ [c]) ++ R ++ [])) with (length (A ++ E ++ [c]) + length R)
    by (rewrite !length_app; simpl; lia).
  rewrite scan_skip by done.
  rewrite !length_app. simpl length.
  replace (length A + (length E + 1)) with (S (length A + length E)) by lia.
  cbn [scan].
  replace (((A ++ E ++ [c]) ++ R ++ []) !! (length A + length E)) with (Some c).
  2:{ replace ((A ++ E ++ [c]) ++ R ++ []) with ((A ++ E) ++ c :: R) by (by rewrite app_nil_r, <- !app_assoc).
      symmetry. apply list_lookup_middle. by rewrite length_app. }
  rewrite Hc, Z.eqb_refl. done.
Qed.

Lemma scan_lt (p : Z) (A R : list stmtChunk) (a : stmtChunk) :
  Forall (fun c => (p < pos c)%Z) R -> (pos a < p)%Z ->
  scan p ((A ++ [a]) ++ R) (length ((A ++ [a]) ++ R)) 0
  = SFoundLt (length (A ++ [a])) (sumArg R).
Proof.
  intros HR Ha.
  replace ((A ++ [a]) ++ R) with ((A ++ [a]) ++ R ++ []) by (by rewrite app_nil_r).
  replace (length ((A ++ [a]) ++ R ++ [])) with (length (A ++ [a]) + length R)
    by (rewrite !length_app; simpl; lia).
  rewrite scan_skip by done.
  rewrite length_app. simpl length.
  replace (length A + 1) with (S (length A)) by lia. cbn [scan].
  replace (((A ++ [a]) ++ R ++ []) !! length A) with (Some a).
  2:{ replace ((A ++ [a]) ++ R ++ []) with (A ++ a :: R) by (by rewrite app_nil_r, <- !app_assoc).
      symmetry. by apply list_lookup_middle. }
  destruct (Z.eqb_spec (pos a) p); [lia|]. destruct (Z.ltb_spec (pos a) p); [|lia].
  done.
Qed.

Lemma scan_none (p : Z) (R : list stmtChunk) :
  Forall (fun c => (p < pos c)%Z) R ->
  scan p R (length R) 0 = SNone (sumArg R).
Proof.
  intros HR. pose proof (scan_skip p [] R [] 0 HR) as H.
  rewrite app_nil_r in H. simpl in H. rewrite H. done.
Qed.

Lemma chunks_insert_spec (cs : list stmtChunk) (i : nat) (c : stmtChunk) :
  i <= length cs -> chunks_insert cs i c = take i cs ++ c :: drop i cs.
Proof.
  intros Hi. unfold chunks_insert. rewrite length_app. simpl length.
  replace (length cs + 1 - 1) with (length cs) by lia.
  destruct (Nat.ltb_spec i (length cs)) as [Hlt|Hge].
  - destruct (lookup_lt_is_Some_2 cs i Hlt) as [x Hx].
    unfold go_copy. rewrite length_app, length_drop, length_app. simpl length.
    replace (Nat.min (length cs + 1 - (i + 1)) (length cs + 1 - i)) with (length cs - i) by lia.
    rewrite take_app_le by lia.
    replace (i + 1) with (S i) by lia. rewrite (take_S_r _ _ _ Hx).
    rewrite drop_app_le by lia.
    rewrite take_app_length' by (rewrite length_drop; lia).
    rewrite (drop_ge (cs ++ [c])) by (rewrite length_app; simpl; lia).
    rewrite app_nil_r, <- app_assoc.
    rewrite insert_app_r_alt by (rewrite length_take; lia).
    rewrite length_take. replace (i - Nat.min i (length cs)) with 0 by lia. done.
  - replace i with (length cs) by lia. rewrite take_ge, drop_ge by lia. done.
Qed.

(** ** The clause view under buffer growth and list splitting *)

Lemma chunk_text_app (b x : list ascii) (c : stmtChunk) :
  bufLow c <= bufHigh c -> bufHigh c <= length b ->
  chunk_text (b ++ x) c = chunk_text b c.
Proof.
  intros H1 H2. unfold chunk_text.
  rewrite drop_app_le by lia. rewrite take_app_le by (rewrite length_drop; lia). done.
Qed.

Lemma groups_app_buf (b x : list ascii) (cs : list stmtChunk) :
  spans_ok b cs -> groups (b ++ x) cs = groups b cs.
Proof.
  induction cs as [|c cs IH]; intros Hs; [done|].
  inversion Hs as [|? ? [H1 H2] Hs']; subst. simpl.
  rewrite IH by done. rewrite chunk_text_app by done. done.
Qed.

Lemma spans_ok_app (b x : list ascii) (cs : list stmtChunk) :
  spans_ok b cs -> spans_ok (b ++ x) cs.
Proof.
  unfold spans_ok. intros H. eapply Forall_impl; [exact H|].
  intros c [H1 H2]. rewrite length_app. lia.
Qed.

Lemma groups_cons_head (b : list ascii) (c : stmtChunk) (cs : list stmtChunk) :
  exists g gs, groups b (c :: cs) = (pos c, g) :: gs.
Proof.
  simpl. destruct (groups b cs) as [|[k [t h]] gs]; [by eauto|].
  destruct (Z.eqb_spec k (pos c)) as [->|]; eauto.
Qed.

Lemma groups_app (b : list ascii) (X Y : list stmtChunk) :
  Forall (fun x => Forall (fun y => (pos x < pos y)%Z) Y) X ->
  groups b (X ++ Y) = groups b X ++ groups b Y.
Proof.
  induction X as [|x X IH]; intros HXY; [done|].
  inversion HXY as [|? ? Hx HX]; subst. simpl. rewrite IH by done.
  destruct X as [|x' X'].
  - simpl. destruct Y as [|y Y]; [done|].
    destruct (groups_cons_head b y Y) as (g & gs & ->). destruct g as [t h].
    inversion Hx; subst. destruct (Z.eqb_spec (pos y) (pos x)); [lia|]. done.
  - destruct (groups_cons_head b x' X') as (g & gs & Hg). rewrite Hg. simpl.
    destruct g as [t h]. by destruct (pos x' =? pos x)%Z.
Qed.

Lemma groups_same (b : list ascii) (p : Z) (E : list stmtChunk) (c : stmtChunk) :
  Forall (fun e => pos e = p) E -> pos c = p ->
  groups b (E ++ [c]) = [(p, (mjoin (map (chunk_text b) E) ++ chunk_text b c, hasExpr c))].
Proof.
  intros HE Hc. induction E as [|e E IH].
  - simpl. by rewrite Hc.
  - inversion HE; subst. simpl. rewrite IH by done.
    match goal with H : pos e = _ |- _ => rewrite H end.
    rewrite Z.eqb_refl, app_assoc. done.
Qed.

Lemma groups_keys (b : list ascii) (P : Z -> Prop) (cs : list stmtChunk) :
  Forall (fun c => P (pos c)) cs -> Forall (fun g : group => P g.1) (groups b cs).
Proof.
  induction cs as [|c cs IH]; intros H; [constructor|].
  inversion H as [|? ? Hc Hcs]; subst. specialize (IH Hcs). simpl.
  destruct (groups b cs) as [|[k [t h]] gs]; [by repeat constructor|].
  inversion IH; subst.
  destruct (Z.eqb_spec k (pos c)); by repeat constructor.
Qed.

Lemma gupd_pass (p : Z) (clause expr sep : list ascii) (G1 G2 : list group) :
  Forall (fun g : group => (g.1 < p)%Z) G1 ->
  gupd p clause expr sep (G1 ++ G2) = G1 ++ gupd p clause expr sep G2.
Proof.
  induction G1 as [|[k [t h]] G1 IH]; intros H; [done|].
  inversion H as [|? ? Hk HG]; subst. simpl in Hk. simpl.
  destruct (Z.ltb_spec k p); [|lia]. by rewrite IH.
Qed.

Lemma gupd_front (p : Z) (clause expr sep : list ascii) (G : list group) :
  Forall (fun g : group => (p < g.1)%Z) G ->
  gupd p clause expr sep G = (p, gnew clause expr) :: G.
Proof.
  destruct G as [|[k [t h]] G]; intros H; [done|].
  inversion H as [|? ? Hk HG]; subst. simpl in Hk. simpl.
  destruct (Z.ltb_spec k p); [lia|]. destruct (Z.eqb_spec k p); [lia|]. done.
Qed.

Lemma gupd_at (p : Z) (clause expr sep t : list ascii) (h : bool) (G : list group) :
  gupd p clause expr sep ((p, (t, h)) :: G)
  = if is_nil expr then (p, (t, h)) :: G
    else (p, (t ++ (if h then sep else [" "%char]) ++ expr, true)) :: G.
Proof. simpl. by rewrite Z.ltb_irrefl, Z.eqb_refl. Qed.

Lemma sep_lt_le (p : Z) (X Y : list stmtChunk) :
  Forall (fun x => (pos x < p)%Z) X -> Forall (fun y => (p <= pos y)%Z) Y ->
  Forall (fun x => Forall (fun y => (pos x < pos y)%Z) Y) X.
Proof.
  intros HX HY. eapply Forall_impl; [exact HX|]. intros x Hx.
  eapply Forall_impl; [exact HY|]. intros ? ?; simpl in *; lia.
Qed.

Lemma sep_le_lt (p : Z) (X Y : list stmtChunk) :
  Forall (fun x => (pos x <= p)%Z) X -> Forall (fun y => (p < pos y)%Z) Y ->
  Forall (fun x => Forall (fun y => (pos x < pos y)%Z) Y) X.
Proof.
  intros HX HY. eapply Forall_impl; [exact HX|]. intros x Hx.
  eapply Forall_impl; [exact HY|]. intros ? ?; simpl in *; lia.
Qed.

Lemma Forall_eq_le (p : Z) (E : list stmtChunk) :
  Forall (fun e => pos e = p) E -> Forall (fun e => (pos e <= p)%Z) E.
Proof. intros H. eapply Forall_impl; [exact H|]. intros ? ?; simpl in *; lia. Qed.

Lemma Forall_ge_of (p : Z) (E R : list stmtChunk) :
  Forall (fun e => pos e = p) E -> Forall (fun c => (p < pos c)%Z) R ->
  Forall (fun y => (p <= pos y)%Z) (E ++ R).
Proof.
  intros HE HR. apply Forall_app. split.
  - eapply Forall_impl; [exact HE|]. intros ? ?; simpl in *; lia.
  - eapply Forall_impl; [exact HR|]. intros ? ?; simpl in *; lia.
Qed.

Lemma groups_split3 (b : list ascii) (p : Z) (A E R : list stmtChunk) (c : stmtChunk) :
  Forall (fun x => (pos x < p)%Z) A -> Forall (fun e => pos e = p) E -> pos c = p ->
  Forall (fun x => (p < pos x)%Z) R ->
  groups b (A ++ (E ++ [c]) ++ R)
  = groups b A ++ (p, (mjoin (map (chunk_text b) E) ++ chunk_text b c, hasExpr c)) :: groups b R.
Proof.
  intros HA HE Hc HR.
  assert (HEc : Forall (fun e => pos e = p) (E ++ [c])) by (apply Forall_app; auto).
  rewrite groups_app by (apply (sep_lt_le p); [done|by apply Forall_ge_of]).
  rewrite groups_app by (apply (sep_le_lt p); [by apply Forall_eq_le|done]).
  by rewrite (groups_same b p).
Qed.

Lemma chunks_sorted_mid (p : Z) (A E R : list stmtChunk) :
  chunks_sorted A -> chunks_sorted R ->
  Forall (fun x => (pos x < p)%Z) A -> Forall (fun e => pos e = p) E ->
  Forall (fun x => (p < pos x)%Z) R -> chunks_sorted (A ++ E ++ R).
Proof.
  intros SA SR HA HE HR. unfold chunks_sorted.
  assert (SE : StronglySorted (fun a b => (pos a <= pos b)%Z) E).
  { induction E as [|e E IH]; [constructor|]. inversion HE; subst.
    constructor; [by apply IH|]. eapply Forall_impl; [done|]. intros ? ?; simpl in *; lia. }
  apply SS_app; [done| |].
  - apply SS_app; [done|done|].
    eapply Forall_impl; [exact (sep_le_lt p E R (Forall_eq_le p E HE) HR)|].
    intros x Hx. eapply Forall_impl; [exact Hx|]. intros ? ?; simpl in *; lia.
  - eapply Forall_impl; [exact (sep_lt_le p A (E ++ R) HA (Forall_ge_of p E R HE HR))|].
    intros x Hx. eapply Forall_impl; [exact Hx|]. intros ? ?; simpl in *; lia.
Qed.

Lemma map_chunk_text_app (b x : list ascii) (E : list stmtChunk) :
  spans_ok b E -> map (chunk_text (b ++ x)) E = map (chunk_text b) E.
Proof.
  induction E as [|e E IH]; intros H; [done|].
  inversion H as [|? ? [H1 H2] H']; subst. simpl. rewrite IH, chunk_text_app by done. done.
Qed.

Lemma chunk_text_tail (b x : list ascii) (c : stmtChunk) (h : bool) (n : nat) :
  bufLow c <= length b ->
  chunk_text (b ++ x) (mkChunk (pos c) (bufLow c) (length (b ++ x)) h n)
  = chunk_text b (mkChunk (pos c) (bufLow c) (length b) h n) ++ x.
Proof.
  intros H. unfold chunk_text. simpl. rewrite !take_ge by (rewrite length_drop; lia).
  by rewrite drop_app_le.
Qed.

Lemma chunk_text_fresh (b x : list ascii) (p : Z) (h : bool) (n : nat) :
  chunk_text (b ++ x) (mkChunk p (length b) (length (b ++ x)) h n) = x.
Proof.
  unfold chunk_text. simpl. rewrite drop_app_length, take_ge; [done|].
  rewrite length_app. lia.
Qed.

(** ** The four outcomes of [addChunk] on a sorted chunk list *)

Lemma addChunk_fresh (q : Stmt) (p : Z) (clause expr : list ascii) (a : list value)
    (sep : list ascii) (A R : list stmtChunk) :
  chunks q = A ++ R -> Forall (fun x => (pos x < p)%Z) A -> Forall (fun x => (p < pos x)%Z) R ->
  fst (addChunk q p clause expr a sep)
  = mkStmt (dialect q) p
      (A ++ mkChunk p (length (buf q)) (length (buf q ++ fst (gnew clause expr)))
              (negb (is_nil expr)) (length a) :: R)
      (buf q ++ fst (gnew clause expr)) None (args_after q a (sumArg R)) (dest q).
Proof.
  intros Hcs HA HR. unfold addChunk. rewrite Hcs.
  destruct A as [|a0 A' _] using rev_ind.
  - simpl app. rewrite scan_none by done. unfold newChunk.
    rewrite chunks_insert_spec by lia. simpl take. simpl drop.
    unfold gnew, args_after. simpl fst. by destruct (is_nil clause).
  - apply Forall_app in HA as [_ Ha]. inversion Ha; subst.
    rewrite scan_lt by done. unfold newChunk.
    rewrite chunks_insert_spec by (rewrite !length_app; lia).
    rewrite take_app_length, drop_app_length.
    unfold gnew, args_after. simpl fst. by destruct (is_nil clause).
Qed.

Lemma addChunk_noop (q : Stmt) (p : Z) (clause expr : list ascii) (a : list value)
    (sep : list ascii) (A E R : list stmtChunk) (c : stmtChunk) :
  chunks q = A ++ (E ++ [c]) ++ R -> pos c = p -> Forall (fun x => (p < pos x)%Z) R ->
  is_nil expr = true ->
  fst (addChunk q p clause expr a sep) = set_qpos q p.
Proof.
  intros Hcs Hc HR He. unfold addChunk. rewrite Hcs, scan_found by done.
  by rewrite He.
Qed.

Lemma insert_mid (A E R : list stmtChunk) (c c' : stmtChunk) :
  <[length A + length E := c']> (A ++ (E ++ [c]) ++ R) = A ++ (E ++ [c']) ++ R.
Proof.
  replace (A ++ (E ++ [c]) ++ R) with ((A ++ E) ++ c :: R) by (by rewrite <- !app_assoc).
  replace (A ++ (E ++ [c']) ++ R) with ((A ++ E) ++ c' :: R) by (by rewrite <- !app_assoc).
  rewrite insert_app_r_alt by (rewrite length_app; lia).
  rewrite length_app. by rewrite Nat.sub_diag.
Qed.

Lemma addChunk_extend (q : Stmt) (p : Z) (clause expr : list ascii) (a : list value)
    (sep : list ascii) (A E R : list stmtChunk) (c : stmtChunk) :
  chunks q = A ++ (E ++ [c]) ++ R -> pos c = p -> Forall (fun x => (p < pos x)%Z) R ->
  is_nil expr = false -> bufHigh c = length (buf q) ->
  fst (addChunk q p clause expr a sep)
  = mkStmt (dialect q) p
      (A ++ (E ++ [mkChunk p (bufLow c)
                     (length (buf q ++ (if hasExpr c then sep else [" "%char]) ++ expr))
                     true (argLen c + length a)]) ++ R)
      (buf q ++ (if hasExpr c then sep else [" "%char]) ++ expr) None
      (args_after q a (sumArg R)) (dest q).
Proof.
  intros Hcs Hc HR He Hh. unfold addChunk. rewrite Hcs, scan_found by done.
  rewrite He. cbn zeta. rewrite Hh, Nat.eqb_refl, insert_mid, Hc. simpl fst. unfold args_after. by rewrite <- !app_assoc.
Qed.

Lemma addChunk_after (q : Stmt) (p : Z) (clause expr : list ascii) (a : list value)
    (sep : list ascii) (A E R : list stmtChunk) (c : stmtChunk) :
  chunks q = A ++ (E ++ [c]) ++ R -> pos c = p -> Forall (fun x => (p < pos x)%Z) R ->
  is_nil expr = false -> bufHigh c <> length (buf q) ->
  fst (addChunk q p clause expr a sep)
  = mkStmt (dialect q) p
      (A ++ ((E ++ [c]) ++ [mkChunk p (length (buf q))
                     (length (buf q ++ (if hasExpr c then sep else [" "%char]) ++ expr))
                     true (length a)]) ++ R)
      (buf q ++ (if hasExpr c then sep else [" "%char]) ++ expr) None
      (args_after q a (sumArg R)) (dest q).
Proof.
  intros Hcs Hc HR He Hh. unfold addChunk. rewrite Hcs, scan_found by done.
  rewrite He. destruct (Nat.eqb_spec (bufHigh c) (length (buf q))); [done|].
  unfold newChunk. rewrite chunks_insert_spec by (rewrite !length_app; simpl; lia).
  replace (S (length A + length E)) with (length (A ++ E ++ [c]))
    by (rewrite !length_app; simpl; lia).
  replace (A ++ (E ++ [c]) ++ R) with ((A ++ E ++ [c]) ++ R) by (by rewrite !app_assoc).
  rewrite take_app_length, drop_app_length. rewrite He. simpl negb.
  simpl. unfold args_after. rewrite <- !app_assoc. done.
Qed.

Lemma spans_ok_cons_new (b x : list ascii) (A R : list stmtChunk) (mid : list stmtChunk) :
  spans_ok b A -> spans_ok b R -> spans_ok (b ++ x) mid ->
  spans_ok (b ++ x) (A ++ mid ++ R).
Proof.
  intros HA HR Hm. unfold spans_ok. rewrite !Forall_app.
  split; [by apply spans_ok_app|]. split; [done|by apply spans_ok_app].
Qed.

(** One [addChunk] call keeps a statement well formed and acts on its
    clause view as [gupd]. *)
Lemma addChunk_step (q : Stmt) (p : Z) (clause expr : list ascii) (a : list value)
    (sep : list ascii) :
  WF q ->
  WF (fst (addChunk q p clause expr a sep)) /\
  stmt_groups (fst (addChunk q p clause expr a sep))
    = gupd p clause expr sep (stmt_groups q) /\
  dialect (fst (addChunk q p clause expr a sep)) = dialect q.
Proof.
  intros [Hso Hsp Hc].
  destruct (sorted_split p _ Hso) as (A & E & R & Hcs & HA & HE & HR).
  pose proof Hso as Hso'. rewrite Hcs in Hso'.
  apply SS_app_inv in Hso' as (SA & SER & _). apply SS_app_inv in SER as (SE & SR & _).
  rewrite Hcs in Hsp. unfold spans_ok in Hsp. rewrite !Forall_app in Hsp.
  destruct Hsp as (SpA & SpE & SpR).
  unfold stmt_groups. rewrite Hcs.
  assert (KA : Forall (fun g : group => (g.1 < p)%Z) (groups (buf q) A))
    by (by apply (groups_keys _ (fun k => (k < p)%Z))).
  assert (KR : Forall (fun g : group => (p < g.1)%Z) (groups (buf q) R))
    by (by apply (groups_keys _ (fun k => (p < k)%Z))).
  destruct E as [|c E _] using rev_ind.
  - rewrite (addChunk_fresh q p clause expr a sep A R) by done.
    split; [|split; [|done]].
    + constructor; simpl.
      * apply (chunks_sorted_mid p A [_] R); auto.
      * apply (spans_ok_cons_new (buf q) _ A R [_]); [done|done|]. apply Forall_singleton; simpl; rewrite ?length_app; lia.
      * by left.
    + simpl. change (A ++ ?c :: R) with (A ++ ([] ++ [c]) ++ R).
      rewrite (groups_split3 _ p) by (auto; done).
      rewrite !groups_app_buf by done. rewrite chunk_text_fresh.
      rewrite app_nil_l, groups_app by (apply (sep_lt_le p); [done|by apply (Forall_ge_of p [])]).
      rewrite gupd_pass, gupd_front by done.
      done.
  - apply Forall_app in HE as [HE Hc1]. inversion Hc1 as [|? ? Hcp _]; subst.
    rewrite (groups_split3 _ (pos c)) by done. rewrite gupd_pass, gupd_at by done.
    destruct (is_nil expr) eqn:He.
    + rewrite (addChunk_noop q (pos c) clause expr a sep A E R c) by done.
      split; [|split; [|done]].
      * constructor; simpl.
        -- exact Hso.
        -- unfold spans_ok. rewrite Hcs, !Forall_app. apply Forall_app in SpE. tauto.
        -- destruct Hc as [Hn|Hb]; [by left|right]. by rewrite Hb.
      * simpl. rewrite Hcs. by rewrite (groups_split3 _ (pos c)).
    + apply Forall_app in SpE as [SpE Spc]. inversion Spc as [|? ? [Hlh Hhb] _]; subst.
      destruct (Nat.eq_dec (bufHigh c) (length (buf q))) as [Hh|Hh].
      * rewrite (addChunk_extend q (pos c) clause expr a sep A E R c) by done.
        split; [|split; [|done]].
        -- constructor; simpl.
           ++ apply (chunks_sorted_mid (pos c)); auto. apply Forall_app. auto.
           ++ apply spans_ok_cons_new; [done|done|].
              apply Forall_app. split; [by apply spans_ok_app|].
              apply Forall_singleton; simpl; rewrite ?length_app; lia.
           ++ by left.
        -- simpl. rewrite (groups_split3 _ (pos c)) by done.
           rewrite !groups_app_buf by done. rewrite map_chunk_text_app by done.
           replace (bufLow c) with (bufLow c) by done.
           rewrite (chunk_text_tail (buf q) _ c true).
           2: lia.
           replace (chunk_text (buf q) (mkChunk (pos c) (bufLow c) (length (buf q)) true (argLen c + length a)))
             with (chunk_text (buf q) c) by (unfold chunk_text; simpl; by rewrite Hh).
           by rewrite !app_assoc.
      * rewrite (addChunk_after q (pos c) clause expr a sep A E R c) by done.
        split; [|split; [|done]].
        -- constructor; simpl.
           ++ apply (chunks_sorted_mid (pos c)); auto. rewrite !Forall_app. auto.
           ++ apply spans_ok_cons_new; [done|done|].
              unfold spans_ok. rewrite !Forall_app. split; [split; by apply spans_ok_app|].
              apply Forall_singleton; simpl; rewrite ?length_app; lia.
           ++ by left.
        -- simpl. rewrite (groups_split3 _ (pos c) A (E ++ [c])) by (rewrite ?Forall_app; auto).
           rewrite !groups_app_buf by done.
           rewrite map_chunk_text_app by (unfold spans_ok; rewrite Forall_app; auto).
           rewrite chunk_text_fresh, map_app. simpl.
           rewrite join_app. simpl. by rewrite app_nil_r, !app_assoc.
Qed.

(** ** Call sequences *)

Lemma WF_getStmt (d : Dialect) : WF (getStmt d).
Proof. constructor; simpl; [constructor|constructor|by left]. Qed.

Lemma run_step (q : Stmt) (cs : list call) :
  WF q ->
  WF (run q cs) /\ stmt_groups (run q cs) = foldl gapply (stmt_groups q) cs /\
  dialect (run q cs) = dialect q.
Proof.
  revert q. induction cs as [|c cs IH]; intros q Hq; [done|].
  change (run q (c :: cs)) with (run (apply_call q c) cs). simpl foldl.
  destruct (addChunk_step q (c_pos c) (bs (c_clause c))
    (bs (c_expr c)) (c_args c) (bs (c_sep c)) Hq) as (Hq' & Hg & Hd).
  destruct (IH _ Hq') as (H1 & H2 & H3). split; [exact H1|]. split.
  - unfold apply_call, run_add. rewrite H2, Hg. done.
  - unfold apply_call, run_add. rewrite H3. done.
Qed.

Lemma render_WF (q : Stmt) : WF q -> render q = build q.
Proof.
  intros [_ _ Hc]. unfold render, Stmt_String.
  destruct Hc as [Hn|Hb]; [by rewrite Hn|by rewrite Hb].
Qed.

Lemma gapply_comm (gs : list group) (x y : call) :
  c_pos x <> c_pos y -> gapply (gapply gs x) y = gapply (gapply gs y) x.
Proof. intros H. unfold gapply. by rewrite gupd_comm. Qed.

Lemma gfold_move (x : call) (L M : list call) (gs : list group) :
  Forall (fun c => c_pos c <> c_pos x) L ->
  foldl gapply gs (L ++ x :: M) = foldl gapply gs (x :: L ++ M).
Proof.
  revert gs. induction L as [|l L IH]; intros gs HL; [done|].
  inversion HL; subst. simpl. rewrite IH by done. simpl.
  by rewrite gapply_comm.
Qed.

Lemma filter_first (k : Z) (cs : list call) (x : call) (t : list call) :
  clause_calls k cs = x :: t ->
  exists L M, cs = L ++ x :: M /\ Forall (fun c => c_pos c <> k) L /\
    c_pos x = k /\ clause_calls k M = t.
Proof.
  unfold clause_calls. induction cs as [|c cs IH]; intros H; [done|].
  rewrite filter_cons in H. case_decide.
  - injection H as <- <-. by exists [], cs.
  - destruct (IH H) as (L & M & -> & HL & Hx & HM).
    exists (c :: L), M. split; [done|]. split; [by constructor|done].
Qed.

Lemma clause_calls_none (k : Z) (L : list call) :
  Forall (fun c => c_pos c <> k) L -> clause_calls k L = [].
Proof.
  unfold clause_calls. induction L as [|l L IH]; intros H; [done|].
  inversion H; subst. rewrite filter_cons. case_decide; [done|]. by apply IH.
Qed.

Lemma gfold_agree (cs1 cs2 : list call) (gs : list group) :
  (forall k, clause_calls k cs1 = clause_calls k cs2) ->
  foldl gapply gs cs1 = foldl gapply gs cs2.
Proof.
  revert cs2 gs. induction cs1 as [|x xs IH]; intros cs2 gs H.
  - destruct cs2 as [|c cs2]; [done|]. specialize (H (c_pos c)).
    unfold clause_calls in H. rewrite filter_cons in H. case_decide; done.
  - pose proof (H (c_pos x)) as Hx. unfold clause_calls in Hx at 1.
    rewrite filter_cons in Hx. rewrite decide_True in Hx by done. symmetry in Hx.
    destruct (filter_first _ _ _ _ Hx) as (L & M & -> & HL & _ & HM).
    rewrite gfold_move by done. simpl. apply IH. intros k.
    unfold clause_calls. rewrite filter_app.
    fold (clause_calls k L). fold (clause_calls k M). fold (clause_calls k xs).
    specialize (H k). unfold clause_calls in H.
    rewrite filter_cons, filter_app, filter_cons in H.
    fold (clause_calls k L) in H. fold (clause_calls k M) in H. fold (clause_calls k xs) in H.
    destruct (decide (c_pos x = k)) as [<-|Hne].
    + rewrite (clause_calls_none _ L HL) in H |- *. simpl in H.
      injection H as H. rewrite H. done.
    + simpl in H. exact H.
Qed.

Lemma clauses_agree_spec (cs1 cs2 : list call) :
  clauses_agree cs1 cs2 = true -> forall k, clause_calls k cs1 = clause_calls k cs2.
Proof.
  unfold clauses_agree. rewrite forallb_forall. intros H k.
  destruct (in_dec Z.eq_dec k (map c_pos (cs1 ++ cs2))) as [Hin|Hin].
  - specialize (H k Hin). by apply bool_decide_eq_true in H.
  - rewrite !clause_calls_none; [done| |];
      apply Forall_forall; intros c Hc Hk; apply Hin; subst;
      apply in_map; apply in_or_app; rewrite <- !list_elem_of_In; auto.
Qed.

Lemma WF_run (d : Dialect) (cs : list call) : WF (run (getStmt d) cs).
Proof. apply run_step, WF_getStmt. Qed.

(** ** The heap: ownership steps *)

Lemma agree_refl m L : agree m m L.
Proof. apply Forall_forall. intros. auto. Qed.

Lemma agree_trans m1 m2 m3 L : agree m1 m2 L -> agree m2 m3 L -> agree m1 m3 L.
Proof.
  unfold agree. rewrite !Forall_forall. intros H1 H2 l Hl.
  destruct (H1 l Hl) as (? & ? & ?), (H2 l Hl) as (? & ? & ?).
  repeat split; congruence.
Qed.

Lemma agree_sub m m' L1 L2 :
  agree m m' L2 -> (forall l, l ∈ L1 -> l ∈ L2) -> agree m m' L1.
Proof. unfold agree. rewrite !Forall_forall. eauto. Qed.

Lemma below_mono m m' L :
  (m_next m <= m_next m')%positive -> below m L -> below m' L.
Proof. unfold below. intros ? HL. eapply Forall_impl; [exact HL|]. simpl. lia. Qed.

Lemma owned_ok_perm m O1 O2 : O1 ≡ₚ O2 -> owned_ok m O1 -> owned_ok m O2.
Proof.
  intros HP (Hn & Hb & Hp). unfold owned_ok, below in *.
  rewrite <- HP. auto.
Qed.

Lemma Step_refl m O : Step m O m O.
Proof.
  intros Hok. repeat split; auto using agree_refl; try apply Hok; try lia.
Qed.

Lemma Step_trans m1 O1 m2 O2 m3 O3 :
  Step m1 O1 m2 O2 -> Step m2 O2 m3 O3 -> Step m1 O1 m3 O3.
Proof.
  intros S1 S2 Hok.
  destruct (S1 Hok) as (Hok2 & Hp2 & Hn2 & Ha2 & Hm2).
  destruct (S2 Hok2) as (Hok3 & Hp3 & Hn3 & Ha3 & Hm3).
  split; [exact Hok3|]. split; [congruence|]. split; [lia|]. split.
  - intros L HL HbL. apply (agree_trans _ m2); [auto|]. apply Ha3.
    + apply Forall_forall. intros l Hl Hin.
      unfold below in HbL. rewrite Forall_forall in HL, HbL.
      destruct (Hm2 l Hin) as [H|H]; [exact (HL l Hl H)|].
      specialize (HbL l Hl). simpl in HbL. lia.
    + eapply below_mono; [exact Hn2|exact HbL].
  - intros l Hl. destruct (Hm3 l Hl) as [H|H]; [apply Hm2; exact H|]. right. lia.
Qed.

Lemma Step_perm m O1 O2 m' O1' O2' :
  O1 ≡ₚ O2 -> O1' ≡ₚ O2' -> Step m O1 m' O1' -> Step m O2 m' O2'.
Proof.
  intros HP HP' S Hok.
  destruct (S (owned_ok_perm _ _ _ (symmetry HP) Hok)) as (Hok' & Hp & Hn & Ha & Hm).
  split; [eapply owned_ok_perm; eauto|]. split; [auto|]. split; [auto|]. split.
  - intros L HL. apply Ha. eapply Forall_impl; [exact HL|]. simpl.
    intros l Hl. rewrite HP. exact Hl.
  - intros l Hl. rewrite <- HP'  in Hl. rewrite <- HP. auto.
Qed.

Lemma Step_frame m O m' O' R : Step m O m' O' -> Step m (O ++ R) m' (O' ++ R).
Proof.
  intros S (Hnd & Hb & Hp).
  assert (HR : NoDup (O ++ m_bufPool m) /\ NoDup R
               /\ (forall r, r ∈ R -> r ∉ O ++ m_bufPool m)).
  { rewrite <- app_assoc in Hnd.
    apply NoDup_app in Hnd as (HnO & Hd1 & Hnd2).
    apply NoDup_app in Hnd2 as (HnR & Hd2 & HnB).
    split; [|split; [exact HnR|]].
    - apply NoDup_app. split; [exact HnO|]. split; [|exact HnB].
      intros x Hx HxB. apply (Hd1 x Hx). apply elem_of_app. right. exact HxB.
    - intros r Hr Hin. apply elem_of_app in Hin as [Hin|Hin].
      + apply (Hd1 r Hin). apply elem_of_app. left. exact Hr.
      + exact (Hd2 r Hr Hin). }
  destruct HR as (HnOB & HnR & HdR).
  assert (HbO : below m (O ++ m_bufPool m)).
  { unfold below in *. rewrite Forall_app in Hb |- *. rewrite Forall_app in Hb. tauto. }
  assert (HbR : below m R).
  { unfold below in *. rewrite !Forall_app in Hb. tauto. }
  destruct (S (conj HnOB (conj HbO Hp))) as ((Hnd' & Hb' & Hp') & Hsp & Hn & Ha & Hm).
  assert (HRn : forall r, r ∈ R -> r ∉ O' ++ m_bufPool m').
  { intros r Hr Hin. destruct (Hm r Hin) as [H|H]; [exact (HdR r Hr H)|].
    unfold below in HbR. rewrite Forall_forall in HbR. specialize (HbR r Hr). lia. }
  split; [split; [|split]|].
  - rewrite <- app_assoc. apply NoDup_app.
    apply NoDup_app in Hnd' as (HnO' & Hd' & HnB').
    split; [exact HnO'|]. split.
    + intros x Hx Hin. apply elem_of_app in Hin as [Hin|Hin].
      * apply (HRn x Hin). apply elem_of_app. left. exact Hx.
      * exact (Hd' x Hx Hin).
    + apply NoDup_app. split; [exact HnR|]. split; [|exact HnB'].
      intros x Hx HxB. apply (HRn x Hx). apply elem_of_app. right. exact HxB.
  - assert (HbR' : below m' R) by (eapply below_mono; [exact Hn|exact HbR]).
    unfold below in *. rewrite !Forall_app in Hb' |- *. rewrite Forall_app. tauto.
  - exact Hp'.
  - split; [exact Hsp|]. split; [exact Hn|]. split.
    + intros L HL. apply Ha. eapply Forall_impl; [exact HL|]. simpl.
      intros l Hl Hin. apply Hl. apply elem_of_app in Hin as [Hin|Hin];
        apply elem_of_app; [left; apply elem_of_app; left; exact Hin|right; exact Hin].
    + intros l Hl. rewrite <- app_assoc in Hl. apply elem_of_app in Hl as [Hl|Hl].
      * destruct (Hm l (proj2 (elem_of_app _ _ _) (or_introl Hl))) as [H|H]; [|right; exact H].
        left. apply elem_of_app in H as [H|H]; apply elem_of_app;
          [left; apply elem_of_app; left; exact H|right; exact H].
      * apply elem_of_app in Hl as [Hl|Hl].
        -- left. apply elem_of_app. left. apply elem_of_app. right. exact Hl.
        -- destruct (Hm l (proj2 (elem_of_app _ _ _) (or_intror Hl))) as [H|H]; [|right; exact H].
           left. apply elem_of_app in H as [H|H]; apply elem_of_app;
             [left; apply elem_of_app; left; exact H|right; exact H].
Qed.


Lemma NoDup_submseteq_inv (l1 l2 : list loc) : NoDup l2 -> l1 ⊆+ l2 -> NoDup l1.
Proof.
  intros Hn Hs. apply submseteq_Permutation in Hs as [k Hk].
  rewrite Hk in Hn. apply NoDup_app in Hn. tauto.
Qed.

Lemma Step_local m m' O a :
  a ∈ O ->
  (forall l, l <> a -> m_vals m' !! l = m_vals m !! l /\ m_chs m' !! l = m_chs m !! l
                       /\ m_bufs m' !! l = m_bufs m !! l) ->
  m_stmtPool m' = m_stmtPool m -> m_bufPool m' = m_bufPool m -> m_next m' = m_next m ->
  Step m O m' O.
Proof.
  intros Ha Hl Hsp Hbp Hn (Hnd & Hb & Hp).
  assert (Hna : forall l, l ∈ m_bufPool m -> l <> a).
  { intros l Hin ->. apply NoDup_app in Hnd as (_ & Hd & _). exact (Hd a Ha Hin). }
  split; [|split; [exact Hsp|split; [lia|split]]].
  - unfold owned_ok, below. rewrite Hbp, Hn. split; [exact Hnd|]. split; [exact Hb|].
    apply Forall_forall. intros b Hbin. rewrite Forall_forall in Hp.
    destruct (Hl b (Hna b Hbin)) as (_ & _ & ->). auto.
  - intros L HL _. unfold agree. eapply Forall_impl; [exact HL|]. simpl.
    intros l Hin. apply Hl. intros ->. apply Hin. apply elem_of_app. left. exact Ha.
  - intros l Hin. left. rewrite <- Hbp. exact Hin.
Qed.

Lemma Step_alloc m m' O :
  m_next m' = Pos.succ (m_next m) ->
  (forall l, l <> m_next m -> m_vals m' !! l = m_vals m !! l /\ m_chs m' !! l = m_chs m !! l
                               /\ m_bufs m' !! l = m_bufs m !! l) ->
  m_stmtPool m' = m_stmtPool m -> m_bufPool m' = m_bufPool m ->
  Step m O m' (m_next m :: O).
Proof.
  intros Hn Hl Hsp Hbp (Hnd & Hb & Hp).
  assert (Hlt : forall l, l ∈ O ++ m_bufPool m -> (l < m_next m)%positive).
  { intros l Hin. unfold below in Hb. rewrite Forall_forall in Hb. auto. }
  assert (Hne : forall l, l ∈ O ++ m_bufPool m -> l <> m_next m).
  { intros l Hin ->. specialize (Hlt _ Hin). lia. }
  split; [split; [|split]|split; [exact Hsp|split; [lia|split]]].
  - rewrite Hbp. simpl. apply NoDup_cons. split; [|exact Hnd].
    intros Hin. exact (Hne _ Hin eq_refl).
  - unfold below. rewrite Hbp, Hn. simpl. constructor; [lia|].
    eapply Forall_impl; [exact Hb|]. simpl. lia.
  - rewrite Hbp. apply Forall_forall. intros b Hbin. rewrite Forall_forall in Hp.
    assert (Hb' : b <> m_next m) by (apply Hne; apply elem_of_app; right; exact Hbin).
    destruct (Hl b Hb') as (_ & _ & ->). auto.
  - intros L HL HbL. unfold agree. eapply Forall_impl; [exact HbL|]. simpl.
    intros l Hl'. apply Hl. lia.
  - intros l Hin. rewrite Hbp in Hin. simpl in Hin. apply elem_of_cons in Hin as [->|Hin].
    + right. lia.
    + left. exact Hin.
Qed.

Lemma Step_drop m O O' : O' ⊆+ O -> Step m O m O'.
Proof.
  intros Hs (Hnd & Hb & Hp).
  assert (Hs' : O' ++ m_bufPool m ⊆+ O ++ m_bufPool m) by (apply submseteq_skips_r; exact Hs).
  split; [split; [|split]|split; [auto|split; [lia|split]]].
  - eapply NoDup_submseteq_inv; eauto.
  - unfold below in *. rewrite Forall_forall in Hb |- *. intros l Hl.
    apply Hb. eapply elem_of_submseteq; eauto.
  - exact Hp.
  - intros. apply agree_refl.
  - intros l Hl. left. eapply elem_of_submseteq; eauto.
Qed.

Lemma Step_getBuffer m O b m' : getBuffer m = (b, m') -> Step m O m' (b :: O).
Proof.
  unfold getBuffer. destruct (m_bufPool m) as [|b0 rest] eqn:Ebp.
  - unfold alloc_buf. intros Heq. injection Heq as <- <-.
    apply Step_alloc; simpl; auto.
    intros l Hl. rewrite lookup_insert_ne by congruence. auto.
  - intros Heq. injection Heq as <- <-. intros (Hnd & Hb & Hp).
    unfold owned_ok, below in *. rewrite Ebp in Hnd, Hb, Hp. simpl.
    assert (HP : b0 :: O ++ rest ≡ₚ O ++ b0 :: rest) by solve_Permutation.
    split; [split; [|split]|split; [auto|split; [simpl; lia|split]]].
    + rewrite HP. exact Hnd.
    + rewrite HP. exact Hb.
    + apply Forall_cons in Hp. tauto.
    + intros. apply Forall_forall. intros. simpl. auto.
    + intros l Hl. left. rewrite Ebp. rewrite <- HP. exact Hl.
Qed.

Lemma Step_putBuffer m O b : Step m (b :: O) (putBuffer m b) O.
Proof.
  intros (Hnd & Hb & Hp). unfold owned_ok, below in *. simpl in *.
  assert (HP : O ++ b :: m_bufPool m ≡ₚ b :: O ++ m_bufPool m) by solve_Permutation.
  split; [split; [|split]|split; [auto|split; [lia|split]]].
  - rewrite HP. exact Hnd.
  - rewrite HP. exact Hb.
  - constructor.
    + apply lookup_insert_eq.
    + apply Forall_forall. intros b' Hin. rewrite Forall_forall in Hp.
      destruct (decide (b' = b)) as [->|Hne].
      * apply lookup_insert_eq.
      * rewrite lookup_insert_ne by congruence. auto.
  - intros L HL _. unfold agree. eapply Forall_impl; [exact HL|]. simpl.
    intros l Hin. rewrite lookup_insert_ne; [auto|].
    intros ->. apply Hin. left.
  - intros l Hl. left. rewrite <- HP. exact Hl.
Qed.


Lemma Step_alloc_vals m O l a m' :
  alloc_vals m l = (a, m') -> a = m_next m /\ Step m O m' (a :: O).
Proof.
  unfold alloc_vals. intros Heq. injection Heq as <- <-. split; [reflexivity|].
  apply Step_alloc; simpl; auto. intros l' Hl. rewrite lookup_insert_ne by congruence. auto.
Qed.

Lemma Step_alloc_chs m O l a m' :
  alloc_chs m l = (a, m') -> a = m_next m /\ Step m O m' (a :: O).
Proof.
  unfold alloc_chs. intros Heq. injection Heq as <- <-. split; [reflexivity|].
  apply Step_alloc; simpl; auto. intros l' Hl. rewrite lookup_insert_ne by congruence. auto.
Qed.

Lemma Step_write_vals m O a v : a ∈ O -> Step m O (set_vals m (<[a := v]> (m_vals m))) O.
Proof.
  intros Ha. apply (Step_local _ _ _ a Ha); simpl; auto.
  intros l Hl. rewrite lookup_insert_ne by congruence. auto.
Qed.

Lemma Step_write_chs m O a v : a ∈ O -> Step m O (set_chs m (<[a := v]> (m_chs m))) O.
Proof.
  intros Ha. apply (Step_local _ _ _ a Ha); simpl; auto.
  intros l Hl. rewrite lookup_insert_ne by congruence. auto.
Qed.

Lemma Step_write_bufs m O a v : a ∈ O -> Step m O (set_bufs m (<[a := v]> (m_bufs m))) O.
Proof.
  intros Ha. apply (Step_local _ _ _ a Ha); simpl; auto.
  intros l Hl. rewrite lookup_insert_ne by congruence. auto.
Qed.

Lemma Step_realloc m O a m' :
  Step m O m' (a :: O) -> Step m O m' [a].
Proof.
  intros S. eapply Step_trans; [exact S|]. apply Step_drop.
  apply submseteq_skip, submseteq_nil_l.
Qed.

Lemma grow_vals_Step m s xs s' m' :
  grow_vals m s xs = (s', m') -> Step m (opt_loc (sarr s)) m' (opt_loc (sarr s')).
Proof.
  unfold grow_vals. destruct (alloc_vals m _) as [a m1] eqn:E.
  intros Heq. injection Heq as <- <-. simpl.
  apply Step_realloc. exact (proj2 (Step_alloc_vals _ _ _ _ _ E)).
Qed.

Lemma grow_chs_Step m s xs s' m' :
  grow_chs m s xs = (s', m') -> Step m (opt_loc (sarr s)) m' (opt_loc (sarr s')).
Proof.
  unfold grow_chs. destruct (alloc_chs m _) as [a m1] eqn:E.
  intros Heq. injection Heq as <- <-. simpl.
  apply Step_realloc. exact (proj2 (Step_alloc_chs _ _ _ _ _ E)).
Qed.

Lemma append_vals_Step m s xs s' m' :
  append_vals m s xs = (s', m') -> Step m (opt_loc (sarr s)) m' (opt_loc (sarr s')).
Proof.
  unfold append_vals. destruct xs as [|x xs0].
  { intros Heq. injection Heq as <- <-. apply Step_refl. }
  destruct (sarr s) as [a|] eqn:Ea.
  - destruct (_ <=? _).
    + intros Heq. injection Heq as <- <-. simpl.
      apply Step_write_vals. by apply list_elem_of_singleton.
    + intros Heq. pose proof (grow_vals_Step _ _ _ _ _ Heq) as S. rewrite Ea in S. exact S.
  - intros Heq. pose proof (grow_vals_Step _ _ _ _ _ Heq) as S. rewrite Ea in S. exact S.
Qed.

Lemma append_chs_Step m s xs s' m' :
  append_chs m s xs = (s', m') -> Step m (opt_loc (sarr s)) m' (opt_loc (sarr s')).
Proof.
  unfold append_chs. destruct xs as [|x xs0].
  { intros Heq. injection Heq as <- <-. apply Step_refl. }
  destruct (sarr s) as [a|] eqn:Ea.
  - destruct (_ <=? _).
    + intros Heq. injection Heq as <- <-. simpl.
      apply Step_write_chs. by apply list_elem_of_singleton.
    + intros Heq. pose proof (grow_chs_Step _ _ _ _ _ Heq) as S. rewrite Ea in S. exact S.
  - intros Heq. pose proof (grow_chs_Step _ _ _ _ _ Heq) as S. rewrite Ea in S. exact S.
Qed.

Lemma h_insertAt_Step m s src i s' m' :
  h_insertAt m s src i = (s', m') -> Step m (opt_loc (sarr s)) m' (opt_loc (sarr s')).
Proof.
  unfold h_insertAt. destruct src as [|x src0].
  { intros Heq. injection Heq as <- <-. apply Step_refl. }
  destruct (if scap s <? slen s + length (x :: src0) then _ else _) as [d1 m1] eqn:E1.
  assert (S1 : Step m (opt_loc (sarr s)) m1 (opt_loc (sarr d1))).
  { destruct (scap s <? _); [|injection E1 as <- <-; apply Step_refl].
    destruct (alloc_vals m _) as [a ma] eqn:Ea. injection E1 as <- <-. simpl.
    apply Step_realloc. exact (proj2 (Step_alloc_vals _ _ _ _ _ Ea)). }
  destruct (append_vals m1 d1 (x :: src0)) as [d2 m2] eqn:E2.
  pose proof (append_vals_Step _ _ _ _ _ E2) as S2.
  destruct (i <? slen s).
  - destruct (sarr d2) as [a|] eqn:Ea2; intros Heq; injection Heq as <- <-;
      (eapply Step_trans; [exact S1|]); (eapply Step_trans; [exact S2|]); rewrite Ea2.
    + apply Step_write_vals. by apply list_elem_of_singleton.
    + apply Step_refl.
  - intros Heq. injection Heq as <- <-. eapply Step_trans; [exact S1|exact S2].
Qed.

Lemma store_chs_Step m s cs :
  Step m (opt_loc (sarr s)) (store_chs m s cs) (opt_loc (sarr s)).
Proof.
  unfold store_chs. destruct (sarr s) as [a|].
  - apply Step_write_chs. by apply list_elem_of_singleton.
  - apply Step_refl.
Qed.

Lemma buf_set_Step m b s : Step m (opt_loc b) (buf_set m b s) (opt_loc b).
Proof.
  unfold buf_set. destruct b as [l|].
  - apply Step_write_bufs. by apply list_elem_of_singleton.
  - apply Step_refl.
Qed.

Lemma buf_append_Step m b s : Step m (opt_loc b) (buf_append m b s) (opt_loc b).
Proof.
  unfold buf_append. destruct b as [l|].
  - apply Step_write_bufs. by apply list_elem_of_singleton.
  - apply Step_refl.
Qed.


(** Use an ownership step on a part [X] of the owned addresses, the rest
    [R] being carried along, up to the order of the addresses. *)
Ltac step_frame S R :=
  refine (Step_perm _ _ _ _ _ _ _ _ (Step_frame _ _ _ _ R S)); solve_Permutation.

Lemma h_Invalidate_Step m h h' m' :
  h_Invalidate m h = (h', m') -> Step m (hfp h) m' (hfp h').
Proof.
  unfold h_Invalidate. destruct (h_sql h) as [b|] eqn:Eb; intros Heq; injection Heq as <- <-;
    [|apply Step_refl].
  unfold hfp. simpl. rewrite Eb. simpl.
  step_frame (Step_putBuffer m [] b)
    (opt_loc (sarr (h_chunks h)) ++ opt_loc (h_buf h) ++ opt_loc (sarr (h_args h))
     ++ opt_loc (sarr (h_dest h))).
Qed.

Lemma h_To_Step m h d h' m' : h_To m h d = (h', m') -> Step m (hfp h) m' (hfp h').
Proof.
  unfold h_To. destruct d as [|v d0].
  { intros Heq. injection Heq as <- <-. apply Step_refl. }
  destruct (h_insertAt m (h_dest h) (v :: d0) (slen (h_dest h))) as [ds m1] eqn:E.
  intros Heq. injection Heq as <- <-. unfold hfp. simpl.
  step_frame (h_insertAt_Step _ _ _ _ _ _ E)
    (opt_loc (sarr (h_chunks h)) ++ opt_loc (h_buf h) ++ opt_loc (h_sql h)
     ++ opt_loc (sarr (h_args h))).
Qed.

Lemma h_String_Step m h s h' m' : h_String m h = (s, h', m') -> Step m (hfp h) m' (hfp h').
Proof.
  unfold h_String. destruct (h_sql h) as [b|] eqn:Eb.
  { intros Heq. injection Heq as <- <- <-. apply Step_refl. }
  destruct (getBuffer m) as [b m1] eqn:E. intros Heq. injection Heq as <- <- <-.
  eapply Step_trans; [exact (Step_getBuffer _ (hfp h) _ _ E)|].
  unfold hfp. rewrite Eb. simpl.
  step_frame (buf_append_Step m1 (Some b) (build (view m h)))
    (opt_loc (sarr (h_chunks h)) ++ opt_loc (h_buf h) ++ opt_loc (sarr (h_args h))
     ++ opt_loc (sarr (h_dest h))).
Qed.

Lemma h_addChunk_Step m h p clause expr a sep h' m' :
  h_addChunk m h p clause expr a sep = (h', m') -> Step m (hfp h) m' (hfp h').
Proof.
  unfold h_addChunk.
  destruct (addChunk (view m h) p clause expr a sep) as [q' index] eqn:Eadd.
  remember (match scan p (chunks (view m h)) (length (chunks (view m h))) 0 with
            | SFoundEq _ _ t => (is_nil expr, t)
            | SFoundLt _ t | SNone t => (false, t)
            end) as et eqn:Esc.
  destruct et as [early argTail].
  destruct early.
  { intros Heq. injection Heq as <- <-. apply Step_refl. }
  set (m1 := buf_set m (h_buf h) (buf q')).
  assert (S0 : Step m (hfp h) m1 (hfp h)).
  { unfold hfp. step_frame (buf_set_Step m (h_buf h) (buf q'))
      (opt_loc (sarr (h_chunks h)) ++ opt_loc (h_sql h) ++ opt_loc (sarr (h_args h))
       ++ opt_loc (sarr (h_dest h))). }
  destruct (if length (chunks q') =? length (chunks (view m h)) then _ else _)
    as [cs m3] eqn:Ec.
  assert (S1 : Step m1 (opt_loc (sarr (h_chunks h))) m3 (opt_loc (sarr cs))).
  { destruct (length (chunks q') =? _).
    - injection Ec as <- <-. apply store_chs_Step.
    - destruct (if scap (h_chunks h) =? slen (h_chunks h) then _ else _) as [s1 m2] eqn:E1.
      destruct (append_chs m2 s1 _) as [s2 m2'] eqn:E2.
      injection Ec as <- <-.
      eapply Step_trans; [|eapply Step_trans;
                           [exact (append_chs_Step _ _ _ _ _ E2)|apply store_chs_Step]].
      destruct (scap (h_chunks h) =? slen (h_chunks h)).
      + destruct (alloc_chs m1 _) as [c mc] eqn:Ea. injection E1 as <- <-. simpl.
        apply Step_realloc. exact (proj2 (Step_alloc_chs _ _ _ _ _ Ea)).
      + injection E1 as <- <-. apply Step_refl. }
  destruct (if 0 <? length a then _ else _) as [as_ m4] eqn:Ea.
  assert (S2 : Step m3 (opt_loc (sarr (h_args h))) m4 (opt_loc (sarr as_))).
  { destruct (0 <? length a).
    - exact (h_insertAt_Step _ _ _ _ _ _ Ea).
    - injection Ea as <- <-. apply Step_refl. }
  intros Heq. eapply Step_trans; [exact S0|].
  eapply Step_trans; [|eapply Step_trans; [|exact (h_Invalidate_Step _ _ _ _ Heq)]].
  - exact (Step_frame _ _ _ _ (opt_loc (h_buf h) ++ opt_loc (h_sql h)
             ++ opt_loc (sarr (h_args h)) ++ opt_loc (sarr (h_dest h))) S1).
  - unfold hfp. simpl.
    step_frame S2 (opt_loc (sarr cs) ++ opt_loc (h_buf h) ++ opt_loc (h_sql h)
                   ++ opt_loc (sarr (h_dest h))).
Qed.

Lemma h_step_Step m h o h' m' : h_step m h o = (h', m') -> Step m (hfp h) m' (hfp h').
Proof.
  destruct o; simpl.
  - apply h_addChunk_Step.
  - apply h_To_Step.
  - destruct (h_String m h) as [[s h1] m1] eqn:E. intros Heq. injection Heq as <- <-.
    exact (h_String_Step _ _ _ _ _ E).
  - apply h_Invalidate_Step.
Qed.

Lemma h_run_Step m h os h' m' : h_run m h os = (h', m') -> Step m (hfp h) m' (hfp h').
Proof.
  revert m h. induction os as [|o os IH]; simpl; intros m h.
  - intros Heq. injection Heq as <- <-. apply Step_refl.
  - destruct (h_step m h o) as [h1 m1] eqn:E. intros Heq.
    eapply Step_trans; [exact (h_step_Step _ _ _ _ _ E)|exact (IH _ _ Heq)].
Qed.


Lemma all_fp_perm m l1 l2 : l1 ≡ₚ l2 -> all_fp m l1 ≡ₚ all_fp m l2.
Proof. intros HP. unfold all_fp. rewrite HP. reflexivity. Qed.

Lemma Sep_perm m l1 l2 : l1 ≡ₚ l2 -> Sep m l1 -> Sep m l2.
Proof.
  intros HP (Hn & Hb & Hp & Hq). unfold Sep.
  rewrite <- (all_fp_perm m _ _ HP). auto.
Qed.

Lemma view_agree m m' h : agree m m' (hfp h) -> view m' h = view m h.
Proof.
  unfold agree, hfp. rewrite !Forall_app.
  intros (Hc & Hb & Hs & Ha & Hd). unfold view, arr_chs, arr_vals, buf_of, vals_at, chs_at, buf_at.
  destruct (sarr (h_chunks h)) as [c|]; destruct (h_buf h) as [b|];
    destruct (h_sql h) as [s|]; destruct (sarr (h_args h)) as [x|];
    destruct (sarr (h_dest h)) as [y|]; simpl in *;
    repeat match goal with
           | H : Forall _ [_] |- _ => apply Forall_singleton in H as (? & ? & ?)
           end;
    repeat match goal with H : _ !! _ = _ !! _ |- _ => rewrite H; clear H end;
    reflexivity.
Qed.

Lemma Sep_split m h others :
  Sep m (h :: others) ->
  owned_ok m (hfp h)
  /\ NoDup (concat (map hfp (others ++ m_stmtPool m)))
  /\ Forall (fun l => l ∉ hfp h ++ m_bufPool m) (concat (map hfp (others ++ m_stmtPool m)))
  /\ below m (concat (map hfp (others ++ m_stmtPool m))).
Proof.
  intros (Hn & Hb & Hp & Hq). unfold all_fp in Hn, Hb. simpl in Hn, Hb.
  set (R := concat (map hfp (others ++ m_stmtPool m))) in *.
  assert (HP : hfp h ++ R ++ m_bufPool m ≡ₚ (hfp h ++ m_bufPool m) ++ R) by solve_Permutation.
  rewrite <- app_assoc in Hn, Hb. rewrite HP in Hn, Hb.
  apply NoDup_app in Hn as (Hn1 & Hd & Hn2). unfold below.
  rewrite Forall_app in Hb. destruct Hb as (Hb1 & Hb2).
  split; [split; [exact Hn1|split; [exact Hb1|exact Hq]]|].
  split; [exact Hn2|]. split; [|exact Hb2].
  apply Forall_forall. intros l Hl Hin. exact (Hd l Hin Hl).
Qed.

Lemma Sep_step m h others m' h' :
  Sep m (h :: others) -> Step m (hfp h) m' (hfp h') ->
  Sep m' (h' :: others) /\ agree m m' (concat (map hfp (others ++ m_stmtPool m))).
Proof.
  intros HS S. pose proof HS as (_ & _ & Hpool & _).
  destruct (Sep_split _ _ _ HS) as (Hok & HnR & HdR & HbR).
  destruct (S Hok) as ((Hn' & Hb' & Hq') & Hsp & Hnx & Ha & Hm).
  set (R := concat (map hfp (others ++ m_stmtPool m))) in *.
  split; [|apply Ha; assumption].
  unfold Sep, all_fp. simpl. rewrite Hsp. fold R.
  assert (HP : hfp h' ++ R ++ m_bufPool m' ≡ₚ (hfp h' ++ m_bufPool m') ++ R) by solve_Permutation.
  rewrite <- app_assoc, HP. split; [|split; [|split; [exact Hpool|exact Hq']]].
  - apply NoDup_app. split; [exact Hn'|]. split; [|exact HnR].
    intros x Hx HxR. unfold below in HbR. rewrite Forall_forall in HdR, HbR.
    destruct (Hm x Hx) as [H|H]; [exact (HdR x HxR H)|].
    specialize (HbR x HxR). simpl in HbR. lia.
  - unfold below in *. rewrite Forall_app. split; [exact Hb'|].
    eapply Forall_impl; [exact HbR|]. simpl. lia.
Qed.

Lemma agree_views m m' others pool :
  agree m m' (concat (map hfp (others ++ pool))) ->
  Forall (fun o => view m' o = view m o) others.
Proof.
  intros Ha. apply Forall_forall. intros o Ho. apply view_agree.
  eapply agree_sub; [exact Ha|]. intros l Hl. apply list_elem_of_In, in_concat.
  exists (hfp o). split; [|apply list_elem_of_In; exact Hl].
  apply in_map, in_or_app. left. apply list_elem_of_In. exact Ho.
Qed.

(** Frame rule for sequences of mutations of one statement. *)
Lemma h_run_frame m h others os h' m' :
  Sep m (h :: others) -> h_run m h os = (h', m') ->
  Sep m' (h' :: others) /\ Forall (fun o => view m' o = view m o) others.
Proof.
  intros HS Hrun.
  destruct (Sep_step _ _ _ _ _ HS (h_run_Step _ _ _ _ _ Hrun)) as (HS' & Ha).
  split; [exact HS'|]. eapply agree_views. exact Ha.
Qed.


Lemma Step_part m X Y m' X' :
  owned_ok m (X ++ Y) -> Step m X m' X' -> owned_ok m' (X' ++ Y) /\ agree m m' Y.
Proof.
  intros Hok S. split; [exact (proj1 (Step_frame _ _ _ _ Y S Hok))|].
  destruct Hok as (Hn & Hb & Hp).
  assert (HP : (X ++ Y) ++ m_bufPool m ≡ₚ (X ++ m_bufPool m) ++ Y) by solve_Permutation.
  rewrite HP in Hn. unfold below in Hb. rewrite HP in Hb.
  apply NoDup_app in Hn as (Hn1 & Hd & _). apply Forall_app in Hb as (Hb1 & Hb2).
  destruct (S (conj Hn1 (conj Hb1 Hp))) as (_ & _ & _ & Ha & _).
  apply Ha; [|exact Hb2]. apply Forall_forall. intros l Hl Hin. exact (Hd l Hin Hl).
Qed.

(** A mutation of the part [X] of a statement's addresses, the rest [Y]
    untouched: separation is kept and [Y] and all other statements keep
    their contents. *)
Lemma Sep_part m h others m' h' X Y X' :
  Sep m (h :: others) -> hfp h ≡ₚ X ++ Y -> hfp h' ≡ₚ X' ++ Y -> Step m X m' X' ->
  Sep m' (h' :: others) /\ agree m m' Y
  /\ agree m m' (concat (map hfp (others ++ m_stmtPool m))).
Proof.
  intros HS HP HP' S.
  destruct (Sep_split _ _ _ HS) as (Hok & _).
  assert (Hok' : owned_ok m (X ++ Y)) by (eapply owned_ok_perm; [exact HP|exact Hok]).
  destruct (Step_part _ _ _ _ _ Hok' S) as (_ & HaY).
  assert (S' : Step m (hfp h) m' (hfp h')).
  { eapply Step_perm; [symmetry; exact HP|symmetry; exact HP'|]. apply Step_frame. exact S. }
  destruct (Sep_step _ _ _ _ _ HS S') as (HS' & HaR). auto.
Qed.

Lemma getBuffer_empty m b m' :
  getBuffer m = (b, m') -> Forall (fun b => m_bufs m !! b = Some []) (m_bufPool m) ->
  m_bufs m' !! b = Some [].
Proof.
  unfold getBuffer. destruct (m_bufPool m) as [|b0 rest].
  - unfold alloc_buf. intros Heq _. injection Heq as <- <-. simpl. apply lookup_insert_eq.
  - intros Heq Hp. injection Heq as <- <-. simpl. apply Forall_cons in Hp. tauto.
Qed.

Lemma arr_vals_agree m m' s : agree m m' (opt_loc (sarr s)) -> arr_vals m' s = arr_vals m s.
Proof.
  unfold agree, arr_vals, vals_at. destruct (sarr s) as [a|]; [|reflexivity].
  intros H. apply Forall_singleton in H as (-> & _ & _). reflexivity.
Qed.

Lemma arr_chs_agree m m' s : agree m m' (opt_loc (sarr s)) -> arr_chs m' s = arr_chs m s.
Proof.
  unfold agree, arr_chs, chs_at. destruct (sarr s) as [a|]; [|reflexivity].
  intros H. apply Forall_singleton in H as (_ & -> & _). reflexivity.
Qed.

Lemma buf_of_agree m m' b : agree m m' (opt_loc b) -> buf_of m' b = buf_of m b.
Proof.
  unfold agree, buf_of, buf_at. destruct b as [l|]; [|reflexivity].
  intros H. apply Forall_singleton in H as (_ & _ & ->). reflexivity.
Qed.

Lemma grow_vals_len0 m s xs s' m' :
  slen s = 0 -> grow_vals m s xs = (s', m') -> arr_vals m' s' = xs.
Proof.
  intros H0. unfold grow_vals, alloc_vals. intros Heq. injection Heq as <- <-.
  unfold arr_vals, vals_at. simpl. rewrite lookup_insert_eq. simpl.
  rewrite H0. replace (match sarr s with Some a => take 0 _ | None => [] end) with (@nil value)
    by (destruct (sarr s); reflexivity).
  simpl. apply take_app_length.
Qed.

Lemma append_vals_len0 m s xs s' m' :
  slen s = 0 -> append_vals m s xs = (s', m') -> arr_vals m' s' = xs.
Proof.
  intros H0. unfold append_vals. destruct xs as [|x xs0].
  { intros Heq. injection Heq as <- <-. unfold arr_vals. rewrite H0. destruct (sarr s); reflexivity. }
  destruct (sarr s) as [a|] eqn:Ea; [destruct (_ <=? _)|].
  - intros Heq. injection Heq as <- <-. unfold arr_vals, vals_at. simpl.
    rewrite lookup_insert_eq, H0. simpl. f_equal. apply take_app_length.
  - apply grow_vals_len0. exact H0.
  - apply grow_vals_len0. exact H0.
Qed.

Lemma grow_chs_len0 m s xs s' m' :
  slen s = 0 -> grow_chs m s xs = (s', m') -> arr_chs m' s' = xs.
Proof.
  intros H0. unfold grow_chs, alloc_chs. intros Heq. injection Heq as <- <-.
  unfold arr_chs, chs_at. simpl. rewrite lookup_insert_eq. simpl.
  rewrite H0. replace (match sarr s with Some a => take 0 _ | None => [] end) with (@nil stmtChunk)
    by (destruct (sarr s); reflexivity).
  simpl. apply take_app_length.
Qed.

Lemma append_chs_len0 m s xs s' m' :
  slen s = 0 -> append_chs m s xs = (s', m') -> arr_chs m' s' = xs.
Proof.
  intros H0. unfold append_chs. destruct xs as [|x xs0].
  { intros Heq. injection Heq as <- <-. unfold arr_chs. rewrite H0. destruct (sarr s); reflexivity. }
  destruct (sarr s) as [a|] eqn:Ea; [destruct (_ <=? _)|].
  - intros Heq. injection Heq as <- <-. unfold arr_chs, chs_at. simpl.
    rewrite lookup_insert_eq, H0. simpl. f_equal. apply take_app_length.
  - apply grow_chs_len0. exact H0.
  - apply grow_chs_len0. exact H0.
Qed.

(** [insertAt(stmt.args, q.args, 0)] into an empty slice copies [q.args]. *)
Lemma h_insertAt_len0 m s src s' m' :
  slen s = 0 -> h_insertAt m s src 0 = (s', m') -> arr_vals m' s' = src.
Proof.
  intros H0. unfold h_insertAt. destruct src as [|x src0].
  { intros Heq. injection Heq as <- <-. unfold arr_vals. rewrite H0. destruct (sarr s); reflexivity. }
  destruct (if scap s <? slen s + length (x :: src0) then _ else _) as [d1 m1] eqn:E1.
  assert (Hd1 : slen d1 = 0).
  { destruct (scap s <? _); [|injection E1 as <- <-; exact H0].
    destruct (alloc_vals m _) as [a ma]. injection E1 as <- <-. simpl. exact H0. }
  destruct (append_vals m1 d1 (x :: src0)) as [d2 m2] eqn:E2.
  rewrite H0. simpl. intros Heq. injection Heq as <- <-.
  exact (append_vals_len0 _ _ _ _ _ Hd1 E2).
Qed.


Lemma popStmt_spec m others st m1 :
  Sep m others -> popStmt m = (st, m1) ->
  Sep m1 (st :: others) /\ agree m m1 (concat (map hfp others)) /\ pooled_ok st
  /\ m_bufPool m1 = m_bufPool m.
Proof.
  intros HS. unfold popStmt. destruct (m_stmtPool m) as [|st0 rest] eqn:Ep.
  - unfold newStmt. destruct (alloc_chs m _) as [a ma] eqn:Ea.
    intros Heq. injection Heq as <- <-.
    assert (HSe : Sep m (empty_hstmt :: others)) by exact HS.
    assert (S : Step m (hfp empty_hstmt) ma (hfp (mkH NoDialect 0 (mkSlice (Some a) 0 8) None None
                                                   nil_slice nil_slice)))
      by exact (proj2 (Step_alloc_chs _ [] _ _ _ Ea)).
    destruct (Sep_step _ _ _ _ _ HSe S) as (HS' & Ha).
    split; [exact HS'|]. split.
    + eapply agree_sub; [exact Ha|]. intros l Hl. rewrite map_app, concat_app.
      apply elem_of_app. left. exact Hl.
    + split; [unfold pooled_ok; simpl; auto|].
      unfold alloc_chs in Ea. injection Ea as _ <-. reflexivity.
  - intros Heq. injection Heq as <- <-. destruct HS as (Hn & Hb & Hp & Hq).
    unfold all_fp in Hn, Hb. rewrite Ep in Hn, Hb, Hp.
    assert (HP : concat (map hfp (others ++ st0 :: rest)) ++ m_bufPool m
                 ≡ₚ concat (map hfp ((st0 :: others) ++ rest)) ++ m_bufPool m).
    { rewrite !map_app, !concat_app. simpl. solve_Permutation. }
    split; [|split; [apply Forall_forall; intros; simpl; auto|split; [apply Forall_cons in Hp; tauto|reflexivity]]].
    unfold Sep, all_fp. simpl m_stmtPool. simpl m_bufPool. simpl m_next. simpl m_bufs.
    rewrite <- HP. split; [exact Hn|]. split; [exact Hb|].
    split; [apply Forall_cons in Hp; tauto|exact Hq].
Qed.

Lemma h_getStmt_spec m d others st m1 :
  Sep m others -> h_getStmt m d = (st, m1) ->
  Sep m1 (st :: others) /\ agree m m1 (concat (map hfp others))
  /\ h_dialect st = d /\ slen (h_chunks st) = 0 /\ slen (h_args st) = 0
  /\ slen (h_dest st) = 0 /\ h_sql st = None
  /\ exists b, h_buf st = Some b /\ m_bufs m1 !! b = Some [].
Proof.
  intros HS. unfold h_getStmt.
  destruct (popStmt m) as [st0 mA] eqn:E0.
  destruct (popStmt_spec _ _ _ _ HS E0) as (HSA & HaA & (Hc & Ha & Hd & Hbuf & Hsql) & _).
  destruct (getBuffer mA) as [b m2] eqn:Eb. intros Heq. injection Heq as <- <-.
  assert (S : Step mA (hfp st0) m2
                (hfp (mkH d (h_pos st0) (h_chunks st0) (Some b) (h_sql st0) (h_args st0) (h_dest st0)))).
  { eapply Step_perm; [reflexivity| |exact (Step_getBuffer _ _ _ _ Eb)].
    unfold hfp. simpl. rewrite Hbuf, Hsql. simpl. solve_Permutation. }
  destruct (Sep_step _ _ _ _ _ HSA S) as (HS2 & Ha2).
  split; [exact HS2|]. split.
  - eapply agree_trans; [exact HaA|]. eapply agree_sub; [exact Ha2|].
    intros l Hl. rewrite map_app, concat_app. apply elem_of_app. left. exact Hl.
  - simpl. split; [reflexivity|]. split; [exact Hc|]. split; [exact Ha|]. split; [exact Hd|].
    split; [exact Hsql|]. exists b. split; [reflexivity|].
    apply (getBuffer_empty _ _ _ Eb). destruct HSA as (_ & _ & _ & Hq). exact Hq.
Qed.


Ltac in_app := intros ? ?; repeat (rewrite elem_of_app in * ); tauto.

Lemma agree_others m1 m2 q others P :
  agree m1 m2 (concat (map hfp ((q :: others) ++ P))) ->
  agree m1 m2 (hfp q ++ concat (map hfp others)).
Proof.
  intros H. eapply agree_sub; [exact H|]. intros l Hl. simpl.
  rewrite map_app, concat_app. revert l Hl. in_app.
Qed.

Lemma agree_hfp_part m m' q others L :
  agree m m' (hfp q ++ concat (map hfp others)) ->
  (forall l, l ∈ L -> l ∈ hfp q) -> agree m m' L.
Proof.
  intros H HL. eapply agree_sub; [exact H|]. intros l Hl.
  apply elem_of_app. left. exact (HL l Hl).
Qed.

Lemma buf_append_at m l s : buf_at (buf_append m (Some l) s) l = buf_at m l ++ s.
Proof. unfold buf_append, buf_at. simpl. rewrite lookup_insert_eq. reflexivity. Qed.

Lemma h_Clone_spec m q others c m' :
  Sep m (q :: others) -> h_Clone m q = (c, m') ->
  Sep m' (c :: q :: others) /\ agree m m' (hfp q ++ concat (map hfp others))
  /\ view m' c = set_qpos (view m q) (h_pos c).
Proof.
  intros HS. unfold h_Clone.
  destruct (h_getStmt m (h_dialect q)) as [st m1] eqn:E1.
  destruct (h_getStmt_spec _ _ _ _ _ HS E1)
    as (HS1 & Ag1 & Hd & Hc0 & Ha0 & Hd0 & Hs0 & (bst & Hbst & Hbe)).
  assert (Q1 : agree m m1 (hfp q ++ concat (map hfp others))) by exact Ag1.
  (* the chunks *)
  destruct (if scap (h_chunks st) <? length (arr_chs m1 (h_chunks q)) then _ else _)
    as [cs m2] eqn:E2.
  assert (S2 : Step m1 (opt_loc (sarr (h_chunks st))) m2 (opt_loc (sarr cs))
               /\ arr_chs m2 cs = arr_chs m1 (h_chunks q)).
  { destruct (scap (h_chunks st) <? _).
    - destruct (alloc_chs m1 _) as [a ma] eqn:Ea. injection E2 as <- <-. split.
      + simpl. apply Step_realloc. exact (proj2 (Step_alloc_chs _ _ _ _ _ Ea)).
      + unfold alloc_chs in Ea. injection Ea as <- <-. unfold arr_chs, chs_at. simpl.
        rewrite lookup_insert_eq. simpl. apply take_app_length.
    - split; [exact (append_chs_Step _ _ _ _ _ E2)|exact (append_chs_len0 _ _ _ _ _ Hc0 E2)]. }
  destruct S2 as (S2 & C2).
  destruct (Sep_part m1 st (q :: others) m2
              (mkH (h_dialect st) (h_pos st) cs (h_buf st) (h_sql st) (h_args st) (h_dest st))
              (opt_loc (sarr (h_chunks st)))
              (opt_loc (h_buf st) ++ opt_loc (h_sql st) ++ opt_loc (sarr (h_args st))
               ++ opt_loc (sarr (h_dest st))) (opt_loc (sarr cs))
              HS1 ltac:(reflexivity) ltac:(reflexivity) S2)
    as (HS2 & Y2 & R2).
  assert (Q2 : agree m m2 (hfp q ++ concat (map hfp others)))
    by (eapply agree_trans; [exact Q1|eapply agree_others; exact R2]).
  (* the arguments *)
  destruct (h_insertAt m2 (h_args st) (arr_vals m2 (h_args q)) 0) as [as_ m3] eqn:E3.
  pose proof (h_insertAt_len0 _ _ _ _ _ Ha0 E3) as C3.
  destruct (Sep_part m2 _ (q :: others) m3
              (mkH (h_dialect st) (h_pos st) cs (h_buf st) (h_sql st) as_ (h_dest st))
              (opt_loc (sarr (h_args st)))
              (opt_loc (sarr cs) ++ opt_loc (h_buf st) ++ opt_loc (h_sql st)
               ++ opt_loc (sarr (h_dest st))) (opt_loc (sarr as_))
              HS2 ltac:(unfold hfp; simpl; solve_Permutation)
              ltac:(unfold hfp; simpl; solve_Permutation) (h_insertAt_Step _ _ _ _ _ _ E3))
    as (HS3 & Y3 & R3).
  assert (Q3 : agree m m3 (hfp q ++ concat (map hfp others)))
    by (eapply agree_trans; [exact Q2|eapply agree_others; exact R3]).
  (* the scan targets *)
  destruct (h_insertAt m3 (h_dest st) (arr_vals m3 (h_dest q)) 0) as [ds m4] eqn:E4.
  pose proof (h_insertAt_len0 _ _ _ _ _ Hd0 E4) as C4.
  destruct (Sep_part m3 _ (q :: others) m4
              (mkH (h_dialect st) (h_pos st) cs (h_buf st) (h_sql st) as_ ds)
              (opt_loc (sarr (h_dest st)))
              (opt_loc (sarr cs) ++ opt_loc (h_buf st) ++ opt_loc (h_sql st)
               ++ opt_loc (sarr as_)) (opt_loc (sarr ds))
              HS3 ltac:(unfold hfp; simpl; solve_Permutation)
              ltac:(unfold hfp; simpl; solve_Permutation) (h_insertAt_Step _ _ _ _ _ _ E4))
    as (HS4 & Y4 & R4).
  assert (Q4 : agree m m4 (hfp q ++ concat (map hfp others)))
    by (eapply agree_trans; [exact Q3|eapply agree_others; exact R4]).
  (* the buffer *)
  set (m5 := buf_append m4 (h_buf st) (buf_of m4 (h_buf q))).
  destruct (Sep_part m4 _ (q :: others) m5
              (mkH (h_dialect st) (h_pos st) cs (h_buf st) (h_sql st) as_ ds)
              (opt_loc (h_buf st))
              (opt_loc (sarr cs) ++ opt_loc (h_sql st) ++ opt_loc (sarr as_)
               ++ opt_loc (sarr ds)) (opt_loc (h_buf st))
              HS4 ltac:(unfold hfp; simpl; solve_Permutation)
              ltac:(unfold hfp; simpl; solve_Permutation) (buf_append_Step _ _ _))
    as (HS5 & Y5 & R5).
  assert (Q5 : agree m m5 (hfp q ++ concat (map hfp others)))
    by (eapply agree_trans; [exact Q4|eapply agree_others; exact R5]).
  (* the contents at [m5] *)
  assert (Hchs : arr_chs m5 cs = arr_chs m (h_chunks q)).
  { rewrite (arr_chs_agree m4 m5) by (eapply agree_sub; [exact Y5|in_app]).
    rewrite (arr_chs_agree m3 m4) by (eapply agree_sub; [exact Y4|in_app]).
    rewrite (arr_chs_agree m2 m3) by (eapply agree_sub; [exact Y3|in_app]).
    rewrite C2. apply arr_chs_agree. eapply agree_hfp_part; [exact Q1|]. unfold hfp. in_app. }
  assert (Hargs : arr_vals m5 as_ = arr_vals m (h_args q)).
  { rewrite (arr_vals_agree m4 m5) by (eapply agree_sub; [exact Y5|in_app]).
    rewrite (arr_vals_agree m3 m4) by (eapply agree_sub; [exact Y4|in_app]).
    rewrite C3. apply arr_vals_agree. eapply agree_hfp_part; [exact Q2|]. unfold hfp. in_app. }
  assert (Hdest : arr_vals m5 ds = arr_vals m (h_dest q)).
  { rewrite (arr_vals_agree m4 m5) by (eapply agree_sub; [exact Y5|in_app]).
    rewrite C4. apply arr_vals_agree. eapply agree_hfp_part; [exact Q3|]. unfold hfp. in_app. }
  assert (Hbuf : buf_of m5 (h_buf st) = buf_of m (h_buf q)).
  { unfold m5. rewrite Hbst. change (buf_of ?x (Some bst)) with (buf_at x bst).
    rewrite buf_append_at.
    assert (Hb4 : buf_at m4 bst = []).
    { change (buf_at m4 bst) with (buf_of m4 (Some bst)).
      rewrite (buf_of_agree m3 m4) by (eapply agree_sub; [exact Y4|rewrite Hbst; in_app]).
      rewrite (buf_of_agree m2 m3) by (eapply agree_sub; [exact Y3|rewrite Hbst; in_app]).
      rewrite (buf_of_agree m1 m2) by (eapply agree_sub; [exact Y2|rewrite Hbst; in_app]).
      simpl. unfold buf_at. rewrite Hbe. reflexivity. }
    rewrite Hb4. simpl. apply buf_of_agree.
    eapply agree_hfp_part; [exact Q4|]. unfold hfp. in_app. }
  destruct (h_sql q) as [b|] eqn:Eq.
  - (* the cached text is copied into a buffer of the clone's own *)
    destruct (getBuffer m5) as [b' m6] eqn:E6. intros Heq. injection Heq as <- <-.
    assert (Hb'e : m_bufs m6 !! b' = Some []).
    { apply (getBuffer_empty _ _ _ E6). destruct HS5 as (_ & _ & _ & Hq). exact Hq. }
    destruct (Sep_part m5 _ (q :: others) m6
                (mkH (h_dialect st) (h_pos st) cs (h_buf st) (Some b') as_ ds)
                [] (opt_loc (sarr cs) ++ opt_loc (h_buf st) ++ opt_loc (sarr as_)
                    ++ opt_loc (sarr ds)) [b']
                HS5 ltac:(unfold hfp; simpl; rewrite Hs0; simpl; solve_Permutation)
                ltac:(unfold hfp; simpl; solve_Permutation) (Step_getBuffer _ _ _ _ E6))
      as (HS6 & Y6 & R6).
    assert (Q6 : agree m m6 (hfp q ++ concat (map hfp others)))
      by (eapply agree_trans; [exact Q5|eapply agree_others; exact R6]).
    set (m7 := buf_append m6 (Some b') (buf_at m6 b)).
    destruct (Sep_part m6 _ (q :: others) m7
                (mkH (h_dialect st) (h_pos st) cs (h_buf st) (Some b') as_ ds)
                [b'] (opt_loc (sarr cs) ++ opt_loc (h_buf st) ++ opt_loc (sarr as_)
                      ++ opt_loc (sarr ds)) [b']
                HS6 ltac:(unfold hfp; simpl; solve_Permutation)
                ltac:(unfold hfp; simpl; solve_Permutation)
                (buf_append_Step m6 (Some b') (buf_at m6 b)))
      as (HS7 & Y7 & R7).
    assert (Q7 : agree m m7 (hfp q ++ concat (map hfp others)))
      by (eapply agree_trans; [exact Q6|eapply agree_others; exact R7]).
    split; [exact HS7|]. split; [exact Q7|].
    assert (Y67 : agree m5 m7 (opt_loc (sarr cs) ++ opt_loc (h_buf st) ++ opt_loc (sarr as_)
                                ++ opt_loc (sarr ds)))
      by (eapply agree_trans; [exact Y6|exact Y7]).
    unfold view, set_qpos. simpl. rewrite Eq. simpl. f_equal.
    + exact Hd.
    + rewrite <- Hchs. apply arr_chs_agree. eapply agree_sub; [exact Y67|in_app].
    + rewrite <- Hbuf. apply buf_of_agree. eapply agree_sub; [exact Y67|in_app].
    + f_equal. unfold m7.
      change (buf_at (set_bufs m6 _) b') with (buf_at (buf_append m6 (Some b') (buf_at m6 b)) b').
      rewrite buf_append_at. unfold buf_at at 1. rewrite Hb'e. simpl.
      change (buf_at m6 b = buf_of m (Some b)).
      change (buf_at m6 b) with (buf_of m6 (Some b)). apply buf_of_agree.
      eapply agree_hfp_part; [exact Q6|]. unfold hfp. rewrite Eq. in_app.
    + rewrite <- Hargs. apply arr_vals_agree. eapply agree_sub; [exact Y67|in_app].
    + rewrite <- Hdest. apply arr_vals_agree. eapply agree_sub; [exact Y67|in_app].
  - intros Heq. injection Heq as <- <-.
    split; [exact HS5|]. split; [exact Q5|].
    unfold view, set_qpos. simpl. rewrite Eq, Hs0. simpl. f_equal.
    + exact Hd.
    + exact Hchs.
    + exact Hbuf.
    + exact Hargs.
    + exact Hdest.
Qed.

(** * Claims *)

(** ** C1: the clause order of the rendered text does not depend on the
    order of the calls.

    C1: when two call sequences make the same calls clause by clause, in
    the same order within each clause (the calls of different clauses may
    be interleaved in any way), the statements they build render the same
    text, and the chunks of the statement are sorted by clause position,
    so the clauses appear in the fixed order of the position constants. *)
Theorem Stmt_clause_order_independent (cs1 cs2 : list call) :
  clauses_agree cs1 cs2 = true ->
  render (run (getStmt NoDialect) cs1) = render (run (getStmt NoDialect) cs2) /\
  chunks_sorted (chunks (run (getStmt NoDialect) cs1)).
Proof.
  intros H.
  destruct (run_step (getStmt NoDialect) cs1 (WF_getStmt _)) as (W1 & G1 & D1).
  destruct (run_step (getStmt NoDialect) cs2 (WF_getStmt _)) as (W2 & G2 & D2).
  split; [|apply W1].
  rewrite !render_WF by done. rewrite !build_nd_groups by done.
  rewrite G1, G2. f_equal. apply gfold_agree. by apply clauses_agree_spec.
Qed.

Lemma Stmt_clause_order_independent_witness :
  clauses_agree
    [call_Select "id" []; call_Where "x>?" [VInt 1]; call_From "t" []]
    [call_From "t" []; call_Select "id" []; call_Where "x>?" [VInt 1]] = true /\
  rendered (run (getStmt NoDialect)
    [call_Select "id" []; call_Where "x>?" [VInt 1]; call_From "t" []])
  = "SELECT id FROM t WHERE x>?"%string /\
  render (run (getStmt NoDialect)
    [call_Select "id" []; call_Where "x>?" [VInt 1]; call_From "t" []])
  = render (run (getStmt NoDialect)
    [call_From "t" []; call_Select "id" []; call_Where "x>?" [VInt 1]]).
Proof.
  split; [vm_compute; reflexivity|]. split; [vm_compute; reflexivity|].
  apply (Stmt_clause_order_independent
    [call_Select "id" []; call_Where "x>?" [VInt 1]; call_From "t" []]
    [call_From "t" []; call_Select "id" []; call_Where "x>?" [VInt 1]]).
  vm_compute. reflexivity.
Defined.

(** ** C3: numbering of placeholders *)

Lemma writePg_count_le (k : nat) (s : list ascii) (n : nat) :
  length s <= k -> snd (writePg n s) = n + pg_placeholders s.
Proof.
  revert s n. induction k as [|k IH]; intros s n Hk.
  - destruct s; [simpl; lia|simpl in Hk; lia].
  - destruct s as [|c rest]; [simpl; lia|]. simpl in Hk. cbn [writePg pg_placeholders].
    destruct (Ascii.eqb c "\"%char).
    + destruct rest as [|c2 rest']; [simpl; lia|].
      destruct (Ascii.eqb c2 "?"%char).
      * destruct (writePg n rest') as [o m] eqn:Ew. simpl.
        pose proof (IH rest' n) as H. rewrite Ew in H. simpl in H, Hk. apply H. lia.
      * destruct (writePg n (c2 :: rest')) as [o m] eqn:Ew. simpl.
        pose proof (IH (c2 :: rest') n) as H. rewrite Ew in H. apply H. lia.
    + destruct (Ascii.eqb c "?"%char).
      * destruct (writePg (S n) rest) as [o m] eqn:Ew. simpl.
        pose proof (IH rest (S n)) as H. rewrite Ew in H. simpl in H. rewrite H by lia. lia.
      * destruct (writePg n rest) as [o m] eqn:Ew. simpl.
        pose proof (IH rest n) as H. rewrite Ew in H. apply H. lia.
Qed.

Lemma writePg_count (s : list ascii) (n : nat) :
  snd (writePg n s) = n + pg_placeholders s.
Proof. by apply (writePg_count_le (length s)). Qed.

(** C3: under [PostgreSQL], [writePg] turns [\?] into a literal [?]
    without advancing the counter, turns every other [?] into [$] followed
    by the counter and advances it, so that after a fragment the counter has
    grown by exactly the number of its unescaped placeholders; [String]
    threads one counter, starting at 1, through the chunks that carry
    arguments in render order, and [Where("a=?",1).Where("b=?",2)] renders
    [WHERE a=$1 AND b=$2]. *)
Theorem writePg_numbering :
  (forall n s, writePg n ("\"%char :: "?"%char :: s)
               = let '(o, m) := writePg n s in ("?"%char :: o, m)) /\
  (forall n s, writePg n ("?"%char :: s)
               = let '(o, m) := writePg (S n) s in ("$"%char :: itoa n ++ o, m)) /\
  (forall n s, snd (writePg n s) = n + pg_placeholders s) /\
  (forall b k prev argNo c cs, 0 < argLen c ->
     build_loop PostgreSQL b k prev argNo (c :: cs)
     = (if (0 <? k) && (prev <? pos c)%Z then [" "%char] else []) ++
       fst (writePg argNo (chunk_text b c)) ++
       build_loop PostgreSQL b (S k) (pos c)
         (argNo + pg_placeholders (chunk_text b c)) cs) /\
  rendered (Where (Where (getStmt PostgreSQL) "a=?" [VInt 1]) "b=?" [VInt 2])
  = "WHERE a=$1 AND b=$2"%string /\
  rendered (Where (getStmt PostgreSQL) "a=? AND b='\?'" [VInt 1])
  = "WHERE a=$1 AND b='?'"%string.
Proof.
  split; [done|]. split; [done|]. split; [intros n s; apply writePg_count|]. split.
  - intros b k prev argNo c cs Hc. cbn [build_loop].
    destruct (Nat.ltb_spec 0 (argLen c)); [|lia]. simpl andb. cbn [is_pg].
    rewrite <- (writePg_count (chunk_text b c) argNo).
    by destruct (writePg argNo (chunk_text b c)).
  - split; vm_compute; reflexivity.
Qed.

(** ** C4: adding to a clause that already has a chunk *)

(** C4 (counterexample): the text between two expressions of one clause is
    the separator of the call that adds the second one, not a separator of
    the clause: [Where("a=1").Expr("b=2")] joins with [", "]. *)
Lemma Where_Expr_comma :
  rendered (Expr (Where (getStmt NoDialect) "a=1" []) "b=2" []) = "WHERE a=1, b=2"%string.
Proof. vm_compute. reflexivity. Qed.

(** C4: on a statement built by calls, a call that adds a non-empty
    expression at a position that already has a clause keeps that clause as
    one entry of the clause view (its keyword is not written again): the
    clause text grows by the separator of the call, or by one space when the
    clause has no expression yet, followed by the expression.  When the last
    chunk of that position ends at the buffer write head, the chunk is
    extended in place: the chunk list keeps its length and the buffer grows
    by exactly that text. *)
Theorem addChunk_merge (cs : list call) (d : Dialect) (p : Z)
    (clause expr sep : list ascii) (a : list value) (G1 G2 : list group)
    (t : list ascii) (h : bool) :
  is_nil expr = false ->
  stmt_groups (run (getStmt d) cs) = G1 ++ (p, (t, h)) :: G2 ->
  Forall (fun g : group => (g.1 < p)%Z) G1 ->
  stmt_groups (fst (addChunk (run (getStmt d) cs) p clause expr a sep))
    = G1 ++ (p, (t ++ (if h then sep else [" "%char]) ++ expr, true)) :: G2 /\
  (forall A E R c, chunks (run (getStmt d) cs) = A ++ (E ++ [c]) ++ R -> pos c = p ->
     Forall (fun x => (p < pos x)%Z) R -> bufHigh c = length (buf (run (getStmt d) cs)) ->
     length (chunks (fst (addChunk (run (getStmt d) cs) p clause expr a sep)))
       = length (chunks (run (getStmt d) cs)) /\
     buf (fst (addChunk (run (getStmt d) cs) p clause expr a sep))
       = buf (run (getStmt d) cs) ++ (if hasExpr c then sep else [" "%char]) ++ expr).
Proof.
  intros He HG HG1. split.
  - destruct (addChunk_step (run (getStmt d) cs) p clause expr a sep (WF_run d cs))
      as (_ & Hg & _).
    rewrite Hg, HG, gupd_pass, gupd_at, He by done. done.
  - intros A E R c Hcs Hc HR Hh.
    rewrite (addChunk_extend _ p clause expr a sep A E R c) by done.
    simpl. split; [|done]. rewrite Hcs, !length_app. simpl. lia.
Qed.

Lemma addChunk_merge_witness :
  is_nil (bs "b=2") = false /\
  stmt_groups (fst (addChunk (run (getStmt NoDialect) [call_Where "a=1" []]) posWhere
      (bs "WHERE") (bs "b=2") [] (bs " AND ")))
    = [(posWhere, (bs "WHERE a=1 AND b=2", true))].
Proof.
  split; [reflexivity|].
  destruct (addChunk_merge [call_Where "a=1" []] NoDialect posWhere (bs "WHERE") (bs "b=2")
    (bs " AND ") [] [] [] (bs "WHERE a=1") true) as [H _].
  - reflexivity.
  - vm_compute. reflexivity.
  - constructor.
  - rewrite H. vm_compute. reflexivity.
Defined.

(** ** C2, C5, C6: [SubQuery] with an empty prefix

    [SubQuery] calls [addChunk(q.pos, "", prefix, query.args, delimiter)].
    With an empty prefix and a chunk already at [q.pos], [addChunk] returns
    early: it inserts none of the child's arguments and does not call
    [Invalidate]; [SubQuery] then writes the child's text into the buffer
    and stretches that chunk over it. *)

(** C2 (failing input): after [SubQuery(parent, "", "", child)] the
    parent renders two placeholders, [$1] and [$2], but holds one argument:
    the child's argument [2] is missing, so [$2] has no argument. *)
Lemma SubQuery_empty_prefix_misaligned :
  rendered (fst (SubQuery ex_parent "" "" ex_child))
    = "SELECT id FROM t WHERE x = $1SELECT 1 FROM u WHERE y = $2"%string /\
  args (fst (SubQuery ex_parent "" "" ex_child)) = [VInt 1] /\
  args ex_child = [VInt 2].
Proof. split; [|split]; vm_compute; reflexivity. Qed.

(** C5 (failing input): with an empty prefix, [SubQuery] copies none of
    the child's arguments into the parent and writes the child's text
    straight after the existing condition, with no delimiter; with the
    prefix ["("] the same call copies the argument and renders the child's
    placeholder as [$2]. *)
Lemma SubQuery_empty_prefix_drops_args :
  args (fst (SubQuery ex_parent "" "" ex_child)) = args ex_parent /\
  length (chunks (fst (SubQuery ex_parent "" "" ex_child))) = length (chunks ex_parent) /\
  args (fst (SubQuery ex_parent "(" ")" ex_child)) = [VInt 1; VInt 2] /\
  rendered (fst (SubQuery ex_parent "(" ")" ex_child))
    = "SELECT id FROM t WHERE x = $1 AND (SELECT 1 FROM u WHERE y = $2)"%string.
Proof. split; [|split; [|split]]; vm_compute; reflexivity. Qed.

(** C6 (failing input): once the parent has been rendered, an
    empty-prefix [SubQuery] leaves the cached text in place, so the next
    [String] returns the text from before the call although the buffer and
    chunks now hold the child. *)
Lemma SubQuery_stale_cache :
  rendered (fst (SubQuery (snd (Stmt_String ex_parent)) "" "" ex_child))
    = "SELECT id FROM t WHERE x = $1"%string /\
  String.string_of_list_ascii (build (fst (SubQuery (snd (Stmt_String ex_parent)) "" "" ex_child)))
    = "SELECT id FROM t WHERE x = $1SELECT 1 FROM u WHERE y = $2"%string.
Proof. split; vm_compute; reflexivity. Qed.

(** ** [String] memoizes; [addChunk] drops the memo or changes nothing *)

Lemma addChunk_sql (q : Stmt) (p : Z) (clause expr : list ascii) (a : list value)
    (sep : list ascii) :
  sql (fst (addChunk q p clause expr a sep)) = None \/
  fst (addChunk q p clause expr a sep) = set_qpos q p.
Proof.
  unfold addChunk. cbn zeta.
  destruct (scan p (chunks q) (length (chunks q)) 0) as [i c t|i t|t].
  - destruct (is_nil expr); [by right|].
    destruct (bufHigh c =? length (buf q)); [by left|].
    destruct (newChunk _ _ _ _ _ _ _ _ _). by left.
  - destruct (newChunk _ _ _ _ _ _ _ _ _). by left.
  - destruct (newChunk _ _ _ _ _ _ _ _ _). by left.
Qed.

Lemma WF_String (q : Stmt) :
  WF q -> WF (snd (Stmt_String q)) /\ fst (Stmt_String q) = build q /\
          build (snd (Stmt_String q)) = build q.
Proof.
  intros Hq. pose proof (render_WF q Hq) as Hr. unfold render in Hr.
  destruct Hq as [Hs Hp Hc]. unfold Stmt_String in *.
  destruct (sql q) as [s|] eqn:Eq.
  - split; [constructor; [exact Hs|exact Hp|simpl; rewrite Eq; exact Hc]|].
    split; [exact Hr|reflexivity].
  - cbn [fst snd]. split; [|split; done]. constructor; simpl; [done|done|]. by right.
Qed.

(** [String] renders the text [build] describes and keeps it; rendering
    again returns the same text and leaves the statement as it is; after
    any [addChunk] call the memo is either dropped or, when the call
    returned early, the statement differs only in [q.pos], and in both
    cases the next rendering is the text of the new chunk list. *)
Theorem String_memo (q : Stmt) :
  WF q ->
  fst (Stmt_String q) = build q /\
  sql (snd (Stmt_String q)) = Some (build q) /\
  Stmt_String (snd (Stmt_String q)) = Stmt_String q /\
  (forall p clause expr a sep,
     (sql (fst (addChunk (snd (Stmt_String q)) p clause expr a sep)) = None \/
      fst (addChunk (snd (Stmt_String q)) p clause expr a sep)
        = set_qpos (snd (Stmt_String q)) p) /\
     render (fst (addChunk (snd (Stmt_String q)) p clause expr a sep))
       = build (fst (addChunk (snd (Stmt_String q)) p clause expr a sep))).
Proof.
  intros Hq. destruct (WF_String q Hq) as (Hq1 & Hs & Hb).
  split; [done|]. split.
  - destruct Hq as [_ _ Hc]. unfold Stmt_String in *.
    destruct (sql q) eqn:Eq; simpl in *; [|done].
    by rewrite Eq, Hs.
  - split.
    + destruct Hq as [_ _ Hc]. unfold Stmt_String. destruct (sql q) eqn:Eq; [simpl; by rewrite Eq|].
      simpl. done.
    + intros p clause expr a sep. split; [apply addChunk_sql|].
      apply render_WF. apply addChunk_step. exact Hq1.
Qed.

Lemma String_memo_witness :
  WF (Limit (From (getStmt NoDialect) "t" []) (VInt 1)) /\
  render (fst (addChunk (snd (Stmt_String (Limit (From (getStmt NoDialect) "t" []) (VInt 1))))
     posLimit (bs "LIMIT ?") [] [VInt 2] []))
  = bs "FROM t LIMIT ?".
Proof.
  assert (Hw : WF (Limit (From (getStmt NoDialect) "t" []) (VInt 1))).
  { exact (WF_run NoDialect [mkCall posFrom "FROM" "t" [] ", "; mkCall posLimit "LIMIT ?" "" [VInt 1] ""]). }
  split; [exact Hw|].
  destruct (String_memo _ Hw) as (_ & _ & _ & H).
  destruct (H posLimit (bs "LIMIT ?") [] [VInt 2] []) as [_ ->].
  vm_compute. reflexivity.
Defined.

(** ** C9: the dialect cache *)

(** C9 (counterexample): two statements built by the same calls, rendered
    one after the other under [PostgreSQL] from empty caches, leave the
    dialect's cache empty: [String] stores nothing there and looks nothing
    up, so the second rendering does not reuse the first. *)
Lemma String_no_shared_cache :
  let q1 := Where (From (getStmt PostgreSQL) "t" []) "a = ?" [VInt 1] in
  let q2 := Where (From (getStmt PostgreSQL) "t" []) "a = ?" [VInt 2] in
  buf q1 = buf q2 /\
  (snd (String_w (snd (String_w (mkWorld ∅ ∅) q1)) q2)) = mkWorld ∅ ∅ /\
  getCachedSQL (dialect_cache (snd (String_w (snd (String_w (mkWorld ∅ ∅) q1)) q2)) PostgreSQL)
    (buf q2) = None.
Proof. split; [|split]; vm_compute; reflexivity. Qed.

(** C9: each dialect's cache is a map keyed by the exact bytes of the
    buffer: a stored text is found under those bytes, a store under other
    bytes leaves it alone, and [ClearCache] empties the map; [String]
    leaves both dialects' caches as they were. *)
Theorem sqlCache_spec :
  (forall c b s, getCachedSQL (putCachedSQL c b s) b = Some s) /\
  (forall c b b' s, b <> b' -> getCachedSQL (putCachedSQL c b s) b' = getCachedSQL c b') /\
  (forall c b, getCachedSQL (ClearCache c) b = None) /\
  (forall w q, snd (String_w w q) = w /\ fst (String_w w q) = Stmt_String q).
Proof.
  split; [|split; [|split]].
  - intros c b s. unfold getCachedSQL, putCachedSQL. apply lookup_insert_eq.
  - intros c b b' s Hne. unfold getCachedSQL, putCachedSQL.
    apply lookup_insert_ne. intros Heq. apply Hne.
    rewrite <- (String.list_ascii_of_string_of_list_ascii b),
            <- (String.list_ascii_of_string_of_list_ascii b'), Heq. done.
  - intros c b. unfold getCachedSQL, ClearCache. apply lookup_empty.
  - intros w q. unfold String_w. by destruct (Stmt_String q).
Qed.

(** ** C10: fragments without arguments under [PostgreSQL] *)

(** C10 (counterexample): a fragment added without arguments is still
    renumbered when a later call with arguments extends the same chunk:
    [Where("a=?").Where("b=?",1)] renders [WHERE a=$1 AND b=$2]. *)
Lemma Where_merged_placeholder :
  rendered (Where (Where (getStmt PostgreSQL) "a=?" []) "b=?" [VInt 1])
  = "WHERE a=$1 AND b=$2"%string.
Proof. vm_compute. reflexivity. Qed.

Lemma build_loop_pg_plain (b : list ascii) (k : nat) (prev : Z) (argNo argNo' : nat)
    (cs : list stmtChunk) :
  Forall (fun c => argLen c = 0) cs ->
  build_loop PostgreSQL b k prev argNo cs = build_loop NoDialect b k prev argNo' cs.
Proof.
  revert k prev argNo argNo'. induction cs as [|c cs IH]; intros k prev argNo argNo' H; [done|].
  inversion H as [|? ? Hc Hcs]; subst. cbn [build_loop]. rewrite Hc. simpl.
  by rewrite (IH _ _ argNo argNo').
Qed.

(** C10: under [PostgreSQL], [String] copies the text of a chunk whose
    argument count is zero as it is and passes the counter on unchanged,
    while a chunk with arguments goes through [writePg] as a whole; so a
    statement whose chunks all have no arguments renders as without a
    dialect.  The count belongs to the chunk: a non-empty fragment added
    to a clause whose last chunk ends at the buffer's write head is
    appended to that chunk, whose count becomes the sum of both; when
    something else was written after that chunk, the fragment gets a chunk
    of its own, with only its own arguments, and the old chunk keeps its
    text. *)
Theorem build_pg_no_args :
  (forall b k prev argNo c cs, argLen c = 0 ->
     build_loop PostgreSQL b k prev argNo (c :: cs)
     = (if (0 <? k) && (prev <? pos c)%Z then [" "%char] else []) ++
       chunk_text b c ++ build_loop PostgreSQL b (S k) (pos c) argNo cs) /\
  (forall b k prev argNo c cs, 0 < argLen c ->
     build_loop PostgreSQL b k prev argNo (c :: cs)
     = (if (0 <? k) && (prev <? pos c)%Z then [" "%char] else []) ++
       fst (writePg argNo (chunk_text b c))
       ++ build_loop PostgreSQL b (S k) (pos c) (snd (writePg argNo (chunk_text b c))) cs) /\
  (forall q, Forall (fun c => argLen c = 0) (chunks q) ->
     build q = build (set_dialect q NoDialect)) /\
  (forall q p clause expr a sep A E R c,
     chunks q = A ++ (E ++ [c]) ++ R -> pos c = p ->
     Forall (fun x => (p < pos x)%Z) R -> is_nil expr = false ->
     bufLow c <= bufHigh c -> bufHigh c <= length (buf q) ->
     let q' := fst (addChunk q p clause expr a sep) in
     let t := (if hasExpr c then sep else [" "%char]) ++ expr in
     (bufHigh c = length (buf q) ->
      exists c', chunks q' = A ++ (E ++ [c']) ++ R /\ pos c' = p /\
        argLen c' = argLen c + length a /\
        chunk_text (buf q') c' = chunk_text (buf q) c ++ t) /\
     (bufHigh c <> length (buf q) ->
      exists c', chunks q' = A ++ ((E ++ [c]) ++ [c']) ++ R /\ pos c' = p /\
        argLen c' = length a /\ chunk_text (buf q') c' = t /\
        chunk_text (buf q') c = chunk_text (buf q) c)).
Proof.
  split; [|split; [|split]].
  - intros b k prev argNo c cs H. cbn [build_loop]. by rewrite H.
  - intros b k prev argNo c cs H. cbn [build_loop].
    replace (0 <? argLen c) with true by (symmetry; apply Nat.ltb_lt; exact H).
    cbn [is_pg andb]. by destruct (writePg argNo (chunk_text b c)).
  - intros q H. unfold build. destruct (dialect q) eqn:Ed; [done|].
    simpl. by apply build_loop_pg_plain.
  - intros q p clause expr a sep A E R c Hcs Hc HR He H1 H2 q' t. split.
    + intros Hh. unfold q'.
      rewrite (addChunk_extend q p clause expr a sep A E R c Hcs Hc HR He Hh).
      eexists. split; [reflexivity|]. split; [reflexivity|]. split; [reflexivity|].
      cbn [buf]. fold t. rewrite <- Hc. rewrite chunk_text_tail by lia.
      unfold chunk_text. cbn [bufLow bufHigh]. by rewrite Hh.
    + intros Hh. unfold q'.
      rewrite (addChunk_after q p clause expr a sep A E R c Hcs Hc HR He Hh).
      eexists. split; [reflexivity|]. split; [reflexivity|]. split; [reflexivity|].
      cbn [buf]. fold t. split; [apply chunk_text_fresh|]. by apply chunk_text_app.
Qed.

(** ** C7: [Clone] *)

(** C7: [Clone] gives a statement whose chunks, buffers and argument and
    destination arrays are disjoint from those of the original and of every
    other statement in use (separation of the memory afterwards); it
    denotes the original statement except for the clause position [q.pos],
    which [Clone] does not copy (the clone keeps the one of the statement
    [getStmt] gave it), so its rendered text, arguments and destinations
    equal the original's, which [Clone] does not change; any sequence of mutations of the clone leaves
    the original as it was, and any sequence of mutations of the original
    leaves the clone as it was. *)
Theorem Clone_independent m q others c m1 :
  Sep m (q :: others) -> h_Clone m q = (c, m1) ->
  Sep m1 (c :: q :: others) /\ view m1 q = view m q
  /\ view m1 c = set_qpos (view m q) (h_pos c)
  /\ render (view m1 c) = render (view m q) /\ args (view m1 c) = args (view m q)
  /\ dest (view m1 c) = dest (view m q)
  /\ (forall os c' m2, h_run m1 c os = (c', m2) -> view m2 q = view m q)
  /\ (forall os q' m2, h_run m1 q os = (q', m2) -> view m2 c = view m1 c).
Proof.
  intros HS HC.
  destruct (h_Clone_spec _ _ _ _ _ HS HC) as (HS1 & Ag & Hv).
  assert (Hq : view m1 q = view m q).
  { apply view_agree. eapply agree_sub; [exact Ag|]. intros l Hl.
    apply elem_of_app. left. exact Hl. }
  split; [exact HS1|]. split; [exact Hq|]. split; [exact Hv|].
  rewrite Hv. split; [destruct (view m q); unfold render, Stmt_String, set_qpos, build; simpl; destruct sql0; reflexivity|].
  split; [reflexivity|]. split; [reflexivity|]. split.
  - intros os c' m2 Hr.
    destruct (h_run_frame _ _ _ _ _ _ HS1 Hr) as (_ & Hf).
    apply Forall_cons in Hf as (Hfq & _). rewrite Hfq. exact Hq.
  - intros os q' m2 Hr.
    assert (HS2 : Sep m1 (q :: c :: others)) by (eapply Sep_perm; [|exact HS1]; solve_Permutation).
    destruct (h_run_frame _ _ _ _ _ _ HS2 Hr) as (_ & Hf).
    apply Forall_cons in Hf as (Hfc & _). rewrite Hfc. exact Hv.
Qed.

Lemma Clone_independent_witness :
  Sep (snd ex_heap) [fst ex_heap] /\
  render (view (snd (h_Clone (snd ex_heap) (fst ex_heap))) (fst (h_Clone (snd ex_heap) (fst ex_heap))))
  = bs "FROM t WHERE a = ?".
Proof.
  assert (HS : Sep (snd ex_heap) [fst ex_heap]) by (apply (@bool_decide_unpack _ (Sep_dec _ _)); vm_compute; reflexivity).
  split; [exact HS|].
  destruct (Clone_independent (snd ex_heap) (fst ex_heap) []
              (fst (h_Clone (snd ex_heap) (fst ex_heap)))
              (snd (h_Clone (snd ex_heap) (fst ex_heap))) HS (surjective_pairing _))
    as (_ & _ & _ & -> & _).
  vm_compute. reflexivity.
Defined.


(** ** C8: [reuseStmt] *)

Lemma Forall_repeat_VNil n : Forall (fun v => v = VNil) (repeat VNil n).
Proof. induction n; simpl; constructor; auto. Qed.

Lemma nil_out_at m s a b : sarr s = Some a ->
  vals_at (nil_out m s) b
  = if decide (b = a) then repeat VNil (slen s) ++ drop (slen s) (vals_at m a) else vals_at m b.
Proof.
  intros E. unfold nil_out. rewrite E. unfold vals_at at 1. simpl.
  case_decide as Hb.
  - subst. rewrite lookup_insert_eq. reflexivity.
  - rewrite lookup_insert_ne by congruence. reflexivity.
Qed.

Lemma nil_out_all m s a : sarr s = Some a -> tail_nil m s ->
  Forall (fun v => v = VNil) (vals_at (nil_out m s) a).
Proof.
  intros E Ht. rewrite (nil_out_at _ _ _ _ E), decide_True by reflexivity.
  unfold tail_nil in Ht. rewrite E in Ht.
  apply Forall_app. split; [apply Forall_repeat_VNil|exact Ht].
Qed.

Lemma nil_out_keep m s b : tail_nil m s ->
  Forall (fun v => v = VNil) (vals_at m b) -> Forall (fun v => v = VNil) (vals_at (nil_out m s) b).
Proof.
  intros Ht Hb. destruct (sarr s) as [a|] eqn:E; [|unfold nil_out; rewrite E; exact Hb].
  rewrite (nil_out_at _ _ _ _ E). case_decide as Hba; [|exact Hb].
  subst. unfold tail_nil in Ht. rewrite E in Ht.
  apply Forall_app. split; [apply Forall_repeat_VNil|exact Ht].
Qed.

Lemma nil_out_tail m s t : tail_nil m s -> tail_nil m t -> tail_nil (nil_out m s) t.
Proof.
  intros Hs Ht. unfold tail_nil in Ht |- *. destruct (sarr t) as [b|] eqn:Et; [|trivial].
  destruct (sarr s) as [a|] eqn:Es.
  - pose proof (nil_out_all m s a Es Hs) as H.
    rewrite (nil_out_at m s a a Es), decide_True in H by reflexivity.
    rewrite (nil_out_at m s a b Es).
    case_decide as Hba; [apply Forall_drop; exact H|exact Ht].
  - unfold nil_out. rewrite Es. exact Ht.
Qed.

(** One [if len(s) > 0 { nil out; s = s[:0] }] step of [reuseStmt]. *)
Lemma reuse_slice_spec m s s' m' :
  tail_nil m s ->
  (if 0 <? slen s then (mkSlice (sarr s) 0 (scap s), nil_out m s) else (s, m)) = (s', m') ->
  s' = mkSlice (sarr s) 0 (scap s) /\ m_chs m' = m_chs m /\ m_bufs m' = m_bufs m
  /\ m_bufPool m' = m_bufPool m /\ m_stmtPool m' = m_stmtPool m
  /\ (forall a, sarr s = Some a -> Forall (fun v => v = VNil) (vals_at m' a))
  /\ (forall t, tail_nil m t -> tail_nil m' t)
  /\ (forall b, Forall (fun v => v = VNil) (vals_at m b) ->
                Forall (fun v => v = VNil) (vals_at m' b)).
Proof.
  intros Ht. destruct (0 <? slen s) eqn:El; intros Heq; injection Heq as <- <-.
  - assert (Hf : m_chs (nil_out m s) = m_chs m /\ m_bufs (nil_out m s) = m_bufs m
                 /\ m_bufPool (nil_out m s) = m_bufPool m
                 /\ m_stmtPool (nil_out m s) = m_stmtPool m)
      by (unfold nil_out; destruct (sarr s); auto).
    destruct Hf as (H1 & H2 & H3 & H4).
    split; [reflexivity|]. split; [exact H1|]. split; [exact H2|]. split; [exact H3|].
    split; [exact H4|]. split; [|split].
    + intros a Ea. exact (nil_out_all _ _ _ Ea Ht).
    + intros t. apply nil_out_tail. exact Ht.
    + intros b. apply nil_out_keep. exact Ht.
  - apply Nat.ltb_ge in El.
    split; [destruct s as [sa sl sc]; simpl in *; f_equal; lia|].
    split; [reflexivity|]. split; [reflexivity|]. split; [reflexivity|].
    split; [reflexivity|]. split; [|split; auto].
    intros a Ea. unfold tail_nil in Ht. rewrite Ea in Ht.
    replace (slen s) with 0 in Ht by lia. rewrite drop_0 in Ht. exact Ht.
Qed.

(** C8: [reuseStmt] (which [Close] calls) pools the statement with its chunk
    slice cut to length zero on the same backing array and capacity, the
    chunk arrays untouched; its argument and destination slices cut to
    length zero on their arrays, every entry of which is then [nil]; no
    buffer and no cached text; its buffer reset and back in the buffer
    pool.  The pooled statement denotes the emptied statement.  The
    hypotheses say that no entry past the length of the argument and
    destination slices holds a value, as [insertAt] leaves them. *)
Theorem reuseStmt_clears m q :
  tail_nil m (h_args q) -> tail_nil m (h_dest q) ->
  exists q', m_stmtPool (h_reuseStmt m q) = q' :: m_stmtPool m
  /\ h_chunks q' = mkSlice (sarr (h_chunks q)) 0 (scap (h_chunks q))
  /\ m_chs (h_reuseStmt m q) = m_chs m
  /\ h_args q' = mkSlice (sarr (h_args q)) 0 (scap (h_args q))
  /\ h_dest q' = mkSlice (sarr (h_dest q)) 0 (scap (h_dest q))
  /\ (forall a, sarr (h_args q) = Some a \/ sarr (h_dest q) = Some a ->
        Forall (fun v => v = VNil) (vals_at (h_reuseStmt m q) a))
  /\ h_buf q' = None /\ h_sql q' = None
  /\ (forall b, h_buf q = Some b ->
        m_bufPool (h_reuseStmt m q) = b :: m_bufPool m
        /\ m_bufs (h_reuseStmt m q) !! b = Some [])
  /\ view (h_reuseStmt m q) q' = reuseStmt (view m q).
Proof.
  intros Ha Hd. unfold h_reuseStmt.
  destruct (if 0 <? slen (h_args q) then _ else _) as [as_ m1] eqn:E1.
  destruct (reuse_slice_spec _ _ _ _ Ha E1) as (Hs1 & C1 & B1 & P1 & S1 & A1 & T1 & K1).
  destruct (if 0 <? slen (h_dest q) then _ else _) as [ds m2] eqn:E2.
  destruct (reuse_slice_spec _ _ _ _ (T1 _ Hd) E2) as (Hs2 & C2 & B2 & P2 & S2 & A2 & T2 & K2).
  subst as_ ds.
  destruct (h_buf q) as [b|] eqn:Eb.
  - eexists. split; [simpl; rewrite S2, S1; reflexivity|].
    split; [reflexivity|]. split; [simpl; congruence|]. split; [reflexivity|].
    split; [reflexivity|]. split.
    + intros a [Ea|Ea]; [apply K2; exact (A1 a Ea)|exact (A2 a Ea)].
    + split; [reflexivity|]. split; [reflexivity|]. split.
      * intros b' Hb'. injection Hb' as <-. simpl. rewrite P2, P1.
        split; [reflexivity|]. apply lookup_insert_eq.
      * unfold view, reuseStmt, arr_chs, arr_vals. simpl.
        destruct (sarr (h_chunks q)), (sarr (h_args q)), (sarr (h_dest q)); reflexivity.
  - eexists. split; [simpl; rewrite S2, S1; reflexivity|].
    split; [reflexivity|]. split; [simpl; congruence|]. split; [reflexivity|].
    split; [reflexivity|]. split.
    + intros a [Ea|Ea]; [apply K2; exact (A1 a Ea)|exact (A2 a Ea)].
    + split; [reflexivity|]. split; [reflexivity|]. split.
      * intros b' Hb'. discriminate.
      * unfold view, reuseStmt, arr_chs, arr_vals. simpl.
        destruct (sarr (h_chunks q)), (sarr (h_args q)), (sarr (h_dest q)); reflexivity.
Qed.

Lemma reuseStmt_clears_witness :
  tail_nil (snd ex_heap) (h_args (fst ex_heap)) /\ tail_nil (snd ex_heap) (h_dest (fst ex_heap))
  /\ args (view (snd ex_heap) (fst ex_heap)) = [VInt 1]
  /\ exists q', m_stmtPool (h_reuseStmt (snd ex_heap) (fst ex_heap)) = q' :: m_stmtPool (snd ex_heap)
     /\ view (h_reuseStmt (snd ex_heap) (fst ex_heap)) q' = reuseStmt (view (snd ex_heap) (fst ex_heap)).
Proof.
  assert (Ha : tail_nil (snd ex_heap) (h_args (fst ex_heap)))
    by (apply (@bool_decide_unpack _ (tail_nil_dec _ _)); vm_compute; reflexivity).
  assert (Hd : tail_nil (snd ex_heap) (h_dest (fst ex_heap)))
    by (apply (@bool_decide_unpack _ (tail_nil_dec _ _)); vm_compute; reflexivity).
  split; [exact Ha|]. split; [exact Hd|]. split; [vm_compute; reflexivity|].
  destruct (reuseStmt_clears _ _ Ha Hd) as (q' & Hp & _ & _ & _ & _ & _ & _ & _ & _ & Hv).
  exists q'. split; [exact Hp|exact Hv].
Defined.

(** * Further properties of the code *)

(** ** util.go: insertAt *)

Lemma insertAt_eq (dest src : list value) (index : nat) :
  insertAt dest src index = take index dest ++ src ++ drop index dest.
Proof.
  unfold insertAt. destruct src as [|x src']; [by rewrite app_nil_l, take_drop|].
  set (src := x :: src').
  destruct (Nat.ltb_spec index (length dest)) as [Hlt|Hge].
  - assert (H1 : go_copy (dest ++ src) (index + length src) (drop index (dest ++ src))
                 = take (index + length src) (dest ++ src) ++ drop index dest).
    { unfold go_copy. rewrite length_drop, !length_app.
      replace (Nat.min (length dest + length src - (index + length src))
                 (length dest + length src - index)) with (length dest - index) by lia.
      rewrite drop_app_le by lia.
      rewrite (take_app_le (drop index dest)) by (rewrite length_drop; lia).
      rewrite (take_ge (drop index dest)) by (rewrite length_drop; lia).
      rewrite (drop_ge (dest ++ src)) by (rewrite length_app; lia).
      rewrite app_nil_r. reflexivity. }
    rewrite H1. unfold go_copy.
    rewrite length_app, length_take, length_app, length_drop.
    replace (Nat.min (Nat.min (index + length src) (length dest + length src)
               + (length dest - index) - index) (length src)) with (length src) by lia.
    rewrite take_app_le by (rewrite length_take, length_app; lia).
    rewrite take_take, take_app_le by lia.
    replace (Nat.min index (index + length src)) with index by lia.
    rewrite drop_app_ge by (rewrite length_take, length_app; lia).
    rewrite length_take, length_app.
    replace (index + length src - Nat.min (index + length src) (length dest + length src)) with 0 by lia.
    rewrite drop_0, (take_ge src) by lia. reflexivity.
  - rewrite take_ge, drop_ge by lia. rewrite app_nil_r. reflexivity.
Qed.

(** ** Stmt.addChunk: where the arguments go *)

Lemma sumArg_app (X Y : list stmtChunk) : sumArg (X ++ Y) = sumArg X + sumArg Y.
Proof. unfold sumArg. rewrite foldr_app. induction X as [|c X IH]; simpl; lia. Qed.

Lemma filter_le_all (p : Z) (X : list stmtChunk) :
  Forall (fun c => (pos c <= p)%Z) X -> filter (fun c => (pos c <= p)%Z) X = X.
Proof.
  induction X as [|c X IH]; intros H; [done|]. apply Forall_cons in H as [H1 H2].
  rewrite filter_cons_True by exact H1. by rewrite IH.
Qed.

Lemma filter_le_none (p : Z) (X : list stmtChunk) :
  Forall (fun c => (p < pos c)%Z) X -> filter (fun c => (pos c <= p)%Z) X = [].
Proof.
  induction X as [|c X IH]; intros H; [done|]. apply Forall_cons in H as [H1 H2].
  rewrite filter_cons_False by lia. by apply IH.
Qed.

Lemma filter_le_split (p : Z) (A E R : list stmtChunk) :
  Forall (fun c => (pos c < p)%Z) A -> Forall (fun c => pos c = p) E ->
  Forall (fun c => (p < pos c)%Z) R ->
  filter (fun c => (pos c <= p)%Z) (A ++ E ++ R) = A ++ E.
Proof.
  intros HA HE HR. rewrite !filter_app, (filter_le_none p R HR), app_nil_r.
  rewrite !filter_le_all; [done| |].
  - eapply Forall_impl; [exact HE|]. simpl. lia.
  - eapply Forall_impl; [exact HA|]. simpl. lia.
Qed.

Lemma args_after_spec (q : Stmt) (a : list value) (X : nat) (R : list stmtChunk) :
  length (args q) = X + sumArg R ->
  args_after q a (sumArg R) = take X (args q) ++ a ++ drop X (args q).
Proof.
  intros H. unfold args_after. replace (length (args q) - sumArg R) with X by lia.
  destruct (Nat.ltb_spec 0 (length a)) as [_|Ha].
  - apply insertAt_eq.
  - destruct a; [|simpl in Ha; lia]. simpl. by rewrite take_drop.
Qed.

Lemma Forall_pos_eq_last (p : Z) (E : list stmtChunk) :
  Forall (fun c => pos c = p) E -> E = [] \/ exists E' c, E = E' ++ [c] /\ pos c = p.
Proof.
  intros H. destruct E as [|x E0] using rev_ind; [by left|]. right.
  exists E0, x. split; [done|]. apply Forall_app in H as [_ H]. by apply Forall_cons in H as [H _].
Qed.

(** [addChunk] on a well-formed statement whose arguments are those its
    chunks count: a call with an empty expression at a position that
    already has a chunk only sets [q.pos]; any other call inserts its
    arguments after those of all chunks at or before its position and
    before those of later chunks.  The count is kept and [dest] is left
    alone. *)
Lemma addChunk_args_gen (q : Stmt) (p : Z) (clause expr : list ascii) (a : list value)
    (sep : list ascii) :
  WF q -> length (args q) = sumArg (chunks q) ->
  let q' := fst (addChunk q p clause expr a sep) in
  let k := sumArg (filter (fun c => (pos c <= p)%Z) (chunks q)) in
  length (args q') = sumArg (chunks q') /\ dest q' = dest q /\
  (is_nil expr = true -> Exists (fun c => pos c = p) (chunks q) -> q' = set_qpos q p) /\
  (is_nil expr = false \/ Forall (fun c => pos c <> p) (chunks q) ->
   args q' = take k (args q) ++ a ++ drop k (args q)).
Proof.
  intros HW HL q' k.
  destruct (sorted_split p (chunks q) (wf_sorted _ HW)) as (A & E & R & Hcs & HA & HE & HR).
  assert (Hk : k = sumArg A + sumArg E).
  { unfold k. rewrite Hcs, (filter_le_split p A E R HA HE HR). apply sumArg_app. }
  assert (HL' : length (args q) = (sumArg A + sumArg E) + sumArg R).
  { rewrite HL, Hcs, !sumArg_app. lia. }
  destruct (Forall_pos_eq_last p E HE) as [->|(E' & c & -> & Hc)].
  - simpl in Hcs, Hk, HL'. rewrite Nat.add_0_r in Hk, HL'.
    assert (Hq' : q' = _) by exact (addChunk_fresh q p clause expr a sep A R Hcs HA HR).
    assert (Hargs : args q' = take k (args q) ++ a ++ drop k (args q)).
    { rewrite Hq'. simpl. rewrite Hk. by apply args_after_spec. }
    split; [|split; [by rewrite Hq'|split; [|by intros _]]].
    + rewrite Hargs, Hq'. simpl. rewrite !length_app, length_take, length_drop, sumArg_app.
      simpl. rewrite Hk. lia.
    + intros _ Hex. exfalso. rewrite Hcs in Hex. apply Exists_app in Hex as [Hex|Hex];
        apply Exists_exists in Hex as (x & Hx & Hpx).
      * rewrite Forall_forall in HA. specialize (HA x Hx). lia.
      * rewrite Forall_forall in HR. specialize (HR x Hx). lia.
  - assert (Hex : Exists (fun c => pos c = p) (chunks q)).
    { rewrite Hcs. apply Exists_app. right. apply Exists_app. left.
      apply Exists_app. right. by constructor. }
    assert (Hnf : ~ Forall (fun c => pos c <> p) (chunks q)).
    { intros Hf. apply Exists_exists in Hex as (x & Hx & Hpx).
      rewrite Forall_forall in Hf. exact (Hf x Hx Hpx). }
    destruct (is_nil expr) eqn:Ee.
    + assert (Hq' : q' = set_qpos q p) by exact (addChunk_noop q p clause expr a sep A E' R c Hcs Hc HR Ee).
      split; [by rewrite Hq'|]. split; [by rewrite Hq'|]. split; [by intros _ _|].
      intros [H|H]; [discriminate|contradiction].
    + assert (HkE : k = sumArg A + sumArg E' + argLen c).
      { rewrite Hk, sumArg_app. simpl. lia. }
      destruct (Nat.eq_dec (bufHigh c) (length (buf q))) as [Hb|Hb].
      * assert (Hq' : q' = _) by exact (addChunk_extend q p clause expr a sep A E' R c Hcs Hc HR Ee Hb).
        assert (Hargs : args q' = take k (args q) ++ a ++ drop k (args q)).
        { rewrite Hq'. simpl. apply args_after_spec. rewrite HL', Hk. lia. }
        split; [|split; [by rewrite Hq'|split; [by intros|by intros _]]].
        rewrite Hargs, Hq'. simpl. rewrite !length_app, length_take, length_drop, !sumArg_app.
        simpl. rewrite sumArg_app in HL'. simpl in HL'. lia.
      * assert (Hq' : q' = _) by exact (addChunk_after q p clause expr a sep A E' R c Hcs Hc HR Ee Hb).
        assert (Hargs : args q' = take k (args q) ++ a ++ drop k (args q)).
        { rewrite Hq'. simpl. apply args_after_spec. rewrite HL', Hk. lia. }
        split; [|split; [by rewrite Hq'|split; [by intros|by intros _]]].
        rewrite Hargs, Hq'. simpl. rewrite !length_app, length_take, length_drop, !sumArg_app.
        simpl. rewrite sumArg_app in HL'. simpl in HL'. lia.
Qed.

(** Statements built by calls keep both hypotheses of [addChunk_args_gen]. *)
Lemma run_args_ok (q : Stmt) (cs : list call) :
  WF q -> length (args q) = sumArg (chunks q) ->
  length (args (run q cs)) = sumArg (chunks (run q cs)).
Proof.
  revert q. induction cs as [|c cs IH]; intros q HW HL; [exact HL|].
  change (run q (c :: cs)) with (run (apply_call q c) cs). apply IH.
  - apply addChunk_step. exact HW.
  - unfold apply_call, run_add. apply addChunk_args_gen; assumption.
Qed.

Lemma getStmt_args_ok (d : Dialect) :
  length (args (getStmt d)) = sumArg (chunks (getStmt d)).
Proof. reflexivity. Qed.

(** * Further properties of the builder *)

Lemma addChunk_qpos (q : Stmt) (p : Z) (clause expr : list ascii) (a : list value) (sep : list ascii) :
  qpos (fst (addChunk q p clause expr a sep)) = p.
Proof.
  unfold addChunk. destruct (scan p (chunks q) (length (chunks q)) 0) as [i c t|i t|t].
  - destruct (is_nil expr); [reflexivity|].
    destruct (bufHigh c =? length (buf q)); [reflexivity|].
    destruct (newChunk _ _ _ _ _ _ _ _ _); reflexivity.
  - destruct (newChunk _ _ _ _ _ _ _ _ _); reflexivity.
  - destruct (newChunk _ _ _ _ _ _ _ _ _); reflexivity.
Qed.

Lemma gupd_has (p : Z) (clause expr sep : list ascii) (gs : list group) :
  Exists (fun g : group => g.1 = p) (gupd p clause expr sep gs).
Proof.
  induction gs as [|[k [t h]] gs IH]; simpl; [by constructor|].
  destruct (k <? p)%Z eqn:E1; [by constructor 2|].
  destruct (k =? p)%Z eqn:E2; [|by constructor].
  apply Z.eqb_eq in E2. destruct (is_nil expr); by constructor.
Qed.

Lemma groups_key_chunk (b : list ascii) (p : Z) (cs : list stmtChunk) :
  Exists (fun g : group => g.1 = p) (groups b cs) -> Exists (fun c => pos c = p) cs.
Proof.
  induction cs as [|c cs IH]; simpl; intros H; [by inversion H|].
  apply Exists_cons. revert H IH.
  destruct (groups b cs) as [|[k [t h]] gs]; intros H IH.
  - apply Exists_cons in H as [H|H]; [by left|by inversion H].
  - destruct (k =? pos c)%Z eqn:Ek.
    + apply Z.eqb_eq in Ek.
      apply Exists_cons in H as [H|H]; simpl in H.
      * left. congruence.
      * right. apply IH. by apply Exists_cons; right.
    + apply Exists_cons in H as [H|H]; [by left|].
      right. exact (IH H).
Qed.

Lemma addChunk_has_pos (q : Stmt) (p : Z) (clause expr : list ascii) (a : list value) (sep : list ascii) :
  WF q -> Exists (fun c => pos c = p) (chunks (fst (addChunk q p clause expr a sep))).
Proof.
  intros HW. destruct (addChunk_step q p clause expr a sep HW) as (_ & Hg & _).
  apply (groups_key_chunk (buf (fst (addChunk q p clause expr a sep)))).
  change (groups _ _) with (stmt_groups (fst (addChunk q p clause expr a sep))).
  rewrite Hg. apply gupd_has.
Qed.

Lemma set_qpos_same (q : Stmt) : set_qpos q (qpos q) = q.
Proof. by destruct q. Qed.

(** [Limit] and [Offset] keep the first value: on a statement that
    already has a LIMIT (an OFFSET) chunk, a second [Limit] ([Offset]) call
    has an empty expression and changes nothing. *)
Theorem Limit_first_wins (q : Stmt) (v1 v2 : value) :
  WF q -> length (args q) = sumArg (chunks q) ->
  Limit (Limit q v1) v2 = Limit q v1 /\ Offset (Offset q v1) v2 = Offset q v1.
Proof.
  intros HW HL. split.
  - unfold Limit, run_add.
    destruct (addChunk_step q posLimit (bs "LIMIT ?") (bs "") [v1] (bs "") HW) as (HW' & _).
    destruct (addChunk_args_gen q posLimit (bs "LIMIT ?") (bs "") [v1] (bs "") HW HL) as (HL' & _).
    destruct (addChunk_args_gen _ posLimit (bs "LIMIT ?") (bs "") [v2] (bs "") HW' HL') as (_ & _ & H & _).
    rewrite H; [|reflexivity|by apply addChunk_has_pos].
    rewrite <- (addChunk_qpos q posLimit (bs "LIMIT ?") (bs "") [v1] (bs "")) at 2.
    apply set_qpos_same.
  - unfold Offset, run_add.
    destruct (addChunk_step q posOffset (bs "OFFSET ?") (bs "") [v1] (bs "") HW) as (HW' & _).
    destruct (addChunk_args_gen q posOffset (bs "OFFSET ?") (bs "") [v1] (bs "") HW HL) as (HL' & _).
    destruct (addChunk_args_gen _ posOffset (bs "OFFSET ?") (bs "") [v2] (bs "") HW' HL') as (_ & _ & H & _).
    rewrite H; [|reflexivity|by apply addChunk_has_pos].
    rewrite <- (addChunk_qpos q posOffset (bs "OFFSET ?") (bs "") [v1] (bs "")) at 2.
    apply set_qpos_same.
Qed.

Lemma sumArg_filter_tail (p : Z) (cs : list stmtChunk) :
  Forall (fun c => (p < pos c)%Z -> argLen c = 0) cs ->
  sumArg (filter (fun c => (pos c <= p)%Z) cs) = sumArg cs.
Proof.
  induction cs as [|c cs IH]; intros H; [done|]. apply Forall_cons in H as [H1 H2].
  destruct (Z_le_gt_dec (pos c) p) as [Hle|Hgt].
  - rewrite filter_cons_True by exact Hle. simpl. by rewrite IH.
  - rewrite filter_cons_False by lia. simpl. rewrite IH by done. rewrite H1 by lia. lia.
Qed.

Lemma addChunk_args_end (q : Stmt) (p : Z) (clause expr : list ascii) (a : list value)
    (sep : list ascii) :
  WF q -> length (args q) = sumArg (chunks q) ->
  Forall (fun c => (p < pos c)%Z -> argLen c = 0) (chunks q) ->
  is_nil expr = false \/ Forall (fun c => pos c <> p) (chunks q) ->
  args (fst (addChunk q p clause expr a sep)) = args q ++ a.
Proof.
  intros HW HL Ht He.
  destruct (addChunk_args_gen q p clause expr a sep HW HL) as (_ & _ & _ & H).
  rewrite (H He), sumArg_filter_tail, <- HL by exact Ht.
  by rewrite take_ge, drop_ge, app_nil_r by lia.
Qed.

Lemma sorted_last (cs : list stmtChunk) (c : stmtChunk) :
  chunks_sorted cs -> last cs = Some c -> Forall (fun x => (pos x <= pos c)%Z) cs.
Proof.
  intros Hs Hl. apply last_Some in Hl as (cs' & ->).
  apply SS_app_inv in Hs as (_ & _ & H). apply Forall_app. split; [|constructor; [lia|constructor]].
  eapply Forall_impl; [exact H|]. simpl. intros x Hx. by apply Forall_cons in Hx as [Hx _].
Qed.

Lemma gjoin_from_snoc (prev p : Z) (t : list ascii) (h : bool) (G : list group) :
  (prev < p)%Z -> Forall (fun g : group => (g.1 < p)%Z) G ->
  gjoin_from prev (G ++ [(p, (t, h))]) = gjoin_from prev G ++ [" "%char] ++ t.
Proof.
  revert prev. induction G as [|[k [t' h']] G IH]; intros prev Hp HG; simpl.
  - rewrite (proj2 (Z.ltb_lt _ _) Hp). simpl. by rewrite app_nil_r.
  - apply Forall_cons in HG as [Hk HG]. simpl in Hk. rewrite IH by done.
    by rewrite <- !app_assoc.
Qed.

Lemma gjoin_snoc (p : Z) (t : list ascii) (h : bool) (G : list group) :
  Forall (fun g : group => (g.1 < p)%Z) G ->
  gjoin (G ++ [(p, (t, h))]) = gjoin G ++ (if is_nil G then [] else [" "%char]) ++ t.
Proof.
  destruct G as [|[k [t' h']] G]; intros HG; simpl; [by rewrite app_nil_r|].
  apply Forall_cons in HG as [Hk HG]. simpl in Hk. rewrite gjoin_from_snoc by done.
  by rewrite <- !app_assoc.
Qed.

Lemma gupd_end (p : Z) (clause expr sep : list ascii) (G : list group) :
  Forall (fun g : group => (g.1 < p)%Z) G ->
  gupd p clause expr sep G = G ++ [(p, gnew clause expr)].
Proof.
  intros HG. rewrite <- (app_nil_r G) at 1. by rewrite gupd_pass.
Qed.

Lemma groups_nil (b : list ascii) (cs : list stmtChunk) : is_nil (groups b cs) = is_nil cs.
Proof.
  destruct cs as [|c cs]; [done|]. simpl. destruct (groups b cs) as [|[k [t h]] gs]; [done|].
  by destruct (k =? pos c)%Z.
Qed.

(** [Clause] adds a new group after every existing one, with its
    expression as the group's whole text and no keyword; its arguments go
    to the end of the argument list, and without a dialect the text is
    appended after one space (none on an empty statement). *)
Theorem Clause_appends (q : Stmt) (expr : string) (a : list value) :
  WF q -> length (args q) = sumArg (chunks q) ->
  exists p, Forall (fun g : group => (g.1 < p)%Z) (stmt_groups q) /\
    stmt_groups (Clause q expr a) = stmt_groups q ++ [(p, (bs expr, false))] /\
    args (Clause q expr a) = args q ++ a /\
    (dialect q = NoDialect ->
     render (Clause q expr a) = render q ++ (if is_nil (chunks q) then [] else [" "%char]) ++ bs expr).
Proof.
  intros HW HL.
  set (p := match last (chunks q) with Some c => (pos c + 10)%Z | None => posStart end).
  assert (Hlt : Forall (fun c => (pos c < p)%Z) (chunks q)).
  { unfold p. destruct (last (chunks q)) as [c|] eqn:El.
    - eapply Forall_impl; [exact (sorted_last _ _ (wf_sorted _ HW) El)|]. simpl. lia.
    - apply last_None in El. rewrite El. constructor. }
  assert (HG : Forall (fun g : group => (g.1 < p)%Z) (stmt_groups q)) by (apply (groups_keys (buf q) (fun k => (k < p)%Z)); exact Hlt).
  destruct (addChunk_step q p (bs expr) (bs "") a (bs ", ") HW) as (HW' & Hg & Hd).
  assert (Hg' : stmt_groups (Clause q expr a) = stmt_groups q ++ [(p, (bs expr, false))]).
  { unfold Clause, run_add. fold p. rewrite Hg, gupd_end by exact HG. unfold gnew. simpl.
    by destruct (is_nil (bs expr)) eqn:E; [destruct (bs expr)|]; rewrite ?app_nil_r. }
  exists p. split; [exact HG|]. split; [exact Hg'|]. split.
  - unfold Clause, run_add. fold p. apply addChunk_args_end; [done|done| |].
    + eapply Forall_impl; [exact Hlt|]. simpl. lia.
    + right. eapply Forall_impl; [exact Hlt|]. simpl. lia.
  - intros HN. assert (HW'' : WF (Clause q expr a)) by (unfold Clause, run_add; exact HW').
    rewrite (render_WF _ HW''), (render_WF _ HW), !build_nd_groups; [|done|].
    + rewrite Hg', gjoin_snoc by exact HG. unfold stmt_groups. by rewrite groups_nil.
    + unfold Clause, run_add. fold p. by rewrite Hd.
Qed.

Lemma mjoin_imap_seq (a : list value) (g : nat -> list ascii) :
  mjoin (imap (fun i _ => g i) a) = mjoin (map g (seq 0 (length a))).
Proof.
  revert g. induction a as [|v a IH]; intros g; [done|].
  rewrite imap_cons. simpl. f_equal.
  change ((fun (i : nat) (_ : value) => g i) ∘ S) with (fun (i : nat) (_ : value) => g (S i)).
  rewrite (IH (fun i => g (S i))). by rewrite <- seq_shift, map_map.
Qed.

Lemma In_marks_shape (v : value) (t : list value) :
  In_marks (v :: t) = mjoin (repeat (bs "?,") (length t)) ++ bs "?".
Proof.
  unfold In_marks. rewrite (mjoin_imap_seq _ (fun i => if (Z.of_nat i <? Z.of_nat (length (v :: t)) - 1)%Z then bs "?," else bs "?")).
  simpl length. rewrite seq_S, map_app, join_app. simpl. rewrite app_nil_r.
  replace (Z.of_nat (length t) <? Z.of_nat (S (length t)) - 1)%Z with false
    by (symmetry; apply Z.ltb_ge; lia).
  f_equal. assert (H : forall i, In i (seq 0 (length t)) ->
    (if (Z.of_nat i <? Z.of_nat (S (length t)) - 1)%Z then ["?"%char; ","%char] else ["?"%char])
    = ["?"%char; ","%char]).
  { intros i Hi. apply in_seq in Hi. replace (Z.of_nat i <? Z.of_nat (S (length t)) - 1)%Z with true
      by (symmetry; apply Z.ltb_lt; lia). reflexivity. }
  rewrite (map_ext_in _ _ _ H). rewrite <- (length_seq (length t) 0) at 2.
  generalize (seq 0 (length t)) as l. clear.
  intros l. induction l; simpl; congruence.
Qed.

Lemma gupd_into (p : Z) (clause expr sep t : list ascii) (h : bool) (G1 G2 : list group) :
  Forall (fun g : group => (g.1 < p)%Z) G1 -> is_nil expr = false ->
  gupd p clause expr sep (G1 ++ (p, (t, h)) :: G2)
  = G1 ++ (p, (t ++ (if h then sep else [" "%char]) ++ expr, true)) :: G2.
Proof. intros H1 He. rewrite gupd_pass by exact H1. by rewrite gupd_at, He. Qed.

Lemma gupd_absent (p : Z) (clause expr sep : list ascii) (G1 G2 : list group) :
  Forall (fun g : group => (g.1 < p)%Z) G1 -> Forall (fun g : group => (p < g.1)%Z) G2 ->
  gupd p clause expr sep (G1 ++ G2) = G1 ++ (p, gnew clause expr) :: G2.
Proof. intros H1 H2. rewrite gupd_pass by exact H1. by rewrite gupd_front. Qed.

Lemma bs_nonempty (s : string) : s <> ""%string -> is_nil (bs s) = false.
Proof. destruct s; [done|reflexivity]. Qed.

Lemma addChunk_noargs (q : Stmt) (p : Z) (clause expr sep : list ascii) :
  args (fst (addChunk q p clause expr [] sep)) = args q.
Proof.
  unfold addChunk. destruct (scan p (chunks q) (length (chunks q)) 0) as [i c t|i t|t].
  - destruct (is_nil expr); [reflexivity|].
    destruct (bufHigh c =? length (buf q)); [reflexivity|].
    destruct (newChunk _ _ _ _ _ _ _ _ _); reflexivity.
  - destruct (newChunk _ _ _ _ _ _ _ _ _); reflexivity.
  - destruct (newChunk _ _ _ _ _ _ _ _ _); reflexivity.
Qed.

Lemma addChunk_dest (q : Stmt) (p : Z) (clause expr : list ascii) (a : list value) (sep : list ascii) :
  dest (fst (addChunk q p clause expr a sep)) = dest q.
Proof.
  unfold addChunk. destruct (scan p (chunks q) (length (chunks q)) 0) as [i c t|i t|t].
  - destruct (is_nil expr); [reflexivity|].
    destruct (bufHigh c =? length (buf q)); [reflexivity|].
    destruct (newChunk _ _ _ _ _ _ _ _ _); reflexivity.
  - destruct (newChunk _ _ _ _ _ _ _ _ _); reflexivity.
  - destruct (newChunk _ _ _ _ _ _ _ _ _); reflexivity.
Qed.

(** [In] writes ["IN (?,?,...)"] into the WHERE clause: after the
    existing WHERE text and one space, or, when there is no WHERE clause
    yet, as a new group that has no WHERE keyword.  An empty argument list
    gives ["IN ()"]. *)
Theorem In_extends_where (q : Stmt) (a : list value) :
  WF q ->
  let txt := bs "IN (" ++ In_marks a ++ bs ")" in
  (forall G1 t h G2, stmt_groups q = G1 ++ (posWhere, (t, h)) :: G2 ->
     Forall (fun g : group => (g.1 < posWhere)%Z) G1 ->
     stmt_groups (Stmt_In q a) = G1 ++ (posWhere, (t ++ [" "%char] ++ txt, true)) :: G2) /\
  (forall G1 G2, stmt_groups q = G1 ++ G2 ->
     Forall (fun g : group => (g.1 < posWhere)%Z) G1 ->
     Forall (fun g : group => (posWhere < g.1)%Z) G2 ->
     stmt_groups (Stmt_In q a) = G1 ++ (posWhere, (txt, true)) :: G2) /\
  In_marks a = match a with
               | [] => []
               | _ :: t => mjoin (repeat (bs "?,") (length t)) ++ bs "?"
               end.
Proof.
  intros HW txt.
  destruct (addChunk_step q posWhere [] txt a (bs " ") HW) as (_ & Hg & _).
  split; [|split].
  - intros G1 t h G2 Hq H1. unfold Stmt_In. fold txt. rewrite Hg, Hq, gupd_into by done.
    by destruct h.
  - intros G1 G2 Hq H1 H2. unfold Stmt_In. fold txt. rewrite Hg, Hq, gupd_absent by done.
    reflexivity.
  - destruct a as [|v t]; [reflexivity|]. apply In_marks_shape.
Qed.

(** [join] (and so [Join], [LeftJoin], [RightJoin], [FullJoin]) appends
    [joinType table ON (on)] to the FROM clause after one space, or starts
    a keywordless FROM group when there is none.  It adds no arguments and
    leaves [dest] alone. *)
Theorem join_extends_from (q : Stmt) (joinType table on : string) :
  WF q ->
  let txt := bs joinType ++ bs table ++ bs " ON (" ++ bs on ++ [")"%char] in
  (forall G1 t h G2, stmt_groups q = G1 ++ (posFrom, (t, h)) :: G2 ->
     Forall (fun g : group => (g.1 < posFrom)%Z) G1 ->
     stmt_groups (fst (join q joinType table on)) = G1 ++ (posFrom, (t ++ [" "%char] ++ txt, true)) :: G2) /\
  (forall G1 G2, stmt_groups q = G1 ++ G2 ->
     Forall (fun g : group => (g.1 < posFrom)%Z) G1 ->
     Forall (fun g : group => (posFrom < g.1)%Z) G2 ->
     stmt_groups (fst (join q joinType table on)) = G1 ++ (posFrom, (txt, true)) :: G2) /\
  args (fst (join q joinType table on)) = args q /\
  dest (fst (join q joinType table on)) = dest q.
Proof.
  intros HW txt.
  destruct (addChunk_step q posFrom [] txt [] (bs " ") HW) as (_ & Hg & _).
  assert (Hne : is_nil txt = false) by (unfold txt, is_nil; destruct (bs joinType), (bs table); reflexivity).
  split; [|split; [|split]].
  - intros G1 t h G2 Hq H1. unfold join. fold txt. rewrite Hg, Hq, gupd_into by done.
    by destruct h.
  - intros G1 G2 Hq H1 H2. unfold join. fold txt. rewrite Hg, Hq, gupd_absent by done.
    unfold gnew. by rewrite Hne.
  - apply addChunk_noargs.
  - apply addChunk_dest.
Qed.

(** After [Where(e1)], [Expr(e2)] joins [e2] with [", "], while a
    second [Where(e2)] joins it with [" AND "]. *)
Theorem Expr_after_Where (q : Stmt) (e1 e2 : string) (a1 a2 : list value) (G1 G2 : list group) :
  WF q -> e1 <> ""%string -> e2 <> ""%string ->
  stmt_groups q = G1 ++ G2 ->
  Forall (fun g : group => (g.1 < posWhere)%Z) G1 ->
  Forall (fun g : group => (posWhere < g.1)%Z) G2 ->
  stmt_groups (Expr (Where q e1 a1) e2 a2)
    = G1 ++ (posWhere, (bs "WHERE " ++ bs e1 ++ bs ", " ++ bs e2, true)) :: G2 /\
  stmt_groups (Where (Where q e1 a1) e2 a2)
    = G1 ++ (posWhere, (bs "WHERE " ++ bs e1 ++ bs " AND " ++ bs e2, true)) :: G2.
Proof.
  intros HW H1 H2 Hq HG1 HG2.
  pose proof (bs_nonempty e1 H1) as N1. pose proof (bs_nonempty e2 H2) as N2.
  destruct (addChunk_step q posWhere (bs "WHERE") (bs e1) a1 (bs " AND ") HW) as (HW1 & Hg1 & _).
  assert (Hw : stmt_groups (Where q e1 a1) = G1 ++ (posWhere, (bs "WHERE " ++ bs e1, true)) :: G2).
  { unfold Where, run_add. rewrite Hg1, Hq, gupd_absent by done. unfold gnew. rewrite N1. simpl.
    reflexivity. }
  assert (Hp : qpos (Where q e1 a1) = posWhere) by apply addChunk_qpos.
  change (WF (Where q e1 a1)) in HW1.
  clear Hg1. generalize dependent (Where q e1 a1). intros W HW1 Hw Hp.
  split.
  - unfold Expr. rewrite Hp. unfold run_add.
    destruct (addChunk_step W posWhere (bs "") (bs e2) a2 (bs ", ") HW1) as (_ & Hg2 & _).
    rewrite Hg2, Hw, gupd_into by done. simpl. rewrite <- ?app_assoc. reflexivity.
  - unfold Where, run_add.
    destruct (addChunk_step W posWhere (bs "WHERE") (bs e2) a2 (bs " AND ") HW1) as (_ & Hg2 & _).
    rewrite Hg2, Hw, gupd_into by done. simpl. rewrite <- ?app_assoc. reflexivity.
Qed.

Lemma args_after_end (q : Stmt) (a : list value) : args_after q a 0 = args q ++ a.
Proof.
  unfold args_after. destruct (0 <? length a) eqn:E.
  - rewrite insertAt_eq, Nat.sub_0_r, take_ge, drop_ge by lia. by rewrite app_nil_r.
  - apply Nat.ltb_ge in E. destruct a; [by rewrite app_nil_r|simpl in E; lia].
Qed.

Lemma args_after_one (q : Stmt) (x : value) (n : nat) :
  args_after q [x] n = insertAt (args q) [x] (length (args q) - n).
Proof. reflexivity. Qed.

Lemma is_nil_snoc {A} (l : list A) (x : A) : is_nil (l ++ [x]) = false.
Proof. by destruct l. Qed.

(** On a statement whose chunks all come before [posLimit] (no LIMIT,
    OFFSET or RETURNING yet), [Paginate] clamps page and page size to at
    least 1, adds a LIMIT group and, from page 2 on, an OFFSET group; the arguments are the page
    size then the 64-bit wrapped offset [(page-1)*pageSize], in that order. *)
Theorem Paginate_appends (q : Stmt) (page pageSize : Z) :
  WF q -> Forall (fun c => (pos c < posLimit)%Z) (chunks q) ->
  let pg := if (page <? 1)%Z then 1%Z else page in
  let sz := if (pageSize <? 1)%Z then 1%Z else pageSize in
  args (Paginate q page pageSize)
    = args q ++ VInt sz :: (if (1 <? pg)%Z then [VInt (wrap64 ((pg - 1) * sz))] else []) /\
  stmt_groups (Paginate q page pageSize)
    = stmt_groups q ++ (posLimit, (bs "LIMIT ?", false))
        :: (if (1 <? pg)%Z then [(posOffset, (bs "OFFSET ?", false))] else []) /\
  (dialect q = NoDialect ->
   render (Paginate q page pageSize)
   = render q ++ (if is_nil (chunks q) then [] else [" "%char]) ++ bs "LIMIT ?"
       ++ (if (1 <? pg)%Z then bs " OFFSET ?" else [])).
Proof.
  intros HW Hlt pg sz.
  assert (HG : Forall (fun g : group => (g.1 < posLimit)%Z) (stmt_groups q))
    by (apply (groups_keys (buf q) (fun k => (k < posLimit)%Z)); exact Hlt).
  assert (HGo : Forall (fun g : group => (g.1 < posOffset)%Z) (stmt_groups q)).
  { eapply Forall_impl; [exact HG|]. unfold posLimit, posOffset. simpl. lia. }
  assert (Hlto : Forall (fun c => (pos c < posOffset)%Z) (chunks q)).
  { eapply Forall_impl; [exact Hlt|]. unfold posLimit, posOffset. simpl. lia. }
  unfold Paginate. fold pg sz.
  destruct (1 <? pg)%Z eqn:Epg.
  - set (v := VInt (wrap64 ((pg - 1) * sz))).
    assert (H1 := addChunk_fresh q posOffset (bs "OFFSET ?") (bs "") [v] (bs "") (chunks q) []
                    (eq_sym (app_nil_r _)) Hlto (Forall_nil_2 _)).
    destruct (addChunk_step q posOffset (bs "OFFSET ?") (bs "") [v] (bs "") HW) as (HW1 & Hg1 & Hd1).
    change (fst (addChunk q posOffset (bs "OFFSET ?") (bs "") [v] (bs ""))) with (Offset q v) in H1, HW1, Hg1, Hd1.
    rewrite gupd_end in Hg1 by exact HGo.
    set (cO := mkChunk posOffset (length (buf q)) (length (buf q ++ fst (gnew (bs "OFFSET ?") (bs ""))))
                 (negb (is_nil (bs ""))) (length [v])) in H1.
    assert (H2 := addChunk_fresh (Offset q v) posLimit (bs "LIMIT ?") (bs "") [VInt sz] (bs "")
                    (chunks q) [cO] ltac:(by rewrite H1) Hlt
                    ltac:(constructor; [unfold cO, posLimit, posOffset; simpl; lia|constructor])).
    destruct (addChunk_step (Offset q v) posLimit (bs "LIMIT ?") (bs "") [VInt sz] (bs "") HW1)
      as (HW2 & Hg2 & Hd2).
    change (fst (addChunk (Offset q v) posLimit (bs "LIMIT ?") (bs "") [VInt sz] (bs "")))
      with (Limit (Offset q v) (VInt sz)) in H2, HW2, Hg2, Hd2.
    rewrite Hg1, gupd_absent in Hg2 by (done || (constructor; [unfold posLimit, posOffset; simpl; lia|constructor])).
    assert (Hgs : stmt_groups (Limit (Offset q v) (VInt sz))
                  = stmt_groups q ++ [(posLimit, (bs "LIMIT ?", false)); (posOffset, (bs "OFFSET ?", false))])
      by (rewrite Hg2; reflexivity).
    split; [|split].
    + rewrite H2. cbn [args]. rewrite args_after_one, insertAt_eq, H1. cbn [args].
      rewrite args_after_end, length_app. cbn [length sumArg foldr argLen cO].
      rewrite Nat.add_0_r, Nat.add_sub, take_app_le, drop_app_le, take_ge, drop_ge by lia.
      reflexivity.
    + exact Hgs.
    + intros HN. assert (HN2 : dialect (Limit (Offset q v) (VInt sz)) = NoDialect) by congruence.
      rewrite (render_WF _ HW2), (render_WF _ HW), (build_nd_groups _ HN2), (build_nd_groups _ HN).
      * rewrite Hgs. change [(posLimit, (bs "LIMIT ?", false)); (posOffset, (bs "OFFSET ?", false))]
          with ([(posLimit, (bs "LIMIT ?", false))] ++ [(posOffset, (bs "OFFSET ?", false))]).
        rewrite app_assoc, gjoin_snoc.
        -- rewrite gjoin_snoc by exact HG. rewrite is_nil_snoc. unfold stmt_groups. rewrite groups_nil.
           destruct (is_nil (chunks q)); simpl; by rewrite <- ?app_assoc.
        -- apply Forall_app. split; [exact HGo|]. constructor; [unfold posLimit, posOffset; simpl; lia|constructor].
  - assert (H2 := addChunk_fresh q posLimit (bs "LIMIT ?") (bs "") [VInt sz] (bs "") (chunks q) []
                    (eq_sym (app_nil_r _)) Hlt (Forall_nil_2 _)).
    destruct (addChunk_step q posLimit (bs "LIMIT ?") (bs "") [VInt sz] (bs "") HW) as (HW2 & Hg2 & Hd2).
    change (fst (addChunk q posLimit (bs "LIMIT ?") (bs "") [VInt sz] (bs ""))) with (Limit q (VInt sz)) in H2, HW2, Hg2, Hd2.
    rewrite gupd_end in Hg2 by exact HG.
    split; [|split].
    + rewrite H2. simpl. apply args_after_end.
    + rewrite Hg2. reflexivity.
    + intros HN. assert (HN2 : dialect (Limit q (VInt sz)) = NoDialect) by congruence.
      rewrite (render_WF _ HW2), (render_WF _ HW), (build_nd_groups _ HN2), (build_nd_groups _ HN).
      rewrite Hg2. change (gnew (bs "LIMIT ?") (bs "")) with (bs "LIMIT ?", false).
      rewrite gjoin_snoc by exact HG. unfold stmt_groups. rewrite groups_nil. by rewrite app_nil_r.
Qed.

Lemma filter_gt_split (p : Z) (A E R : list stmtChunk) :
  Forall (fun c => (pos c < p)%Z) A -> Forall (fun c => pos c = p) E ->
  Forall (fun c => (p < pos c)%Z) R ->
  filter (fun c => (p < pos c)%Z) (A ++ E ++ R) = R.
Proof.
  intros HA HE HR. rewrite !filter_app.
  assert (HA' : filter (fun c => (p < pos c)%Z) A = []).
  { induction A as [|c A IH]; [done|]. apply Forall_cons in HA as [H1 H2].
    rewrite filter_cons_False by lia. by apply IH. }
  assert (HE' : filter (fun c => (p < pos c)%Z) E = []).
  { induction E as [|c E IH]; [done|]. apply Forall_cons in HE as [H1 H2].
    rewrite filter_cons_False by lia. by apply IH. }
  assert (HR' : filter (fun c => (p < pos c)%Z) R = R).
  { induction R as [|c R IH]; [done|]. apply Forall_cons in HR as [H1 H2].
    rewrite filter_cons_True by lia. by rewrite IH. }
  by rewrite HA', HE', HR'.
Qed.

(** [addChunk] at [p] keeps the chunks past [p] as they are. *)
Lemma addChunk_tail (q : Stmt) (p : Z) (clause expr : list ascii) (a : list value) (sep : list ascii) :
  WF q ->
  exists M, chunks (fst (addChunk q p clause expr a sep)) = M ++ filter (fun c => (p < pos c)%Z) (chunks q)
    /\ Forall (fun c => (pos c <= p)%Z) M.
Proof.
  intros HW.
  destruct (sorted_split p (chunks q) (wf_sorted _ HW)) as (A & E & R & Hcs & HA & HE & HR).
  rewrite Hcs, (filter_gt_split p A E R HA HE HR).
  assert (HA' : Forall (fun c => (pos c <= p)%Z) A) by (eapply Forall_impl; [exact HA|]; simpl; lia).
  destruct (Forall_pos_eq_last p E HE) as [->|(E' & c & -> & Hc)].
  - rewrite (addChunk_fresh q p clause expr a sep A R Hcs HA HR). simpl.
    eexists (A ++ [_]). split; [by rewrite <- app_assoc|].
    apply Forall_app. split; [done|]. by repeat constructor.
  - assert (HE' : Forall (fun c => (pos c <= p)%Z) (E' ++ [c])) by (eapply Forall_impl; [exact HE|]; simpl; lia).
    destruct (is_nil expr) eqn:Ee.
    + rewrite (addChunk_noop q p clause expr a sep A E' R c Hcs Hc HR Ee). simpl.
      rewrite Hcs. exists (A ++ E' ++ [c]). split; [by rewrite !app_assoc|].
      apply Forall_app. split; [done|]. done.
    + destruct (Nat.eq_dec (bufHigh c) (length (buf q))) as [Hb|Hb].
      * rewrite (addChunk_extend q p clause expr a sep A E' R c Hcs Hc HR Ee Hb). simpl.
        eexists (A ++ E' ++ [_]). split; [by rewrite <- !app_assoc|].
        apply Forall_app. split; [done|]. apply Forall_app in HE' as [HE1 _].
        apply Forall_app. split; [done|]. by repeat constructor.
      * rewrite (addChunk_after q p clause expr a sep A E' R c Hcs Hc HR Ee Hb). simpl.
        eexists (A ++ (E' ++ [c]) ++ [_]). split; [by rewrite <- !app_assoc|].
        apply Forall_app. split; [done|]. apply Forall_app. split; [done|]. by repeat constructor.
Qed.

Lemma addChunk_tail_zero (q : Stmt) (p p0 : Z) (clause expr : list ascii) (a : list value) (sep : list ascii) :
  WF q -> (p <= p0)%Z ->
  Forall (fun c => (p0 < pos c)%Z -> argLen c = 0) (chunks q) ->
  Forall (fun c => (p0 < pos c)%Z -> argLen c = 0) (chunks (fst (addChunk q p clause expr a sep))).
Proof.
  intros HW Hp H. destruct (addChunk_tail q p clause expr a sep HW) as (M & -> & HM).
  apply Forall_app. split.
  - eapply Forall_impl; [exact HM|]. simpl. lia.
  - clear -H. induction (chunks q) as [|c cs IH]; [constructor|].
    apply Forall_cons in H as [H1 H2]. destruct (decide (p < pos c)%Z).
    + rewrite filter_cons_True by done. constructor; [done|]. by apply IH.
    + rewrite filter_cons_False by done. by apply IH.
Qed.

Lemma SetExpr_pos (cs : list stmtChunk) :
  chunks_sorted cs ->
  match list_find (fun c => (pos c = posInsert \/ pos c = posUpdate)%Z) cs with
  | Some (_, c) => pos c
  | None => 0%Z
  end
  = if decide (Exists (fun c => pos c = posInsert) cs) then posInsert
    else if decide (Exists (fun c => pos c = posUpdate) cs) then posUpdate else 0%Z.
Proof.
  induction cs as [|c cs IH]; intros Hs; [reflexivity|].
  apply StronglySorted_inv in Hs as [Hs Hc]. simpl.
  destruct (decide (pos c = posInsert \/ pos c = posUpdate)) as [[Hi|Hu]|Hn]; simpl.
  - rewrite decide_True by (constructor; exact Hi). exact Hi.
  - rewrite decide_False.
    + rewrite decide_True by (constructor; exact Hu). exact Hu.
    + intros Hex. apply Exists_cons in Hex as [Hx|Hx]; [unfold posInsert, posUpdate in *; lia|].
      apply Exists_exists in Hx as (x & Hx & Hpx). rewrite Forall_forall in Hc.
      specialize (Hc x Hx). unfold posInsert, posUpdate in *. lia.
  - specialize (IH Hs).
    assert (E1 : (if decide (Exists (fun c => pos c = posInsert) (c :: cs)) then posInsert
                  else if decide (Exists (fun c => pos c = posUpdate) (c :: cs)) then posUpdate else 0%Z)
                 = (if decide (Exists (fun c => pos c = posInsert) cs) then posInsert
                    else if decide (Exists (fun c => pos c = posUpdate) cs) then posUpdate else 0%Z)).
    { destruct (decide (Exists (fun c => pos c = posInsert) cs)) as [H1|H1].
      - by rewrite decide_True by (by constructor 2).
      - rewrite decide_False by (intros H; apply Exists_cons in H as [H|H]; [apply Hn; by left|done]).
        destruct (decide (Exists (fun c => pos c = posUpdate) cs)) as [H2|H2].
        + by rewrite decide_True by (by constructor 2).
        + rewrite decide_False by (intros H; apply Exists_cons in H as [H|H]; [apply Hn; by right|done]).
          reflexivity. }
    rewrite E1, <- IH. destruct (list_find _ cs) as [[i x]|]; reflexivity.
Qed.

Lemma SetExpr_cases (q : Stmt) (field expr : string) (a : list value) :
  WF q ->
  (Exists (fun c => pos c = posInsert) (chunks q) ->
   SetExpr q field expr a
   = run_add (run_add q posInsertFields "" field [] ", ") posValues "" expr a ", ") /\
  (~ Exists (fun c => pos c = posInsert) (chunks q) ->
   Exists (fun c => pos c = posUpdate) (chunks q) ->
   SetExpr q field expr a
   = run_add q posSet "SET" (String.append field (String.append "=" expr)) a ", ") /\
  (~ Exists (fun c => pos c = posInsert \/ pos c = posUpdate) (chunks q) ->
   SetExpr q field expr a = q).
Proof.
  intros HW. unfold SetExpr. rewrite (SetExpr_pos _ (wf_sorted _ HW)).
  split; [|split].
  - intros H. by rewrite decide_True.
  - intros H1 H2. rewrite decide_False, decide_True by done. reflexivity.
  - intros H. rewrite decide_False, decide_False.
    + reflexivity.
    + intros H'. apply H. eapply Exists_impl; [exact H'|]. simpl. tauto.
    + intros H'. apply H. eapply Exists_impl; [exact H'|]. simpl. tauto.
Qed.

Lemma run_add_facts (q : Stmt) (p : Z) (clause expr : string) (a : list value) (sep : string) (p0 : Z) :
  WF q -> length (args q) = sumArg (chunks q) ->
  Forall (fun c => (p0 < pos c)%Z -> argLen c = 0) (chunks q) -> (p <= p0)%Z ->
  let q' := run_add q p clause expr a sep in
  WF q' /\ length (args q') = sumArg (chunks q') /\
  Forall (fun c => (p0 < pos c)%Z -> argLen c = 0) (chunks q') /\
  stmt_groups q' = gupd p (bs clause) (bs expr) (bs sep) (stmt_groups q) /\
  dialect q' = dialect q.
Proof.
  intros HW HL Ht Hp q'.
  destruct (addChunk_step q p (bs clause) (bs expr) a (bs sep) HW) as (HW' & Hg & Hd).
  destruct (addChunk_args_gen q p (bs clause) (bs expr) a (bs sep) HW HL) as (HL' & _).
  split; [exact HW'|]. split; [exact HL'|]. split; [|split; [exact Hg|exact Hd]].
  by apply addChunk_tail_zero.
Qed.

Lemma insert_set_step (q : Stmt) (T F V : list ascii) (field expr : string) (a : list value) :
  WF q -> length (args q) = sumArg (chunks q) ->
  Forall (fun c => (posValues < pos c)%Z -> argLen c = 0) (chunks q) ->
  field <> ""%string -> expr <> ""%string ->
  stmt_groups q = [(posInsert, (T, true)); ((posInsertFields - 1)%Z, (bs "(", false));
                   (posInsertFields, (F, true)); ((posValues - 1)%Z, (bs ") VALUES (", false));
                   (posValues, (V, true)); ((posValues + 1)%Z, (bs ")", false))] ->
  let q' := SetExpr q field expr a in
  WF q' /\ length (args q') = sumArg (chunks q') /\
  Forall (fun c => (posValues < pos c)%Z -> argLen c = 0) (chunks q') /\
  stmt_groups q' = [(posInsert, (T, true)); ((posInsertFields - 1)%Z, (bs "(", false));
                   (posInsertFields, (F ++ bs ", " ++ bs field, true)); ((posValues - 1)%Z, (bs ") VALUES (", false));
                   (posValues, (V ++ bs ", " ++ bs expr, true)); ((posValues + 1)%Z, (bs ")", false))] /\
  args q' = args q ++ a /\ dialect q' = dialect q.
Proof.
  intros HW HL Ht Hf He Hg q'.
  pose proof (bs_nonempty _ Hf) as Nf. pose proof (bs_nonempty _ He) as Ne.
  assert (Hex : Exists (fun c => pos c = posInsert) (chunks q)).
  { apply (groups_key_chunk (buf q)). change (groups (buf q) (chunks q)) with (stmt_groups q).
    rewrite Hg. by constructor. }
  unfold q'. rewrite (proj1 (SetExpr_cases q field expr a HW) Hex).
  destruct (run_add_facts q posInsertFields "" field [] ", " posValues HW HL Ht ltac:(unfold posInsertFields, posValues; lia))
    as (HW1 & HL1 & Ht1 & Hg1 & Hd1).
  assert (Ha1 : args (run_add q posInsertFields "" field [] ", ") = args q) by apply addChunk_noargs.
  generalize dependent (run_add q posInsertFields "" field [] ", "). intros q1 HW1 HL1 Ht1 Hg1 Hd1 Ha1.
  rewrite Hg in Hg1. unfold posInsert, posInsertFields, posValues in Hg1. simpl in Hg1. rewrite Nf in Hg1.
  destruct (run_add_facts q1 posValues "" expr a ", " posValues HW1 HL1 Ht1 ltac:(lia))
    as (HW2 & HL2 & Ht2 & Hg2 & Hd2).
  assert (Ha2 : args (run_add q1 posValues "" expr a ", ") = args q1 ++ a).
  { apply addChunk_args_end; [done|done|exact Ht1|by left]. }
  split; [exact HW2|]. split; [exact HL2|]. split; [exact Ht2|]. split; [|split; [by rewrite Ha2, Ha1|congruence]].
  rewrite Hg2, Hg1. unfold posInsert, posInsertFields, posValues. simpl. rewrite Ne. reflexivity.
Qed.

Lemma addChunk_tail_zero_nil (q : Stmt) (p p0 : Z) (clause expr sep : list ascii) :
  WF q ->
  Forall (fun c => (p0 < pos c)%Z -> argLen c = 0) (chunks q) ->
  Forall (fun c => (p0 < pos c)%Z -> argLen c = 0) (chunks (fst (addChunk q p clause expr [] sep))).
Proof.
  intros HW H.
  destruct (sorted_split p (chunks q) (wf_sorted _ HW)) as (A & E & R & Hcs & HA & HE & HR).
  rewrite Hcs in H. apply Forall_app in H as [H1 H2]. apply Forall_app in H2 as [H2 H3].
  destruct (Forall_pos_eq_last p E HE) as [->|(E' & c & -> & Hc)].
  - rewrite (addChunk_fresh q p clause expr [] sep A R Hcs HA HR). simpl.
    apply Forall_app. split; [done|]. constructor; [by intros _|done].
  - apply Forall_app in H2 as [H2 H2c]. apply Forall_cons in H2c as [Hcc _].
    destruct (is_nil expr) eqn:Ee.
    + rewrite (addChunk_noop q p clause expr [] sep A E' R c Hcs Hc HR Ee). simpl.
      rewrite Hcs. apply Forall_app. split; [done|]. apply Forall_app. split; [|done].
      apply Forall_app. split; [done|]. by constructor.
    + destruct (Nat.eq_dec (bufHigh c) (length (buf q))) as [Hb|Hb].
      * rewrite (addChunk_extend q p clause expr [] sep A E' R c Hcs Hc HR Ee Hb). simpl.
        apply Forall_app. split; [done|]. apply Forall_app. split; [|done].
        apply Forall_app. split; [done|]. constructor; [|done]. simpl. rewrite <- Hc. lia.
      * rewrite (addChunk_after q p clause expr [] sep A E' R c Hcs Hc HR Ee Hb). simpl.
        apply Forall_app. split; [done|]. apply Forall_app. split; [|done].
        apply Forall_app. split; [apply Forall_app; split; [done|by constructor]|].
        constructor; [by intros _|done].
Qed.

Lemma WF_set_qpos (q : Stmt) (p : Z) : WF q -> WF (set_qpos q p).
Proof. intros [H1 H2 H3]. by split. Qed.

Lemma InsertInto_shape (d : Dialect) (table : string) :
  table <> ""%string ->
  let q := InsertInto (getStmt d) table in
  WF q /\ length (args q) = sumArg (chunks q) /\
  Forall (fun c => (posValues < pos c)%Z -> argLen c = 0) (chunks q) /\
  stmt_groups q = [(posInsert, (bs "INSERT INTO " ++ bs table, true)); ((posInsertFields - 1)%Z, (bs "(", false));
                   ((posValues - 1)%Z, (bs ") VALUES (", false)); ((posValues + 1)%Z, (bs ")", false))] /\
  args q = [] /\ dialect q = d /\ qpos q = posInsertFields.
Proof.
  intros Ht q. unfold q, InsertInto. clear q. pose proof (bs_nonempty _ Ht) as Nt.
  assert (H0 : Forall (fun c => (posValues < pos c)%Z -> argLen c = 0) (chunks (getStmt d))) by constructor.
  destruct (run_add_facts (getStmt d) posInsert "INSERT INTO" table [] ", " posValues (WF_getStmt d) eq_refl H0
              ltac:(unfold posInsert, posValues; lia)) as (W1 & L1 & T1 & G1 & D1).
  assert (A1 : args (run_add (getStmt d) posInsert "INSERT INTO" table [] ", ") = []) by apply addChunk_noargs.
  generalize dependent (run_add (getStmt d) posInsert "INSERT INTO" table [] ", "). intros q1 W1 L1 T1 G1 D1 A1.
  destruct (run_add_facts q1 (posInsertFields - 1) "(" "" [] "" posValues W1 L1 T1
              ltac:(unfold posInsertFields, posValues; lia)) as (W2 & L2 & T2 & G2 & D2).
  assert (A2 : args (run_add q1 (posInsertFields - 1) "(" "" [] "") = []) by (unfold run_add; rewrite addChunk_noargs; exact A1).
  generalize dependent (run_add q1 (posInsertFields - 1) "(" "" [] ""). intros q2 W2 L2 T2 G2 D2 A2.
  destruct (run_add_facts q2 (posValues - 1) ") VALUES (" "" [] "" posValues W2 L2 T2
              ltac:(unfold posValues; lia)) as (W3 & L3 & T3 & G3 & D3).
  assert (A3 : args (run_add q2 (posValues - 1) ") VALUES (" "" [] "") = []) by (unfold run_add; rewrite addChunk_noargs; exact A2).
  generalize dependent (run_add q2 (posValues - 1) ") VALUES (" "" [] ""). intros q3 W3 L3 T3 G3 D3 A3.
  destruct (addChunk_step q3 (posValues + 1) (bs ")") (bs "") [] (bs "") W3) as (W4 & G4 & D4).
  destruct (addChunk_args_gen q3 (posValues + 1) (bs ")") (bs "") [] (bs "") W3 L3) as (L4 & _).
  change (fst (addChunk q3 (posValues + 1) (bs ")") (bs "") [] (bs ""))) with (run_add q3 (posValues + 1) ")" "" [] "") in W4, G4, D4, L4.
  pose proof (addChunk_tail_zero_nil q3 (posValues + 1) posValues (bs ")") (bs "") (bs "") W3 T3) as T4.
  assert (A4 : args (run_add q3 (posValues + 1) ")" "" [] "") = []) by (unfold run_add; rewrite addChunk_noargs; exact A3).
  change (fst (addChunk q3 (posValues + 1) (bs ")") (bs "") [] (bs ""))) with (run_add q3 (posValues + 1) ")" "" [] "") in T4.
  generalize dependent (run_add q3 (posValues + 1) ")" "" [] ""). intros q4 W4 G4 D4 L4 T4 A4.
  split; [by apply WF_set_qpos|]. split; [exact L4|]. split; [exact T4|].
  split; [|split; [exact A4|split; [cbn [dialect set_qpos getStmt] in *; congruence|reflexivity]]].
  change (stmt_groups (set_qpos q4 posInsertFields)) with (stmt_groups q4).
  rewrite G4, G3, G2, G1. unfold posInsert, posInsertFields, posValues. simpl. rewrite Nt. reflexivity.
Qed.

Lemma insert_set_first (q : Stmt) (T : list ascii) (field expr : string) (a : list value) :
  WF q -> length (args q) = sumArg (chunks q) ->
  Forall (fun c => (posValues < pos c)%Z -> argLen c = 0) (chunks q) ->
  field <> ""%string -> expr <> ""%string ->
  stmt_groups q = [(posInsert, (T, true)); ((posInsertFields - 1)%Z, (bs "(", false));
                   ((posValues - 1)%Z, (bs ") VALUES (", false)); ((posValues + 1)%Z, (bs ")", false))] ->
  let q' := SetExpr q field expr a in
  WF q' /\ length (args q') = sumArg (chunks q') /\
  Forall (fun c => (posValues < pos c)%Z -> argLen c = 0) (chunks q') /\
  stmt_groups q' = [(posInsert, (T, true)); ((posInsertFields - 1)%Z, (bs "(", false));
                   (posInsertFields, (bs field, true)); ((posValues - 1)%Z, (bs ") VALUES (", false));
                   (posValues, (bs expr, true)); ((posValues + 1)%Z, (bs ")", false))] /\
  args q' = args q ++ a /\ dialect q' = dialect q.
Proof.
  intros HW HL Ht Hf He Hg q'.
  pose proof (bs_nonempty _ Hf) as Nf. pose proof (bs_nonempty _ He) as Ne.
  assert (Hex : Exists (fun c => pos c = posInsert) (chunks q)).
  { apply (groups_key_chunk (buf q)). change (groups (buf q) (chunks q)) with (stmt_groups q).
    rewrite Hg. by constructor. }
  unfold q'. rewrite (proj1 (SetExpr_cases q field expr a HW) Hex).
  destruct (run_add_facts q posInsertFields "" field [] ", " posValues HW HL Ht ltac:(unfold posInsertFields, posValues; lia))
    as (HW1 & HL1 & Ht1 & Hg1 & Hd1).
  assert (Ha1 : args (run_add q posInsertFields "" field [] ", ") = args q) by apply addChunk_noargs.
  generalize dependent (run_add q posInsertFields "" field [] ", "). intros q1 HW1 HL1 Ht1 Hg1 Hd1 Ha1.
  rewrite Hg in Hg1. unfold posInsert, posInsertFields, posValues in Hg1. simpl in Hg1. unfold gnew in Hg1. rewrite Nf in Hg1.
  destruct (run_add_facts q1 posValues "" expr a ", " posValues HW1 HL1 Ht1 ltac:(lia))
    as (HW2 & HL2 & Ht2 & Hg2 & Hd2).
  assert (Ha2 : args (run_add q1 posValues "" expr a ", ") = args q1 ++ a).
  { apply addChunk_args_end; [done|done|exact Ht1|by left]. }
  split; [exact HW2|]. split; [exact HL2|]. split; [exact Ht2|]. split; [|split; [by rewrite Ha2, Ha1|congruence]].
  rewrite Hg2, Hg1. unfold posInsert, posInsertFields, posValues. simpl. unfold gnew. rewrite Ne. reflexivity.
Qed.

Lemma insert_set_fold (rest : list (string * string * list value)) (q : Stmt) (T F V : list ascii) :
  WF q -> length (args q) = sumArg (chunks q) ->
  Forall (fun c => (posValues < pos c)%Z -> argLen c = 0) (chunks q) ->
  Forall (fun x => x.1.1 <> ""%string /\ x.1.2 <> ""%string) rest ->
  stmt_groups q = [(posInsert, (T, true)); ((posInsertFields - 1)%Z, (bs "(", false));
                   (posInsertFields, (F, true)); ((posValues - 1)%Z, (bs ") VALUES (", false));
                   (posValues, (V, true)); ((posValues + 1)%Z, (bs ")", false))] ->
  let q' := foldl (fun q x => SetExpr q x.1.1 x.1.2 x.2) q rest in
  stmt_groups q' = [(posInsert, (T, true)); ((posInsertFields - 1)%Z, (bs "(", false));
                   (posInsertFields, (F ++ mjoin (map (fun x => bs ", " ++ bs x.1.1) rest), true));
                   ((posValues - 1)%Z, (bs ") VALUES (", false));
                   (posValues, (V ++ mjoin (map (fun x => bs ", " ++ bs x.1.2) rest), true));
                   ((posValues + 1)%Z, (bs ")", false))] /\
  args q' = args q ++ mjoin (map snd rest) /\ dialect q' = dialect q /\ WF q'.
Proof.
  revert q F V. induction rest as [|[[f e] a] rest IH]; intros q F V HW HL Ht Hne Hg q'.
  - unfold q'. cbn [foldl map mjoin list_join]. rewrite !app_nil_r. split; [exact Hg|]. split; [reflexivity|]. split; [reflexivity|exact HW].
  - apply Forall_cons in Hne as [[Hf He] Hne]. simpl in Hf, He.
    destruct (insert_set_step q T F V f e a HW HL Ht Hf He Hg) as (W1 & L1 & T1 & G1 & A1 & D1).
    destruct (IH _ _ _ W1 L1 T1 Hne G1) as (G2 & A2 & D2 & W2).
    unfold q'. simpl. split; [|split; [|split]].
    + rewrite G2. by rewrite <- !app_assoc.
    + rewrite A2, A1. by rewrite <- app_assoc.
    + congruence.
    + exact W2.
Qed.

(** [InsertInto(table)] followed by [SetExpr] calls renders
    ["INSERT INTO table ( f1, f2 ) VALUES ( e1, e2 )"], with the arguments
    in call order. *)
Theorem InsertInto_SetExpr (table : string) (f0 e0 : string) (a0 : list value)
    (rest : list (string * string * list value)) :
  table <> ""%string -> f0 <> ""%string -> e0 <> ""%string ->
  Forall (fun x => x.1.1 <> ""%string /\ x.1.2 <> ""%string) rest ->
  let q := foldl (fun q x => SetExpr q x.1.1 x.1.2 x.2)
             (SetExpr (InsertInto (getStmt NoDialect) table) f0 e0 a0) rest in
  render q = bs "INSERT INTO " ++ bs table ++ bs " ( " ++ bs f0
               ++ mjoin (map (fun x => bs ", " ++ bs x.1.1) rest)
               ++ bs " ) VALUES ( " ++ bs e0
               ++ mjoin (map (fun x => bs ", " ++ bs x.1.2) rest) ++ bs " )" /\
  args q = a0 ++ mjoin (map snd rest).
Proof.
  intros Ht Hf He Hr q.
  destruct (InsertInto_shape NoDialect table Ht) as (W0 & L0 & T0 & G0 & A0 & D0 & _).
  destruct (insert_set_first _ _ f0 e0 a0 W0 L0 T0 Hf He G0) as (W1 & L1 & T1 & G1 & A1 & D1).
  destruct (insert_set_fold rest _ _ _ _ W1 L1 T1 Hr G1) as (G2 & A2 & D2 & W2).
  fold q in G2, A2, D2, W2. split.
  - rewrite (render_WF _ W2), build_nd_groups by congruence. rewrite G2.
    unfold posInsert, posInsertFields, posValues. simpl. by rewrite <- !app_assoc.
  - rewrite A2, A1, A0. reflexivity.
Qed.

Lemma groups_keys_inv (b : list ascii) (P : Z -> Prop) (cs : list stmtChunk) :
  Forall (fun g : group => P g.1) (groups b cs) -> Forall (fun c => P (pos c)) cs.
Proof.
  induction cs as [|c cs IH]; simpl; intros H; [constructor|].
  revert H IH. destruct (groups b cs) as [|[k [t h]] gs]; intros H IH.
  - apply Forall_cons in H as [H _]. constructor; [exact H|]. by apply IH.
  - destruct (k =? pos c)%Z eqn:Ek.
    + apply Z.eqb_eq in Ek. apply Forall_cons in H as [H1 H2]. simpl in H1.
      constructor; [by rewrite <- Ek|]. apply IH. by constructor.
    + apply Forall_cons in H as [H1 H2]. constructor; [exact H1|]. by apply IH.
Qed.

Lemma bs_append (s t : string) : bs (String.append s t) = bs s ++ bs t.
Proof. induction s as [|c s IH]; [reflexivity|]. simpl. unfold bs in *. simpl. by rewrite IH. Qed.

Lemma update_set_step (q : Stmt) (T S : list ascii) (field expr : string) (a : list value) :
  WF q -> length (args q) = sumArg (chunks q) ->
  stmt_groups q = [(posUpdate, (T, true)); (posSet, (S, true))] ->
  let q' := SetExpr q field expr a in
  WF q' /\ length (args q') = sumArg (chunks q') /\
  stmt_groups q' = [(posUpdate, (T, true));
                    (posSet, (S ++ bs ", " ++ bs field ++ bs "=" ++ bs expr, true))] /\
  args q' = args q ++ a /\ dialect q' = dialect q.
Proof.
  intros HW HL Hg q'.
  assert (Hk : Forall (fun c => pos c = posUpdate \/ pos c = posSet) (chunks q)).
  { apply (groups_keys_inv (buf q) (fun k => k = posUpdate \/ k = posSet)).
    change (groups (buf q) (chunks q)) with (stmt_groups q). rewrite Hg. by repeat constructor; simpl; auto. }
  assert (Hni : ~ Exists (fun c => pos c = posInsert) (chunks q)).
  { intros Hx. apply Exists_exists in Hx as (x & Hx & Hpx). rewrite Forall_forall in Hk.
    specialize (Hk x Hx). unfold posInsert, posUpdate, posSet in *. lia. }
  assert (Hu : Exists (fun c => pos c = posUpdate) (chunks q)).
  { apply (groups_key_chunk (buf q)). change (groups (buf q) (chunks q)) with (stmt_groups q).
    rewrite Hg. by constructor. }
  unfold q'. rewrite (proj1 (proj2 (SetExpr_cases q field expr a HW)) Hni Hu).
  destruct (addChunk_step q posSet (bs "SET") (bs (String.append field (String.append "=" expr))) a (bs ", ") HW)
    as (HW1 & Hg1 & Hd1).
  destruct (addChunk_args_gen q posSet (bs "SET") (bs (String.append field (String.append "=" expr))) a (bs ", ") HW HL)
    as (HL1 & _).
  split; [exact HW1|]. split; [exact HL1|]. split; [|split; [|exact Hd1]].
  - change (stmt_groups (run_add q posSet "SET" (String.append field (String.append "=" expr)) a ", "))
      with (stmt_groups (fst (addChunk q posSet (bs "SET") (bs (String.append field (String.append "=" expr))) a (bs ", ")))).
    rewrite Hg1, Hg. unfold posUpdate, posSet. simpl.
    assert (Ne : is_nil (bs (String.append field (String.append "=" expr))) = false)
      by (rewrite !bs_append; by destruct (bs field)).
    rewrite Ne. by rewrite !bs_append.
  - apply addChunk_args_end; [done|done| |].
    + eapply Forall_impl; [exact Hk|]. simpl. unfold posUpdate, posSet. lia.
    + left. rewrite !bs_append. by destruct (bs field).
Qed.

Lemma update_set_fold (rest : list (string * string * list value)) (q : Stmt) (T S : list ascii) :
  WF q -> length (args q) = sumArg (chunks q) ->
  stmt_groups q = [(posUpdate, (T, true)); (posSet, (S, true))] ->
  let q' := foldl (fun q x => SetExpr q x.1.1 x.1.2 x.2) q rest in
  stmt_groups q' = [(posUpdate, (T, true));
                    (posSet, (S ++ mjoin (map (fun x => bs ", " ++ bs x.1.1 ++ bs "=" ++ bs x.1.2) rest), true))] /\
  args q' = args q ++ mjoin (map snd rest) /\ dialect q' = dialect q /\ WF q'.
Proof.
  revert q S. induction rest as [|[[f e] a] rest IH]; intros q S HW HL Hg q'.
  - unfold q'. cbn [foldl map mjoin list_join]. rewrite !app_nil_r.
    split; [exact Hg|]. split; [reflexivity|]. split; [reflexivity|exact HW].
  - destruct (update_set_step q T S f e a HW HL Hg) as (W1 & L1 & G1 & A1 & D1).
    destruct (IH _ _ W1 L1 G1) as (G2 & A2 & D2 & W2).
    unfold q'. simpl. split; [|split; [|split]].
    + rewrite G2. by rewrite <- !app_assoc.
    + rewrite A2, A1. by rewrite <- app_assoc.
    + congruence.
    + exact W2.
Qed.

(** [Update(table)] followed by [SetExpr] calls renders
    ["UPDATE table SET f1=e1, f2=e2"], with the arguments in call order. *)
Theorem Update_SetExpr (table : string) (f0 e0 : string) (a0 : list value)
    (rest : list (string * string * list value)) :
  table <> ""%string ->
  let q := foldl (fun q x => SetExpr q x.1.1 x.1.2 x.2)
             (SetExpr (Update (getStmt NoDialect) table) f0 e0 a0) rest in
  render q = bs "UPDATE " ++ bs table ++ bs " SET " ++ bs f0 ++ bs "=" ++ bs e0
               ++ mjoin (map (fun x => bs ", " ++ bs x.1.1 ++ bs "=" ++ bs x.1.2) rest) /\
  args q = a0 ++ mjoin (map snd rest).
Proof.
  intros Ht q. pose proof (bs_nonempty _ Ht) as Nt.
  destruct (addChunk_step (getStmt NoDialect) posUpdate (bs "UPDATE") (bs table) [] (bs ", ") (WF_getStmt _))
    as (W0 & G0 & D0).
  destruct (addChunk_args_gen (getStmt NoDialect) posUpdate (bs "UPDATE") (bs table) [] (bs ", ") (WF_getStmt _) eq_refl)
    as (L0 & _).
  assert (A0 : args (Update (getStmt NoDialect) table) = []) by apply addChunk_noargs.
  change (fst (addChunk (getStmt NoDialect) posUpdate (bs "UPDATE") (bs table) [] (bs ", ")))
    with (Update (getStmt NoDialect) table) in W0, G0, D0, L0.
  revert q. generalize dependent (Update (getStmt NoDialect) table). intros u W0 G0 D0 L0 A0 q.
  simpl in G0. unfold gnew in G0. rewrite Nt in G0. simpl in G0.
  assert (Hk : Forall (fun c => pos c = posUpdate) (chunks u)).
  { apply (groups_keys_inv (buf u) (fun k => k = posUpdate)).
    change (groups (buf u) (chunks u)) with (stmt_groups u). rewrite G0. by repeat constructor. }
  assert (Hni : ~ Exists (fun c => pos c = posInsert) (chunks u)).
  { intros Hx. apply Exists_exists in Hx as (x & Hx & Hpx). rewrite Forall_forall in Hk.
    specialize (Hk x Hx). unfold posInsert, posUpdate in *. lia. }
  assert (Hu : Exists (fun c => pos c = posUpdate) (chunks u)).
  { apply (groups_key_chunk (buf u)). change (groups (buf u) (chunks u)) with (stmt_groups u).
    rewrite G0. by constructor. }
  unfold q. rewrite (proj1 (proj2 (SetExpr_cases u f0 e0 a0 W0)) Hni Hu).
  set (fe := String.append f0 (String.append "=" e0)).
  assert (Ne : is_nil (bs fe) = false) by (unfold fe; rewrite !bs_append; by destruct (bs f0)).
  destruct (addChunk_step u posSet (bs "SET") (bs fe) a0 (bs ", ") W0) as (W1 & G1 & D1).
  destruct (addChunk_args_gen u posSet (bs "SET") (bs fe) a0 (bs ", ") W0 L0) as (L1 & _).
  assert (A1 : args (run_add u posSet "SET" fe a0 ", ") = a0).
  { unfold run_add. rewrite addChunk_args_end; [by rewrite A0|done|done| |by left].
    eapply Forall_impl; [exact Hk|]. simpl. unfold posUpdate, posSet. lia. }
  change (fst (addChunk u posSet (bs "SET") (bs fe) a0 (bs ", "))) with (run_add u posSet "SET" fe a0 ", ")
    in W1, G1, D1, L1.
  rewrite G0 in G1. unfold posUpdate, posSet in G1. simpl in G1. unfold gnew in G1. rewrite Ne in G1.
  simpl in G1.
  destruct (update_set_fold rest _ (bs "UPDATE " ++ bs table) (bs "SET " ++ bs fe) W1 L1
              G1) as (G2 & A2 & D2 & W2).
  split.
  - rewrite (render_WF _ W2), build_nd_groups by (rewrite D2, D1, D0; reflexivity). rewrite G2.
    unfold posUpdate, posSet. simpl. unfold fe. rewrite !bs_append. simpl. rewrite ?app_nil_r. rewrite <- app_assoc. reflexivity.
  - rewrite A2, A1. reflexivity.
Qed.

Lemma scan_eq_lookup (p : Z) (cs : list stmtChunk) (n t i : nat) (c : stmtChunk) (t' : nat) :
  scan p cs n t = SFoundEq i c t' -> cs !! i = Some c.
Proof.
  revert t. induction n as [|n IH]; intros t; simpl; [discriminate|].
  destruct (cs !! n) as [c0|] eqn:E; [|discriminate].
  destruct (pos c0 =? p)%Z; [by intros [= <- <- _]|].
  destruct (pos c0 <? p)%Z; [discriminate|]. apply IH.
Qed.

Lemma scan_lt_bound (p : Z) (cs : list stmtChunk) (n t idx t' : nat) :
  scan p cs n t = SFoundLt idx t' -> idx <= length cs.
Proof.
  revert t. induction n as [|n IH]; intros t; simpl; [discriminate|].
  destruct (cs !! n) as [c0|] eqn:E; [|discriminate].
  destruct (pos c0 =? p)%Z; [discriminate|].
  destruct (pos c0 <? p)%Z; [|apply IH].
  intros [= <- _]. apply lookup_lt_Some in E. lia.
Qed.

Lemma chunks_insert_lookup (cs : list stmtChunk) (i : nat) (c : stmtChunk) :
  i <= length cs -> chunks_insert cs i c !! i = Some c.
Proof.
  intros Hi. rewrite chunks_insert_spec by done.
  rewrite lookup_app_r by (rewrite length_take; lia).
  rewrite length_take. replace (i - Nat.min i (length cs)) with 0 by lia. done.
Qed.

Lemma chunks_insert_insert (cs : list stmtChunk) (i : nat) (c c2 : stmtChunk) :
  i <= length cs -> <[i := c2]> (chunks_insert cs i c) = chunks_insert cs i c2.
Proof.
  intros Hi. rewrite !chunks_insert_spec by done.
  rewrite insert_app_r_alt by (rewrite length_take; lia).
  rewrite length_take. replace (i - Nat.min i (length cs)) with 0 by lia. done.
Qed.

Lemma is_nil_app_l {A} (l k : list A) : is_nil l = false -> is_nil (l ++ k) = false.
Proof. by destruct l. Qed.

(** Extending the chunk [addChunk] reports by [X] is the same as adding
    [expr ++ X] in the first place. *)
Lemma addChunk_splice (q : Stmt) (p : Z) (clause expr : list ascii) (a : list value)
    (sep X : list ascii) :
  is_nil expr = false ->
  let '(q1, idx) := addChunk q p clause expr a sep in
  mkStmt (dialect q1) (qpos q1)
    (match chunks q1 !! idx with
     | Some c => <[idx := mkChunk (pos c) (bufLow c) (length (buf q1 ++ X)) (hasExpr c) (argLen c)]> (chunks q1)
     | None => chunks q1
     end)
    (buf q1 ++ X) (sql q1) (args q1) (dest q1)
  = fst (addChunk q p clause (expr ++ X) a sep).
Proof.
  intros He. pose proof (is_nil_app_l expr X He) as He'.
  unfold addChunk. destruct (scan p (chunks q) (length (chunks q)) 0) as [i c t|i t|t] eqn:Hs.
  - rewrite He, He'. pose proof (scan_eq_lookup _ _ _ _ _ _ _ Hs) as Hl.
    pose proof (lookup_lt_Some _ _ _ Hl) as Hlt.
    destruct (bufHigh c =? length (buf q)).
    + cbn [chunks buf dialect qpos sql args dest fst].
      rewrite list_lookup_insert_eq by done. rewrite list_insert_insert_eq.
      cbn [pos bufLow hasExpr argLen]. rewrite <- !app_assoc. reflexivity.
    + unfold newChunk. cbn [chunks buf dialect qpos sql args dest fst].
      rewrite chunks_insert_lookup by lia. rewrite chunks_insert_insert by lia.
      cbn [pos bufLow hasExpr argLen]. rewrite He, He'. rewrite <- !app_assoc. reflexivity.
  - pose proof (scan_lt_bound _ _ _ _ _ _ Hs) as Hb.
    unfold newChunk. cbn [chunks buf dialect qpos sql args dest fst].
    rewrite chunks_insert_lookup by lia. rewrite chunks_insert_insert by lia.
    cbn [pos bufLow hasExpr argLen]. rewrite He, He'. rewrite <- !app_assoc. reflexivity.
  - unfold newChunk. cbn [chunks buf dialect qpos sql args dest fst].
    rewrite chunks_insert_lookup by lia. rewrite chunks_insert_insert by lia.
    cbn [pos bufLow hasExpr argLen]. rewrite He, He'. rewrite <- !app_assoc. reflexivity.
Qed.

Lemma SubQuery_addChunk (q : Stmt) (prefix suffix : string) (query : Stmt) :
  prefix <> ""%string ->
  let query1 := match dialect query with
                | NoDialect => query
                | _ => Invalidate (set_dialect query NoDialect)
                end in
  let delimiter := if (qpos q =? posWhere)%Z then bs " AND " else bs ", " in
  fst (SubQuery q prefix suffix query)
  = fst (addChunk q (qpos q) [] (bs prefix ++ render query1 ++ bs suffix) (args query) delimiter).
Proof.
  intros Hp query1 delimiter.
  pose proof (addChunk_splice q (qpos q) [] (bs prefix) (args query) delimiter
                (render query1 ++ bs suffix) (bs_nonempty prefix Hp)) as H.
  unfold SubQuery. fold delimiter.
  destruct (addChunk q (qpos q) [] (bs prefix) (args query) delimiter) as [q1 idx].
  unfold splice. fold query1. unfold render in H |- *.
  destruct (Stmt_String query1) as [text query2]. cbn [fst] in H |- *. exact H.
Qed.

Lemma With_eq (q : Stmt) (name : string) (query : Stmt) :
  let query1 := match dialect query with
                | NoDialect => query
                | _ => Invalidate (set_dialect query NoDialect)
                end in
  fst (With q name query)
  = fst (addChunk (run_add q posWith "WITH" "" [] "") posWith []
           (bs name ++ bs " AS (" ++ render query1 ++ bs ")") (args query) (bs ", ")).
Proof.
  intros query1. unfold With.
  rewrite SubQuery_addChunk by (destruct name; discriminate).
  assert (Hp : qpos (run_add q posWith "WITH" "" [] "") = posWith)
    by (unfold run_add; apply addChunk_qpos).
  rewrite Hp, bs_append, <- app_assoc. reflexivity.
Qed.

Lemma With_step (W : Stmt) (n : string) (s : Stmt) (G1 G2 : list group) (t : list ascii) (h : bool) :
  WF W ->
  stmt_groups (run_add W posWith "WITH" "" [] "") = G1 ++ (posWith, (t, h)) :: G2 ->
  Forall (fun g : group => (g.1 < posWith)%Z) G1 ->
  let sub := render (match dialect s with
                     | NoDialect => s
                     | _ => Invalidate (set_dialect s NoDialect)
                     end) in
  WF (fst (With W n s)) /\
  stmt_groups (fst (With W n s))
  = G1 ++ (posWith, (t ++ (if h then bs ", " else [" "%char]) ++
                     bs n ++ bs " AS (" ++ sub ++ bs ")", true)) :: G2.
Proof.
  intros HW Hg HG1 sub. rewrite With_eq. fold sub.
  pose proof (addChunk_step W posWith (bs "WITH") (bs "") [] (bs "") HW) as (HW1 & _ & _).
  fold (run_add W posWith "WITH" "" [] "") in HW1.
  destruct (addChunk_step _ posWith [] (bs n ++ bs " AS (" ++ sub ++ bs ")") (args s) (bs ", ") HW1)
    as (HW2 & Hg2 & _).
  split; [exact HW2|]. rewrite Hg2, Hg.
  rewrite gupd_into; [reflexivity|exact HG1|].
  destruct (bs n); reflexivity.
Qed.

(** [With] puts every named subquery into the single WITH group: the
    first call writes ["WITH name AS (text)"], a second one appends
    [", name AS (text)"]. *)
Theorem With_twice (q : Stmt) (n1 n2 : string) (s1 s2 : Stmt) (G1 G2 : list group) :
  WF q ->
  stmt_groups q = G1 ++ G2 ->
  Forall (fun g : group => (g.1 < posWith)%Z) G1 ->
  Forall (fun g : group => (posWith < g.1)%Z) G2 ->
  let sub (s : Stmt) := render (match dialect s with
                                | NoDialect => s
                                | _ => Invalidate (set_dialect s NoDialect)
                                end) in
  stmt_groups (fst (With q n1 s1))
    = G1 ++ (posWith, (bs "WITH " ++ bs n1 ++ bs " AS (" ++ sub s1 ++ bs ")", true)) :: G2 /\
  stmt_groups (fst (With (fst (With q n1 s1)) n2 s2))
    = G1 ++ (posWith, (bs "WITH " ++ bs n1 ++ bs " AS (" ++ sub s1 ++ bs ")" ++
                       bs ", " ++ bs n2 ++ bs " AS (" ++ sub s2 ++ bs ")", true)) :: G2.
Proof.
  intros HW Hq HG1 HG2 sub.
  destruct (addChunk_step q posWith (bs "WITH") (bs "") [] (bs "") HW) as (_ & Hg0 & _).
  assert (E0 : stmt_groups (run_add q posWith "WITH" "" [] "")
               = G1 ++ (posWith, (bs "WITH", false)) :: G2).
  { unfold run_add. rewrite Hg0, Hq, gupd_absent by assumption. reflexivity. }
  destruct (With_step q n1 s1 G1 G2 _ _ HW E0 HG1) as (HW1 & Hg1).
  assert (F1 : stmt_groups (fst (With q n1 s1))
               = G1 ++ (posWith, (bs "WITH " ++ bs n1 ++ bs " AS (" ++ sub s1 ++ bs ")", true)) :: G2).
  { rewrite Hg1. reflexivity. }
  split; [exact F1|].
  destruct (addChunk_step (fst (With q n1 s1)) posWith (bs "WITH") (bs "") [] (bs "") HW1)
    as (_ & Hg3 & _).
  assert (E1 : stmt_groups (run_add (fst (With q n1 s1)) posWith "WITH" "" [] "")
               = G1 ++ (posWith, (bs "WITH " ++ bs n1 ++ bs " AS (" ++ sub s1 ++ bs ")", true)) :: G2).
  { unfold run_add. rewrite Hg3, F1, gupd_pass by exact HG1. rewrite gupd_at. reflexivity. }
  destruct (With_step _ n2 s2 G1 G2 _ _ HW1 E1 HG1) as (_ & Hg2).
  rewrite Hg2. rewrite <- !app_assoc. reflexivity.
Qed.

Lemma addChunk_fresh_index (q : Stmt) (p : Z) (clause expr : list ascii) (a : list value)
    (sep : list ascii) (A R : list stmtChunk) :
  chunks q = A ++ R -> Forall (fun x => (pos x < p)%Z) A -> Forall (fun x => (p < pos x)%Z) R ->
  snd (addChunk q p clause expr a sep) = length A.
Proof.
  intros Hcs HA HR. unfold addChunk. rewrite Hcs.
  destruct A as [|a0 A' _] using rev_ind.
  - simpl app. rewrite scan_none by done. unfold newChunk. reflexivity.
  - apply Forall_app in HA as [_ Ha]. inversion Ha; subst.
    rewrite scan_lt by done. unfold newChunk. reflexivity.
Qed.

Lemma SS_snoc {A} (R : A -> A -> Prop) (l : list A) (x : A) :
  StronglySorted R l -> Forall (fun y => R y x) l -> StronglySorted R (l ++ [x]).
Proof.
  induction l as [|y l IH]; intros Hs Hf; simpl.
  - repeat constructor.
  - inversion Hs as [|? ? Hs' Hy]; subst. apply Forall_cons in Hf as [Hyx Hf].
    constructor; [by apply IH|]. apply Forall_app. split; [exact Hy|]. by constructor.
Qed.

(** [Union] adds a group after every existing one (at [posUnion] or
    just past the last chunk), holding ["UNION "] or ["UNION ALL "] and the
    child's text rendered without a dialect; the child's arguments go to
    the end.  The result is well formed and keeps dialect and [dest]. *)
Theorem Union_appends (q : Stmt) (all : bool) (query : Stmt) :
  WF q ->
  let cl := if all then bs "UNION ALL " else bs "UNION " in
  let text := render (match dialect query with
                      | NoDialect => query
                      | _ => Invalidate (set_dialect query NoDialect)
                      end) in
  let q' := fst (Stmt_Union q all query) in
  WF q' /\ dialect q' = dialect q /\ dest q' = dest q /\
  (exists p, Forall (fun g : group => (g.1 < p)%Z) (stmt_groups q) /\
     stmt_groups q' = stmt_groups q ++ [(p, (cl ++ text, false))]) /\
  args q' = args q ++ args query /\
  (dialect q = NoDialect ->
   render q' = render q ++ (if is_nil (chunks q) then [] else [" "%char]) ++ cl ++ text).
Proof.
  intros HW cl text q'.
  set (p := match last (chunks q) with
            | Some c => if (posUnion <=? pos c)%Z then (pos c + 1)%Z else posUnion
            | None => posUnion
            end).
  assert (Hlt : Forall (fun c => (pos c < p)%Z) (chunks q)).
  { unfold p. destruct (last (chunks q)) as [c|] eqn:El.
    - eapply Forall_impl; [exact (sorted_last _ _ (wf_sorted _ HW) El)|]. simpl.
      intros x Hx. destruct (Z.leb_spec posUnion (pos c)); lia.
    - apply last_None in El. rewrite El. constructor. }
  assert (HG : Forall (fun g : group => (g.1 < p)%Z) (stmt_groups q))
    by (apply (groups_keys (buf q) (fun k => (k < p)%Z)); exact Hlt).
  assert (Hcs : chunks q = chunks q ++ []) by (by rewrite app_nil_r).
  pose proof (addChunk_fresh q p cl [] (args query) [] (chunks q) [] Hcs Hlt (List.Forall_nil _)) as Hf.
  pose proof (addChunk_fresh_index q p cl [] (args query) [] (chunks q) [] Hcs Hlt (List.Forall_nil _)) as Hi.
  assert (Hcl : fst (gnew cl []) = cl) by (unfold gnew, cl; destruct all; reflexivity).
  change (sumArg []) with 0 in Hf. rewrite Hcl, args_after_end in Hf.
  set (nc' := mkChunk p (length (buf q)) (length (buf q ++ cl ++ text)) false (length (args query))).
  assert (Hq' : q' = mkStmt (dialect q) p (chunks q ++ [nc']) (buf q ++ cl ++ text) None
                        (args q ++ args query) (dest q)).
  { unfold q', Stmt_Union. fold p. fold cl.
    destruct (addChunk q p cl [] (args query) []) as [q1 idx] eqn:E.
    cbn [fst snd] in Hf, Hi. subst q1 idx. unfold splice.
    destruct (Stmt_String _) as [t query2] eqn:Es.
    assert (Ht : t = text) by (unfold text, render; by rewrite Es). subst t. cbn [fst chunks buf dialect qpos sql args dest].
    rewrite lookup_app_r, Nat.sub_diag by lia. cbn [lookup list_lookup].
    rewrite insert_app_r_alt, Nat.sub_diag by lia. cbn [insert list_insert pos bufLow hasExpr argLen].
    rewrite !app_nil_r, <- app_assoc. reflexivity. }
  assert (Hspan : spans_ok (buf q ++ cl ++ text) (chunks q)).
  { eapply Forall_impl; [exact (wf_spans _ HW)|]. simpl. intros c Hc. rewrite length_app. lia. }
  assert (Hgr : stmt_groups q' = stmt_groups q ++ [(p, (cl ++ text, false))]).
  { rewrite Hq'. unfold stmt_groups. cbn [buf chunks].
    rewrite groups_app.
    - rewrite (groups_app_buf (buf q) (cl ++ text) (chunks q) (wf_spans _ HW)). f_equal.
      cbn [groups]. unfold nc'. by rewrite chunk_text_fresh.
    - eapply Forall_impl; [exact Hlt|]. simpl. intros c Hc. by constructor. }
  assert (HW' : WF q').
  { rewrite Hq'. constructor; cbn [chunks buf sql].
    - apply SS_snoc; [exact (wf_sorted _ HW)|]. eapply Forall_impl; [exact Hlt|]. simpl. lia.
    - apply Forall_app. split; [exact Hspan|]. constructor; [|constructor]. simpl. rewrite length_app. lia.
    - by left. }
  split; [exact HW'|]. split; [by rewrite Hq'|]. split; [by rewrite Hq'|].
  split; [exists p; split; [exact HG|exact Hgr]|]. split; [by rewrite Hq'|].
  intros HN. rewrite (render_WF _ HW'), (render_WF _ HW), !build_nd_groups; [| done | by rewrite Hq'].
  rewrite Hgr, gjoin_snoc by exact HG. unfold stmt_groups. by rewrite groups_nil.
Qed.

(** * Properties of the other methods, stated for users of the builder *)

(** [insertAt(dest, src, index)] is [dest] with [src] inserted before
    position [index]; at or past the end of [dest] it appends. *)
Theorem insertAt_take_drop (dest src : list value) (index : nat) :
  insertAt dest src index = take index dest ++ src ++ drop index dest.
Proof. exact (insertAt_eq dest src index). Qed.

(** [addChunk] on a well-formed statement whose arguments are those its
    chunks count: a call with an empty expression at a position that
    already has a chunk only sets [q.pos]; any other call inserts its
    arguments after those of all chunks at or before its position and
    before those of later chunks.  The count is kept and [dest] is left
    alone. *)
Theorem addChunk_args (q : Stmt) (p : Z) (clause expr : list ascii) (a : list value)
    (sep : list ascii) :
  WF q -> length (args q) = sumArg (chunks q) ->
  let q' := fst (addChunk q p clause expr a sep) in
  let k := sumArg (filter (fun c => (pos c <= p)%Z) (chunks q)) in
  length (args q') = sumArg (chunks q') /\ dest q' = dest q /\
  (is_nil expr = true -> Exists (fun c => pos c = p) (chunks q) -> q' = set_qpos q p) /\
  (is_nil expr = false \/ Forall (fun c => pos c <> p) (chunks q) ->
   args q' = take k (args q) ++ a ++ drop k (args q)).
Proof. exact (addChunk_args_gen q p clause expr a sep). Qed.

(** With a non-empty prefix, [SubQuery] leaves the parent exactly as a
    single [addChunk] of [prefix ++ child text ++ suffix] at the current
    clause position would, with the child's arguments: joined by [" AND "]
    in WHERE and [", "] elsewhere.  The child text is rendered without a
    dialect. *)
Theorem SubQuery_nonempty_prefix (q : Stmt) (prefix suffix : string) (query : Stmt) :
  prefix <> ""%string ->
  let query1 := match dialect query with
                | NoDialect => query
                | _ => Invalidate (set_dialect query NoDialect)
                end in
  let delimiter := if (qpos q =? posWhere)%Z then bs " AND " else bs ", " in
  fst (SubQuery q prefix suffix query)
  = fst (addChunk q (qpos q) [] (bs prefix ++ render query1 ++ bs suffix) (args query) delimiter).
Proof. exact (SubQuery_addChunk q prefix suffix query). Qed.

(** * The properties at concrete statements *)

Lemma addChunk_args_witness :
  WF ex_nd /\ length (args ex_nd) = sumArg (chunks ex_nd) /\
  args (fst (addChunk ex_nd posFrom (bs "FROM") (bs "u") [VInt 9] (bs ", "))) = [VInt 9; VInt 1].
Proof.
  assert (HW : WF ex_nd) by apply WF_run.
  assert (HL : length (args ex_nd) = sumArg (chunks ex_nd)) by (vm_compute; reflexivity).
  split; [exact HW|]. split; [exact HL|].
  destruct (addChunk_args ex_nd posFrom (bs "FROM") (bs "u") [VInt 9] (bs ", ") HW HL)
    as (_ & _ & _ & H).
  rewrite H by (left; reflexivity). vm_compute. reflexivity.
Defined.

Lemma Limit_first_wins_witness :
  WF ex_nd /\ length (args ex_nd) = sumArg (chunks ex_nd) /\
  Limit (Limit ex_nd (VInt 5)) (VInt 7) = Limit ex_nd (VInt 5) /\
  Offset (Offset ex_nd (VInt 5)) (VInt 7) = Offset ex_nd (VInt 5).
Proof.
  assert (HW : WF ex_nd) by apply WF_run.
  assert (HL : length (args ex_nd) = sumArg (chunks ex_nd)) by (vm_compute; reflexivity).
  split; [exact HW|]. split; [exact HL|].
  exact (Limit_first_wins ex_nd (VInt 5) (VInt 7) HW HL).
Defined.

Lemma Clause_appends_witness :
  WF ex_nd /\ length (args ex_nd) = sumArg (chunks ex_nd) /\
  render (Clause ex_nd "FOR UPDATE" []) = bs "SELECT id FROM t WHERE a = ? FOR UPDATE".
Proof.
  assert (HW : WF ex_nd) by apply WF_run.
  assert (HL : length (args ex_nd) = sumArg (chunks ex_nd)) by (vm_compute; reflexivity).
  split; [exact HW|]. split; [exact HL|].
  destruct (Clause_appends ex_nd "FOR UPDATE" [] HW HL) as (p & _ & _ & _ & Hr).
  rewrite Hr by reflexivity. vm_compute. reflexivity.
Defined.

Lemma In_extends_where_witness :
  WF ex_nd /\
  stmt_groups (Stmt_In ex_nd [VInt 2; VInt 3])
  = [(posSelect, (bs "SELECT id", true)); (posFrom, (bs "FROM t", true));
     (posWhere, (bs "WHERE a = ? IN (?,?)", true))].
Proof.
  assert (HW : WF ex_nd) by apply WF_run.
  split; [exact HW|].
  destruct (In_extends_where ex_nd [VInt 2; VInt 3] HW) as (H1 & _ & _).
  rewrite (H1 [(posSelect, (bs "SELECT id", true)); (posFrom, (bs "FROM t", true))]
              (bs "WHERE a = ?") true []).
  - vm_compute. reflexivity.
  - vm_compute. reflexivity.
  - repeat constructor.
Defined.

Lemma join_extends_from_witness :
  WF ex_nd /\
  stmt_groups (fst (join ex_nd "LEFT JOIN " "u" "u.id = t.id"))
  = [(posSelect, (bs "SELECT id", true));
     (posFrom, (bs "FROM t LEFT JOIN u ON (u.id = t.id)", true));
     (posWhere, (bs "WHERE a = ?", true))] /\
  args (fst (join ex_nd "LEFT JOIN " "u" "u.id = t.id")) = [VInt 1].
Proof.
  assert (HW : WF ex_nd) by apply WF_run.
  split; [exact HW|].
  destruct (join_extends_from ex_nd "LEFT JOIN " "u" "u.id = t.id" HW) as (H1 & _ & Ha & _).
  split; [|rewrite Ha; reflexivity].
  rewrite (H1 [(posSelect, (bs "SELECT id", true))] (bs "FROM t") true
              [(posWhere, (bs "WHERE a = ?", true))]).
  - vm_compute. reflexivity.
  - vm_compute. reflexivity.
  - repeat constructor.
Defined.

Lemma Expr_after_Where_witness :
  WF ex_sel /\
  stmt_groups (Expr (Where ex_sel "a = 1" []) "b = 2" [])
  = [(posSelect, (bs "SELECT id", true)); (posFrom, (bs "FROM t", true));
     (posWhere, (bs "WHERE a = 1, b = 2", true))] /\
  stmt_groups (Where (Where ex_sel "a = 1" []) "b = 2" [])
  = [(posSelect, (bs "SELECT id", true)); (posFrom, (bs "FROM t", true));
     (posWhere, (bs "WHERE a = 1 AND b = 2", true))].
Proof.
  assert (HW : WF ex_sel) by apply WF_run.
  split; [exact HW|].
  destruct (Expr_after_Where ex_sel "a = 1" "b = 2" [] []
              [(posSelect, (bs "SELECT id", true)); (posFrom, (bs "FROM t", true))] [] HW)
    as [H1 H2].
  - discriminate.
  - discriminate.
  - vm_compute. reflexivity.
  - repeat constructor.
  - constructor.
  - split; [rewrite H1|rewrite H2]; vm_compute; reflexivity.
Defined.

Lemma Paginate_appends_witness :
  WF ex_nd /\ Forall (fun c => (pos c < posLimit)%Z) (chunks ex_nd) /\
  args (Paginate ex_nd 3 10) = [VInt 1; VInt 10; VInt 20] /\
  render (Paginate ex_nd 3 10) = bs "SELECT id FROM t WHERE a = ? LIMIT ? OFFSET ?".
Proof.
  assert (HW : WF ex_nd) by apply WF_run.
  assert (HF : Forall (fun c => (pos c < posLimit)%Z) (chunks ex_nd))
    by (vm_compute; repeat constructor).
  split; [exact HW|]. split; [exact HF|].
  destruct (Paginate_appends ex_nd 3 10 HW HF) as (Ha & _ & Hr).
  split; [rewrite Ha|rewrite Hr by reflexivity]; vm_compute; reflexivity.
Defined.

Lemma InsertInto_SetExpr_witness :
  render (foldl (fun q x => SetExpr q x.1.1 x.1.2 x.2)
            (SetExpr (InsertInto (getStmt NoDialect) "users") "name" "?" [VStr "Ann"])
            [("age", "?", [VInt 30])])
  = bs "INSERT INTO users ( name, age ) VALUES ( ?, ? )" /\
  args (foldl (fun q x => SetExpr q x.1.1 x.1.2 x.2)
          (SetExpr (InsertInto (getStmt NoDialect) "users") "name" "?" [VStr "Ann"])
          [("age", "?", [VInt 30])])
  = [VStr "Ann"; VInt 30].
Proof.
  destruct (InsertInto_SetExpr "users" "name" "?" [VStr "Ann"] [("age", "?", [VInt 30])])
    as [Hr Ha].
  - discriminate.
  - discriminate.
  - discriminate.
  - constructor; [split; discriminate|constructor].
  - split; [rewrite Hr|rewrite Ha]; vm_compute; reflexivity.
Defined.

Lemma Update_SetExpr_witness :
  render (foldl (fun q x => SetExpr q x.1.1 x.1.2 x.2)
            (SetExpr (Update (getStmt NoDialect) "t") "a" "?" [VInt 1])
            [("b", "b + ?", [VInt 2])])
  = bs "UPDATE t SET a=?, b=b + ?" /\
  args (foldl (fun q x => SetExpr q x.1.1 x.1.2 x.2)
          (SetExpr (Update (getStmt NoDialect) "t") "a" "?" [VInt 1])
          [("b", "b + ?", [VInt 2])])
  = [VInt 1; VInt 2].
Proof.
  destruct (Update_SetExpr "t" "a" "?" [VInt 1] [("b", "b + ?", [VInt 2])]) as [Hr Ha].
  - discriminate.
  - split; [rewrite Hr|rewrite Ha]; vm_compute; reflexivity.
Defined.

Lemma SubQuery_nonempty_prefix_witness :
  render (fst (SubQuery ex_parent "EXISTS (" ")" ex_child))
  = bs "SELECT id FROM t WHERE x = $1 AND EXISTS (SELECT 1 FROM u WHERE y = $2)" /\
  args (fst (SubQuery ex_parent "EXISTS (" ")" ex_child)) = [VInt 1; VInt 2].
Proof.
  assert (H : fst (SubQuery ex_parent "EXISTS (" ")" ex_child)
              = fst (addChunk ex_parent (qpos ex_parent) []
                       (bs "EXISTS (" ++ bs "SELECT 1 FROM u WHERE y = ?" ++ bs ")")
                       [VInt 2] (bs " AND ")))
    by (rewrite (SubQuery_nonempty_prefix ex_parent "EXISTS (" ")" ex_child); [vm_compute; reflexivity|discriminate]).
  rewrite H. split; vm_compute; reflexivity.
Defined.

Lemma With_twice_witness :
  WF ex_sel /\
  stmt_groups (fst (With (fst (With ex_sel "a" (run (getStmt NoDialect) [call_Select "1" []])))
                         "b" (run (getStmt NoDialect) [call_Select "2" []])))
  = [(posWith, (bs "WITH a AS (SELECT 1), b AS (SELECT 2)", true));
     (posSelect, (bs "SELECT id", true)); (posFrom, (bs "FROM t", true))].
Proof.
  assert (HW : WF ex_sel) by apply WF_run.
  split; [exact HW|].
  destruct (With_twice ex_sel "a" "b" (run (getStmt NoDialect) [call_Select "1" []])
              (run (getStmt NoDialect) [call_Select "2" []]) [] (stmt_groups ex_sel) HW)
    as [_ H2].
  - reflexivity.
  - constructor.
  - repeat constructor.
  - rewrite H2. vm_compute. reflexivity.
Defined.

Lemma Union_appends_witness :
  WF ex_sel /\
  render (fst (Stmt_Union ex_sel true (run (getStmt NoDialect) [call_Select "id" []; call_From "u" []])))
  = bs "SELECT id FROM t UNION ALL SELECT id FROM u" /\
  args (fst (Stmt_Union ex_sel true ex_nd)) = [VInt 1].
Proof.
  assert (HW : WF ex_sel) by apply WF_run.
  split; [exact HW|].
  destruct (Union_appends ex_sel true (run (getStmt NoDialect) [call_Select "id" []; call_From "u" []]) HW)
    as (_ & _ & _ & _ & _ & Hr).
  destruct (Union_appends ex_sel true ex_nd HW) as (_ & _ & _ & _ & Ha & _).
  split; [rewrite Hr by reflexivity|rewrite Ha]; vm_compute; reflexivity.
Defined.
